(** * algo-trade: indicators, portfolio ledger, playback control and move selection

    A shallow embedding of the JavaScript sources
    (indicators.js, portfolio.js, market.js, real-market.js, ai-engine.js and
    the replay evaluation of app.js) together with the properties of the
    specification that were checked against them.

    Numbers.  A JavaScript number is modelled as an exact rational [Q]:
    rounding of binary64 arithmetic is not part of the model, and neither are
    [NaN] and the infinities.  [Qdiv x 0] is [0] where JavaScript yields
    [NaN] or an infinity; a theorem that depends on the value of a quotient
    carries the hypotheses that keep its divisor away from zero, and the
    places where a zero divisor is reached on purpose say so.  Equality of
    numbers is [Qeq] ([==]), since [Q] does not normalise fractions.

    Rounding.  Apart from the scenarios on whole amounts, the theorems
    about the ledger and the indicators are stated so that they do not rest
    on exact arithmetic: they speak of comparisons, signs, [Math.min] and
    [Math.max], counts, and of values given by the very expression the code
    evaluates.  Identities between sums and products that are associated
    differently hold for rationals and only up to rounding in binary64;
    where one is proved, it is a lemma about the exact model and says so.

    Objects.  [Portfolio.holdings] and the price table are JavaScript objects
    used as maps from symbol to value: [gmap string _].  The map holds the
    object's own entries.  A JavaScript lookup [obj[key]] also finds what a
    plain object inherits from [Object.prototype], under the names listed in
    [Portfolio.inherited_keys]; the map agrees with the code at every other
    key, and a statement about a symbol that may be looked up before it was
    stored carries [Portfolio.plain_key] as a hypothesis.  Sums over a map
    are taken with [map_fold]; the iteration order of the JavaScript object
    does not matter for an exact sum. *)

From Stdlib Require Import QArith Qround Qminmax Qabs Lqa ZArith Lia Sorted.
From stdpp Require Import gmap strings list fin_maps.

Local Open Scope Q_scope.

(** ** Comparisons and rounding on numbers *)

(** [a < b], [a <= b] and [a === b] as the booleans a JavaScript test
    computes. *)
Definition Qltb (a b : Q) : bool := negb (Qle_bool b a).
Definition Qleb (a b : Q) : bool := Qle_bool a b.
Definition Qeqb (a b : Q) : bool := Qeq_bool a b.

(** [Math.floor], [Math.ceil], [Math.round], [Math.min], [Math.max]. *)
Definition Math_floor (x : Q) : Q := inject_Z (Qfloor x).
Definition Math_ceil (x : Q) : Q := inject_Z (Qceiling x).
Definition Math_round (x : Q) : Q := inject_Z (Qfloor (x + (1 # 2))).
Definition Math_min (a b : Q) : Q := Qmin a b.
Definition Math_max (a b : Q) : Q := Qmax a b.

(** ** portfolio.js *)

Module Portfolio.

(** [{ qty, avgCost }] *)
Record Holding := mkHolding { qty : Q; avgCost : Q }.

Inductive Side := BUY | SELL.

(** [{ id, symbol, side, qty, price, total, pnl?, day, tick, time }];
    [pnl] is present on SELL records only. *)
Record Trade := mkTrade {
  t_id : Z;
  t_symbol : string;
  t_side : Side;
  t_qty : Q;
  t_price : Q;
  t_total : Q;
  t_pnl : option Q;
  t_day : Z;
  t_tick : Z;
  t_time : Z
}.

Record t := mkPortfolio {
  name : string;
  startingCash : Q;
  cash : Q;
  holdings : gmap string Holding;
  trades : list Trade;
  tradeId : Z;
  peakValue : Q;
  maxDrawdown : Q;
  dailyReturns : list Q;
  _prevValue : Q
}.

(** The property names every plain object inherits from
    [Object.prototype] (ECMAScript 20.1.3 and Annex B.2.2).  [holdings] is
    created as [{}], so [this.holdings[symbol]] is a function or an object,
    and truthy, for each of these names although no holding was stored
    under it. *)
Definition inherited_keys : list string :=
  ["constructor"; "hasOwnProperty"; "isPrototypeOf"; "propertyIsEnumerable";
   "toLocaleString"; "toString"; "valueOf"; "__proto__";
   "__defineGetter__"; "__defineSetter__"; "__lookupGetter__";
   "__lookupSetter__"].

(** A symbol under which a plain object inherits nothing: for such a key
    [this.holdings[symbol]] is the stored holding or [undefined], as the
    lookup in the map is. *)
Definition plain_key (symbol : string) : Prop :=
  forallb (fun k => negb (String.eqb symbol k)) inherited_keys = true.

(** [constructor(name, cash = 10000)] *)
Definition new (name : string) (cash : Q) : t :=
  {| name := name; startingCash := cash; cash := cash;
     holdings := ∅; trades := []; tradeId := 0%Z;
     peakValue := cash; maxDrawdown := 0; dailyReturns := [];
     _prevValue := cash |}.

(** Lines 34-51 of [buy]: the part after the clamp, run with the final
    quantity.  [now] is the value of [Date.now()]. *)
Definition buy_fill (symbol : string) (qty price : Q) (day tick now : Z)
    (p : t) : option Trade * t :=
  let totalCost := qty * price in
  let cash' := cash p - totalCost in
  let h := default (mkHolding 0 0) (holdings p !! symbol) in
  let newTotal := Portfolio.qty h + qty in
  let h' := mkHolding newTotal ((avgCost h * Portfolio.qty h + totalCost) / newTotal) in
  let trade := mkTrade (tradeId p + 1) symbol BUY qty price totalCost None day tick now in
  (Some trade,
   {| name := name p; startingCash := startingCash p; cash := cash';
      holdings := <[symbol := h']> (holdings p);
      trades := trades p ++ [trade]; tradeId := (tradeId p + 1)%Z;
      peakValue := peakValue p; maxDrawdown := maxDrawdown p;
      dailyReturns := dailyReturns p; _prevValue := _prevValue p |}).

(** [buy(symbol, qty, price, day, tick)]; [None] is the [null] result. *)
Definition buy (symbol : string) (qty price : Q) (day tick now : Z)
    (p : t) : option Trade * t :=
  let cost := qty * price in
  if Qltb (cash p) cost then
    let qty := Math_floor (cash p / price) in
    if Qleb qty 0 then (None, p)
    else buy_fill symbol qty price day tick now p
  else buy_fill symbol qty price day tick now p.

(** [sell(symbol, qty, price, day, tick)] *)
Definition sell (symbol : string) (qty price : Q) (day tick now : Z)
    (p : t) : option Trade * t :=
  match holdings p !! symbol with
  | None => (None, p)
  | Some h =>
    if Qleb (Portfolio.qty h) 0 then (None, p)
    else
      let qty := Math_min qty (Portfolio.qty h) in
      if Qleb qty 0 then (None, p)
      else
        let revenue := qty * price in
        let costBasis := qty * avgCost h in
        let pnl := revenue - costBasis in
        let cash' := cash p + revenue in
        let hqty := Portfolio.qty h - qty in
        let holdings' :=
          if Qleb hqty 0 then delete symbol (holdings p)
          else <[symbol := mkHolding hqty (avgCost h)]> (holdings p) in
        let trade := mkTrade (tradeId p + 1) symbol SELL qty price revenue
                             (Some pnl) day tick now in
        (Some trade,
         {| name := name p; startingCash := startingCash p; cash := cash';
            holdings := holdings';
            trades := trades p ++ [trade]; tradeId := (tradeId p + 1)%Z;
            peakValue := peakValue p; maxDrawdown := maxDrawdown p;
            dailyReturns := dailyReturns p; _prevValue := _prevValue p |})
  end.

(** [getHolding(symbol)] *)
Definition getHolding (symbol : string) (p : t) : option Holding :=
  holdings p !! symbol.

(** [marketPrices[sym] || 0] *)
Definition priceOf (marketPrices : gmap string Q) (sym : string) : Q :=
  default 0 (marketPrices !! sym).

(** [totalValue(marketPrices)] *)
Definition totalValue (marketPrices : gmap string Q) (p : t) : Q :=
  map_fold (fun sym h val => val + Portfolio.qty h * priceOf marketPrices sym)
           (cash p) (holdings p).

(** [realizedPnL()] *)
Definition realizedPnL (p : t) : Q :=
  fold_left (fun s tr => s + default 0 (t_pnl tr))
            (filter (fun tr => is_Some (t_pnl tr)) (trades p)) 0.

(** [updateMetrics(marketPrices)] *)
Definition updateMetrics (marketPrices : gmap string Q) (p : t) : t :=
  let val := totalValue marketPrices p in
  let peak := if Qltb (peakValue p) val then val else peakValue p in
  let dd := if Qltb 0 peak then ((peak - val) / peak) * 100 else 0 in
  let maxDD := if Qltb (maxDrawdown p) dd then dd else maxDrawdown p in
  let returns :=
    if Qltb 0 (_prevValue p)
    then dailyReturns p ++ [(val - _prevValue p) / _prevValue p]
    else dailyReturns p in
  {| name := name p; startingCash := startingCash p; cash := cash p;
     holdings := holdings p; trades := trades p; tradeId := tradeId p;
     peakValue := peak; maxDrawdown := maxDD;
     dailyReturns := returns; _prevValue := val |}.

(** [reset(cash)]: [cash || this.startingCash], so a missing argument
    ([None]) and the argument 0 both fall back to the starting cash;
    [startingCash] itself is not assigned. *)
Definition reset (cash0 : option Q) (p : t) : t :=
  let c :=
    match cash0 with
    | Some c => if Qeqb c 0 then startingCash p else c
    | None => startingCash p
    end in
  {| name := name p; startingCash := startingCash p; cash := c;
     holdings := ∅; trades := []; tradeId := 0%Z;
     peakValue := c; maxDrawdown := 0; dailyReturns := [];
     _prevValue := c |}.

(** [unrealizedPnL(marketPrices)] *)
Definition unrealizedPnL (marketPrices : gmap string Q) (p : t) : Q :=
  map_fold (fun sym h pnl =>
              pnl + (priceOf marketPrices sym - avgCost h) * Portfolio.qty h)
           0 (holdings p).

(** [totalPnL(marketPrices)] *)
Definition totalPnL (marketPrices : gmap string Q) (p : t) : Q :=
  totalValue marketPrices p - startingCash p.

(** [t.side === 'SELL' && t.pnl !== undefined] *)
Definition is_closed_sell (tr : Trade) : bool :=
  match t_side tr, t_pnl tr with
  | SELL, Some _ => true
  | _, _ => false
  end.

(** [t.pnl > 0] *)
Definition is_win (tr : Trade) : bool :=
  match t_pnl tr with
  | Some x => Qltb 0 x
  | None => false
  end.

(** [winRate()] *)
Definition winRate (p : t) : Q :=
  let sells := List.filter is_closed_sell (trades p) in
  if (length sells =? 0)%nat then 0
  else
    let wins := length (List.filter is_win sells) in
    (inject_Z (Z.of_nat wins) / inject_Z (Z.of_nat (length sells))) * 100.

(** [totalReturnPct(marketPrices)] *)
Definition totalReturnPct (marketPrices : gmap string Q) (p : t) : Q :=
  ((totalValue marketPrices p - startingCash p) / startingCash p) * 100.

(** The snapshot returned by [stats]. *)
Record Stats := mkStats {
  s_name : string;
  s_cash : Q;
  s_totalValue : Q;
  s_totalPnL : Q;
  s_unrealizedPnL : Q;
  s_realizedPnL : Q;
  s_totalReturnPct : Q;
  s_winRate : Q;
  s_sharpe : Q;
  s_maxDrawdown : Q;
  s_tradeCount : nat;
  s_holdings : gmap string Holding
}.

Section Sharpe.

(** [Math.sqrt] has no rational counterpart; the ratio is defined for any
    square-root function. *)
Variable Math_sqrt : Q -> Q.

(** [sharpeRatio()] *)
Definition sharpeRatio (p : t) : Q :=
  let rs := dailyReturns p in
  let n := inject_Z (Z.of_nat (length rs)) in
  if (length rs <? 2)%nat then 0
  else
    let mean := fold_left (fun a b => a + b) rs 0 / n in
    let variance := fold_left (fun s r => s + (r - mean) ^ 2) rs 0 / n in
    let std := Math_sqrt variance in
    if Qeqb std 0 then 0
    else (mean / std) * Math_sqrt 252.

(** [stats(marketPrices)] *)
Definition stats (marketPrices : gmap string Q) (p : t) : Stats :=
  {| s_name := name p;
     s_cash := cash p;
     s_totalValue := totalValue marketPrices p;
     s_totalPnL := totalPnL marketPrices p;
     s_unrealizedPnL := unrealizedPnL marketPrices p;
     s_realizedPnL := realizedPnL p;
     s_totalReturnPct := totalReturnPct marketPrices p;
     s_winRate := winRate p;
     s_sharpe := sharpeRatio p;
     s_maxDrawdown := maxDrawdown p;
     s_tradeCount := length (trades p);
     s_holdings := holdings p |}.

End Sharpe.

End Portfolio.

(** ** indicators.js *)

Module Indicators.

(** [data[j]] for an index inside the array.  Every read below is
    guarded so that [j] is in range (see [window_in_range]). *)
Definition get (data : list Q) (j : nat) : Q := default 0 (data !! j).

(** The indices visited by [for (let j = i - period + 1; j <= i; j++)]:
    [period] consecutive indices ending at [i], none when [period <= 0]. *)
Definition window (period : Z) (i : nat) : list nat :=
  seq (Z.to_nat (Z.of_nat i - period + 1)) (Z.to_nat period).

(** [let sum = 0; for (...) sum += data[j];] *)
Definition window_sum (data : list Q) (period : Z) (i : nat) : Q :=
  fold_left (fun sum j => sum + get data j) (window period i) 0.

(** [i < period - 1] *)
Definition warming (period : Z) (i : nat) : bool :=
  (Z.of_nat i <? period - 1)%Z.

(** [SMA(data, period)]; [None] is [null]. *)
Definition SMA (data : list Q) (period : Z) : list (option Q) :=
  (fun i =>
     if warming period i then None
     else Some (window_sum data period i / inject_Z period))
  <$> seq 0 (length data).

(** The loop of [EMA] over the remaining indices, with the running
    [ema] ([None] while it is still [null]). *)
Fixpoint EMA_loop (data : list Q) (period : Z) (k : Q)
    (indices : list nat) (ema : option Q) : list (option Q) :=
  match indices with
  | [] => []
  | i :: rest =>
    if warming period i then None :: EMA_loop data period k rest ema
    else
      let ema' :=
        match ema with
        | None => window_sum data period i / inject_Z period
        | Some e => get data i * k + e * (1 - k)
        end in
      Some ema' :: EMA_loop data period k rest (Some ema')
  end.

(** [EMA(data, period)] *)
Definition EMA (data : list Q) (period : Z) : list (option Q) :=
  let k := 2 / (inject_Z period + 1) in
  EMA_loop data period k (seq 0 (length data)) None.

(** The two accumulators of [RSI]. *)
Record RSIState := mkRSI { gains : Q; losses : Q }.

(** The last two lines of the loop body of [RSI]: the value pushed once
    the accumulators are [st]. *)
Definition RSI_value (st : RSIState) : Q :=
  let rs := if Qeqb (losses st) 0 then 100 else gains st / losses st in
  100 - 100 / (1 + rs).

(** One round of the loop of [RSI] at index [i]: the accumulators after
    the round and the value pushed. *)
Definition RSI_step (closes : list Q) (period : Z) (i : nat)
    (st : RSIState) : RSIState * option Q :=
  if (i =? 0)%nat then (st, None)
  else
    let change := get closes i - get closes (i - 1) in
    let value := RSI_value in
    if (Z.of_nat i <=? period)%Z then
      let st1 :=
        if Qltb 0 change then mkRSI (gains st + change) (losses st)
        else mkRSI (gains st) (losses st - change) in
      if (Z.of_nat i <? period)%Z then (st1, None)
      else
        let st2 := mkRSI (gains st1 / inject_Z period)
                         (losses st1 / inject_Z period) in
        (st2, Some (value st2))
    else
      let chg := change in
      let st1 :=
        mkRSI ((gains st * (inject_Z period - 1)
                + (if Qltb 0 chg then chg else 0)) / inject_Z period)
              ((losses st * (inject_Z period - 1)
                + (if Qltb chg 0 then - chg else 0)) / inject_Z period) in
      (st1, Some (value st1)).

(** The loop of [RSI]: for every index the accumulators after its round
    and the value pushed. *)
Fixpoint RSI_loop (closes : list Q) (period : Z) (indices : list nat)
    (st : RSIState) : list (RSIState * option Q) :=
  match indices with
  | [] => []
  | i :: rest =>
    let r := RSI_step closes period i st in
    r :: RSI_loop closes period rest r.1
  end.

Definition RSI_trace (closes : list Q) (period : Z)
    : list (RSIState * option Q) :=
  RSI_loop closes period (seq 0 (length closes)) (mkRSI 0 0).

(** [RSI(closes, period = 14)] *)
Definition RSI (closes : list Q) (period : Z) : list (option Q) :=
  snd <$> RSI_trace closes period.

(** [{ upper, middle, lower }] *)
Record Bands := mkBands {
  upper : list (option Q);
  middle : list (option Q);
  lower : list (option Q)
}.

Section Bollinger.

(** [Math.sqrt] has no rational counterpart; the bands are defined for
    any square-root function. *)
Variable Math_sqrt : Q -> Q.

(** One round of the loop of [BollingerBands]: the three values pushed
    at index [i], as (upper, middle, lower). *)
Definition Bollinger_step (closes : list Q) (period : Z) (mult : Q)
    (sma : list (option Q)) (i : nat) : option Q * option Q * option Q :=
  match default None (sma !! i) with
  | None => (None, None, None)
  | Some m =>
    let variance :=
      fold_left (fun v j => v + (get closes j - m) ^ 2) (window period i) 0 in
    let std := Math_sqrt (variance / inject_Z period) in
    (Some (m + mult * std), Some m, Some (m - mult * std))
  end.

(** [BollingerBands(closes, period = 20, mult = 2)] *)
Definition BollingerBands (closes : list Q) (period : Z) (mult : Q) : Bands :=
  let sma := SMA closes period in
  let rows := Bollinger_step closes period mult sma
              <$> seq 0 (length closes) in
  {| upper := (fun r => r.1.1) <$> rows;
     middle := (fun r => r.1.2) <$> rows;
     lower := (fun r => r.2) <$> rows |}.

End Bollinger.

(** [{ macd, signal, histogram }] *)
Record MACDResult := mkMACD {
  macd : list (option Q);
  signal : list (option Q);
  histogram : list (option Q)
}.

(** The first loop of [MACD]: [null] where either average is [null], the
    difference of the fast and the slow average elsewhere. *)
Definition macdLine (emaFast emaSlow : list (option Q)) (n : nat)
    : list (option Q) :=
  (fun i =>
     match default None (emaFast !! i), default None (emaSlow !! i) with
     | Some f, Some s => Some (f - s)
     | _, _ => None
     end)
  <$> seq 0 n.

(** [macdLine.filter(v => v !== null)] *)
Definition validMacd (line : list (option Q)) : list Q := omap id line.

(** [signalLine[vi] || null]: a missing entry, [null] and 0 all give
    [null]. *)
Definition signal_at (signalLine : list (option Q)) (vi : nat) : option Q :=
  match default None (signalLine !! vi) with
  | Some x => if Qeqb x 0 then None else Some x
  | None => None
  end.

(** The second loop of [MACD] over the remaining entries of the line, with
    the running index [vi] into the signal line: the triples (macd, signal,
    histogram) pushed. *)
Fixpoint MACD_loop (line : list (option Q)) (signalLine : list (option Q))
    (vi : nat) : list (option Q * option Q * option Q) :=
  match line with
  | [] => []
  | None :: rest => (None, None, None) :: MACD_loop rest signalLine vi
  | Some m :: rest =>
    let s := signal_at signalLine vi in
    (Some m, s, match s with Some x => Some (m - x) | None => None end)
      :: MACD_loop rest signalLine (S vi)
  end.

(** [MACD(closes, fast = 12, slow = 26, signal = 9)] *)
Definition MACD (closes : list Q) (fast slow sig : Z) : MACDResult :=
  let emaFast := EMA closes fast in
  let emaSlow := EMA closes slow in
  let line := macdLine emaFast emaSlow (length closes) in
  let signalLine := EMA (validMacd line) sig in
  let rows := MACD_loop line signalLine 0 in
  {| macd := (fun r => r.1.1) <$> rows;
     signal := (fun r => r.1.2) <$> rows;
     histogram := (fun r => r.2) <$> rows |}.

(** [Math.abs] *)
Definition Math_abs (x : Q) : Q := Qabs x.

(** The entry [tr[i]] of the first loop of [ATR]. *)
Definition trueRange (highs lows closes : list Q) (i : nat) : Q :=
  if (i =? 0)%nat then get highs i - get lows i
  else
    Math_max (Math_max (get highs i - get lows i)
                       (Math_abs (get highs i - get closes (i - 1))))
             (Math_abs (get lows i - get closes (i - 1))).

(** [ATR(highs, lows, closes, period = 14)] *)
Definition ATR (highs lows closes : list Q) (period : Z) : list (option Q) :=
  SMA (trueRange highs lows closes <$> seq 0 (length closes)) period.

(** The typical price [(highs[i] + lows[i] + closes[i]) / 3]. *)
Definition typical (highs lows closes : list Q) (i : nat) : Q :=
  (get highs i + get lows i + get closes i) / 3.

(** The loop of [VWAP] over the remaining indices, with the two running
    sums. *)
Fixpoint VWAP_loop (highs lows closes volumes : list Q) (indices : list nat)
    (cumVol cumTP : Q) : list Q :=
  match indices with
  | [] => []
  | i :: rest =>
    let tp := typical highs lows closes i in
    let cumVol := cumVol + get volumes i in
    let cumTP := cumTP + tp * get volumes i in
    (if Qltb 0 cumVol then cumTP / cumVol else tp)
      :: VWAP_loop highs lows closes volumes rest cumVol cumTP
  end.

(** [VWAP(highs, lows, closes, volumes)] *)
Definition VWAP (highs lows closes volumes : list Q) : list Q :=
  VWAP_loop highs lows closes volumes (seq 0 (length closes)) 0 0.

(** The running averages of [RSI] are not negative. *)
Definition nonneg_state (st : RSIState) : Prop := 0 <= gains st /\ 0 <= losses st.

End Indicators.

(** The shape of an indicator's output over an input of [n] values: as
    long as the input, [null] at the indices where [warm_up] holds and a
    number at the others. *)
Definition null_exactly (warm_up : nat -> Prop) (n : nat)
    (out : list (option Q)) : Prop :=
  length out = n
  /\ forall i, (i < n)%nat ->
       (warm_up i -> out !! i = Some None)
       /\ (~ warm_up i -> exists v, out !! i = Some (Some v)).

(** ** The host's timers: [setTimeout] and [clearTimeout] *)

Module Timers.

(** A pending timeout: its handle and the delay it was asked with.
    Handles are positive, so a stored handle is always truthy. *)
Record t := mkTimers { nextId : positive; pending : list (positive * Q) }.

Definition init : t := mkTimers 1 [].

(** [setTimeout(callback, delay)]: the fresh handle and the new table.
    The callback is the one of the engine that owns the table. *)
Definition setTimeout (delay : Q) (ts : t) : positive * t :=
  (nextId ts, mkTimers (Pos.succ (nextId ts)) (pending ts ++ [(nextId ts, delay)])).

(** [clearTimeout(id)] *)
Definition clearTimeout (id : positive) (ts : t) : t :=
  mkTimers (nextId ts) (filter (fun e => e.1 ≠ id) (pending ts)).

(** Is [id] pending? *)
Definition is_pending (id : positive) (ts : t) : bool :=
  bool_decide (id ∈ (pending ts).*1).

End Timers.

(** ** market.js: playback control of the synthetic market

    The instrument table ([stocks]), the scenario and the random events are
    left out of this model: [_openDay], [_closeDay], [_maybeEvent] and
    [_updatePrice] neither read nor write [paused], [speed], [intervalId] or
    [baseInterval].  Emitted signals are appended to [log]. *)

Module MarketEngine.

Inductive Event :=
| EvPlay
| EvPause
| EvReset
| EvDayClose (day : Z)
| EvTick (tick day intraIndex : Z).

Record t := mkEngine {
  tick : Z;
  day : Z;
  ticksPerDay : Z;
  paused : bool;
  speed : Q;
  intervalId : option positive;
  baseInterval : Q;
  timers : Timers.t;
  log : list Event
}.

(** [constructor()] *)
Definition new : t :=
  {| tick := 0; day := 0; ticksPerDay := 78; paused := true; speed := 1;
     intervalId := None; baseInterval := 385; timers := Timers.init;
     log := [] |}.

Definition emit (ev : Event) (e : t) : t :=
  mkEngine (tick e) (day e) (ticksPerDay e) (paused e) (speed e)
           (intervalId e) (baseInterval e) (timers e) (log e ++ [ev]).

(** The delay computed by [_schedule]. *)
Definition delay (e : t) : Q := Math_max 10 (baseInterval e / speed e).

(** [_schedule()] *)
Definition _schedule (e : t) : t :=
  if paused e then e
  else
    let '(id, ts) := Timers.setTimeout (delay e) (timers e) in
    mkEngine (tick e) (day e) (ticksPerDay e) (paused e) (speed e)
             (Some id) (baseInterval e) ts (log e).

(** [play()] *)
Definition play (e : t) : t :=
  if negb (paused e) then e
  else
    let e1 := mkEngine (tick e) (day e) (ticksPerDay e) false (speed e)
                       (intervalId e) (baseInterval e) (timers e) (log e) in
    emit EvPlay (_schedule e1).

(** [pause()] *)
Definition pause (e : t) : t :=
  let '(iid, ts) :=
    match intervalId e with
    | Some id => (None, Timers.clearTimeout id (timers e))
    | None => (None, timers e)
    end in
  emit EvPause
    (mkEngine (tick e) (day e) (ticksPerDay e) true (speed e)
              iid (baseInterval e) ts (log e)).

(** [setSpeed(s)] *)
Definition setSpeed (s : Q) (e : t) : t :=
  let e1 := mkEngine (tick e) (day e) (ticksPerDay e) (paused e) s
                     (intervalId e) (baseInterval e) (timers e) (log e) in
  if negb (paused e1) then play (pause e1) else e1.

(** [reset()] *)
Definition reset (e : t) : t :=
  let e1 := pause e in
  emit EvReset
    (mkEngine 0 0 (ticksPerDay e1) (paused e1) (speed e1)
              (intervalId e1) (baseInterval e1) (timers e1) (log e1)).

(** [_tick()], on the clock and the emitted signals. *)
Definition _tick (e : t) : t :=
  let intraIndex := (tick e mod ticksPerDay e)%Z in
  let isNewDay := (intraIndex =? 0)%Z && (0 <? tick e)%Z in
  let e1 :=
    if isNewDay then
      let e' := emit (EvDayClose (day e)) e in
      mkEngine (tick e') (day e' + 1) (ticksPerDay e') (paused e') (speed e')
               (intervalId e') (baseInterval e') (timers e') (log e')
    else e in
  let e2 := mkEngine (tick e1 + 1) (day e1) (ticksPerDay e1) (paused e1)
                     (speed e1) (intervalId e1) (baseInterval e1)
                     (timers e1) (log e1) in
  emit (EvTick (tick e2) (day e2) intraIndex) e2.

(** The host fires the pending timeout [id]: it leaves the table and its
    callback [() => { this._tick(); this._schedule(); }] runs. *)
Definition fire (id : positive) (e : t) : t :=
  if Timers.is_pending id (timers e) then
    let e1 := mkEngine (tick e) (day e) (ticksPerDay e) (paused e) (speed e)
                       (intervalId e) (baseInterval e)
                       (Timers.clearTimeout id (timers e)) (log e) in
    _schedule (_tick e1)
  else e.

(** What the outside can do to an engine. *)
Inductive Op :=
| OpPlay
| OpPause
| OpReset
| OpSetSpeed (s : Q)
| OpFire (id : positive).

Definition step (e : t) (o : Op) : t :=
  match o with
  | OpPlay => play e
  | OpPause => pause e
  | OpReset => reset e
  | OpSetSpeed s => setSpeed s e
  | OpFire id => fire id e
  end.

Definition run (ops : list Op) (e : t) : t := fold_left step ops e.

(** Speeds offered to [setSpeed] are positive. *)
Definition positive_speed (o : Op) : Prop :=
  match o with OpSetSpeed s => 0 < s | _ => True end.

(** No timeout is pending while paused and exactly one while playing,
    the one stored in [intervalId]. *)
Definition one_timer (e : t) : Prop :=
  if paused e then Timers.pending (timers e) = []
  else exists id d, intervalId e = Some id
                    /\ Timers.pending (timers e) = [(id, d)].

(** The scheduler owns no timeout while paused and exactly one while
    playing: the one stored in [intervalId], asked with the delay of the
    current speed. *)
Definition well_scheduled (e : t) : Prop :=
  if paused e then Timers.pending (timers e) = []
  else exists id, intervalId e = Some id
                  /\ Timers.pending (timers e) = [(id, delay e)].

(** A [tick] signal agrees with the clock: it is the [tick]-th tick, on
    day [(tick - 1) / 78], at place [(tick - 1) mod 78] within the day. *)
Definition tick_consistent (ev : Event) : Prop :=
  match ev with
  | EvTick tk dy intraIndex =>
    (0 < tk)%Z /\ dy = ((tk - 1) / 78)%Z /\ intraIndex = ((tk - 1) mod 78)%Z
  | _ => True
  end.

(** The clock of the engine: the day counter is the number of complete
    days of 78 ticks before the last tick. *)
Definition clock_ok (e : t) : Prop :=
  ticksPerDay e = 78%Z /\ (0 <= tick e)%Z
  /\ day e = (if (tick e =? 0)%Z then 0 else (tick e - 1) / 78)%Z.

End MarketEngine.

(** ** market.js: the price walk of one instrument

    What [_tick] does to one entry of [stocks].  The descriptive fields
    copied from [COMPANIES] ([symbol], [name], [sector], [volatility],
    [trend], [color]) are never written and are left out, except
    [basePrice], which the walk reads.  Every [Math.random()] is an input:
    a [Draw] holds the values drawn during one tick, with the scenario in
    force and the event [_maybeEvent] may have attached to this
    instrument. *)

Module Stock.

(** The fields of a [SCENARIOS] entry that the walk reads. *)
Record Scenario := mkScenario { trendMult : Q; volMult : Q; eventFreq : Q }.

(** An entry of [history]. *)
Record Bar := mkBar {
  b_time : Z; b_open : Q; b_high : Q; b_low : Q; b_close : Q; b_volume : Q
}.

(** An entry of [tickHistory]. *)
Record Point := mkPoint { pt_tick : Z; pt_price : Q; pt_volume : Q }.

Record t := mkStock {
  basePrice : Q;
  price : Q;
  open : Q;
  high : Q;
  low : Q;
  close : Q;
  volume : Q;
  history : list Bar;
  tickHistory : list Point;
  dayPrices : list Q;
  prevClose : Q;
  bid : Q;
  ask : Q;
  change : Q;
  changePct : Q;
  dayHigh : Q;
  dayLow : Q;
  _vol : Q;
  _trend : Q;
  _eventEffect : Q;
  _eventVol : Q;
  _eventTicks : Q
}.

(** The entry [_initStocks] makes for a company. *)
Definition init (basePrice volatility trend : Q) : t :=
  {| basePrice := basePrice; price := basePrice; open := basePrice;
     high := basePrice; low := basePrice; close := basePrice; volume := 0;
     history := []; tickHistory := []; dayPrices := [];
     prevClose := basePrice;
     bid := basePrice - (1 # 100); ask := basePrice + (1 # 100);
     change := 0; changePct := 0;
     dayHigh := basePrice; dayLow := basePrice;
     _vol := volatility; _trend := trend;
     _eventEffect := 0; _eventVol := 1; _eventTicks := 0 |}.

(** The body of [_openDay] for one instrument; [r] is its
    [Math.random()]. *)
Definition _openDay (sc : Scenario) (r : Q) (s : t) : t :=
  let gap := (r - (48 # 100)) * _vol s * price s * (1 # 2) * volMult sc in
  let price' := Math_max (1 # 100) (price s + gap) in
  mkStock (basePrice s) price' price' price' price' (close s) 0
          (history s) (tickHistory s) [price'] (prevClose s) (bid s) (ask s)
          (change s) (changePct s) (dayHigh s) (dayLow s)
          (_vol s) (_trend s) (_eventEffect s) (_eventVol s) (_eventTicks s).

(** The body of [_closeDay] for one instrument; [day] is [this.day]. *)
Definition _closeDay (day : Z) (s : t) : t :=
  let close' := price s in
  let change' := close' - open s in
  mkStock (basePrice s) (price s) (open s) (high s) (low s) close' (volume s)
          (history s ++ [mkBar day (open s) (high s) (low s) close' (volume s)])
          (tickHistory s) (dayPrices s) close' (bid s) (ask s)
          change'
          (if Qltb 0 (open s) then (change' / open s) * 100 else 0)
          (dayHigh s) (dayLow s)
          (_vol s) (_trend s) (_eventEffect s) (_eventVol s) (_eventTicks s).

(** What [_maybeEvent] writes to the instrument it picked: the drawn
    effect spread over the drawn duration, and the template's volatility
    factor. *)
Record Hit := mkHit { h_effect : Q; h_volEffect : Q; h_dur : Q }.

Definition hit (h : Hit) (s : t) : t :=
  mkStock (basePrice s) (price s) (open s) (high s) (low s) (close s)
          (volume s) (history s) (tickHistory s) (dayPrices s) (prevClose s)
          (bid s) (ask s) (change s) (changePct s) (dayHigh s) (dayLow s)
          (_vol s) (_trend s) (h_effect h / h_dur h) (h_volEffect h) (h_dur h).

(** [_updatePrice(s)]; [r_noise], [r_volume], [r_bid] and [r_ask] are its
    four [Math.random()] values in the order they are drawn. *)
Definition _updatePrice (sc : Scenario) (tick : Z)
    (r_noise r_volume r_bid r_ask : Q) (s : t) : t :=
  let trend := _trend s * trendMult sc in
  let vol := _vol s * volMult sc * _eventVol s in
  let reversion := (basePrice s - price s) * (1 # 10000) in
  let noise := (r_noise - (1 # 2)) * 2 * vol * price s in
  let eventDrift := _eventEffect s * price s * (1 # 100) in
  let trendDrift := trend * price s in
  let price' :=
    Math_max (1 # 100)
             (price s + noise + trendDrift + reversion + eventDrift) in
  let '(effect', eventVol', ticks') :=
    if Qltb 0 (_eventTicks s) then
      let n := _eventTicks s - 1 in
      if Qleb n 0 then (0, 1, n) else (_eventEffect s, _eventVol s, n)
    else (_eventEffect s, _eventVol s, _eventTicks s) in
  let high' := Math_max (high s) price' in
  let low' := Math_min (low s) price' in
  let vol_tick := Math_floor (r_volume * 50000 + 5000) in
  let change' := price' - open s in
  mkStock (basePrice s) price' (open s) high' low' price'
          (volume s + vol_tick) (history s)
          (tickHistory s ++ [mkPoint tick price' vol_tick])
          (dayPrices s ++ [price'])
          (prevClose s)
          (price' * (1 - r_bid * (1 # 1000)))
          (price' * (1 + r_ask * (1 # 1000)))
          change'
          (if Qltb 0 (open s) then (change' / open s) * 100 else 0)
          high' low'
          (_vol s) (_trend s) effect' eventVol' ticks'.

(** Everything drawn during one tick, as far as it touches this
    instrument. *)
Record Draw := mkDraw {
  d_scenario : Scenario;
  d_event : option Hit;
  d_gap : Q;
  d_noise : Q;
  d_volume : Q;
  d_bid : Q;
  d_ask : Q
}.

(** [_tick()] seen from one instrument, at tick [tick] of day [day]. *)
Definition _tick (tick day : Z) (d : Draw) (s : t) : t :=
  let intraIndex := (tick mod 78)%Z in
  let isNewDay := (intraIndex =? 0)%Z && (0 <? tick)%Z in
  let s1 := if isNewDay then _closeDay day s else s in
  let s2 := if (intraIndex =? 0)%Z then _openDay (d_scenario d) (d_gap d) s1
            else s1 in
  let s3 := match d_event d with Some h => hit h s2 | None => s2 end in
  _updatePrice (d_scenario d) tick (d_noise d) (d_volume d) (d_bid d)
               (d_ask d) s3.

(** The day counter after [_tick] at tick [tick]. *)
Definition next_day (tick day : Z) : Z :=
  if ((tick mod 78 =? 0)%Z && (0 <? tick)%Z) then (day + 1)%Z else day.

(** Consecutive ticks, from tick [tick] of day [day] on. *)
Fixpoint ticks (tick day : Z) (draws : list Draw) (s : t) : t :=
  match draws with
  | [] => s
  | d :: draws' =>
    ticks (tick + 1) (next_day tick day) draws' (_tick tick day d s)
  end.

(** A daily bar is well-formed: its low and high bracket its open and
    its close, and nothing in it is below one cent. *)
Definition bar_ok (b : Bar) : Prop :=
  (1 # 100) <= b_low b
  /\ b_low b <= b_open b <= b_high b
  /\ b_low b <= b_close b <= b_high b.

(** The running day of an instrument brackets its open and its price. *)
Definition day_ok (s : t) : Prop :=
  low s <= open s <= high s /\ low s <= price s <= high s.

(** The state of an instrument when tick [tick] of day [day] is about
    to run. *)
Definition walk_ok (tick day : Z) (s : t) : Prop :=
  (0 <= tick)%Z
  /\ day = (if (tick =? 0)%Z then 0 else (tick - 1) / 78)%Z
  /\ day_ok s
  /\ ((0 < tick)%Z -> (1 # 100) <= low s /\ (1 # 100) <= price s
                      /\ close s = price s /\ dayHigh s = high s
                      /\ dayLow s = low s)
  /\ Forall bar_ok (history s)
  /\ b_time <$> history s = Z.of_nat <$> seq 0 (Z.to_nat day).

End Stock.

(** ** real-market.js: the replay driver *)

Module RealMarketEngine.

(** One bar of the historical series. *)
Record Candle := mkCandle {
  date : string;
  open : Q; high : Q; low : Q; close : Q; volume : Q
}.

(** The [symbolInfo] object. *)
Record SymbolInfo := mkInfo {
  i_symbol : string;
  i_currency : string;
  i_exchange : string;
  i_type : string;
  i_regularMarketPrice : Q;
  i_previousClose : Q
}.

(** The body of a successful answer of [/api/yahoo/history];
    [d_candles = None] is an answer without a [candles] field. *)
Record Data := mkData {
  d_info : SymbolInfo;
  d_candles : option (list Candle)
}.

(** How the awaited [fetch] ends: it rejects, it answers with a status
    that is not ok (with the [error] field of the body, if any, and the
    status as text), or it answers with data. *)
Inductive Response :=
| Rejected (message : string)
| NotOk (error : option string) (status : string)
| Ok (data : Data).

Inductive Event :=
| EvPlay
| EvPause
| EvReset
| EvLoading (symbol : string)
| EvLoaded (symbol : string) (info : SymbolInfo) (totalCandles : nat)
| EvError (error : string)
| EvTick (tick : Z) (day : nat) (intraIndex : Z) (candle : Candle)
         (symbol : string) (progress : Q)
| EvDayClose (day : nat)
| EvComplete (totalDays : nat).

Record t := mkEngine {
  symbol : string;
  symbolInfo : option SymbolInfo;
  candles : list Candle;
  replayIndex : nat;
  replayCandles : list Candle;
  paused : bool;
  speed : Q;
  intervalId : option positive;
  baseInterval : Q;
  loading : bool;
  error : option string;
  range : string;
  day : nat;
  tick : Z;
  timers : Timers.t;
  log : list Event
}.

(** [constructor()] *)
Definition new : t :=
  {| symbol := "AAPL"; symbolInfo := None; candles := []; replayIndex := 0;
     replayCandles := []; paused := true; speed := 1; intervalId := None;
     baseInterval := 800; loading := false; error := None; range := "1y";
     day := 0; tick := 0; timers := Timers.init; log := [] |}.

Definition emit (ev : Event) (e : t) : t :=
  mkEngine (symbol e) (symbolInfo e) (candles e) (replayIndex e)
           (replayCandles e) (paused e) (speed e) (intervalId e)
           (baseInterval e) (loading e) (error e) (range e) (day e) (tick e)
           (timers e) (log e ++ [ev]).

Definition set_paused (b : bool) (e : t) : t :=
  mkEngine (symbol e) (symbolInfo e) (candles e) (replayIndex e)
           (replayCandles e) b (speed e) (intervalId e)
           (baseInterval e) (loading e) (error e) (range e) (day e) (tick e)
           (timers e) (log e).

Definition set_timer (iid : option positive) (ts : Timers.t) (e : t) : t :=
  mkEngine (symbol e) (symbolInfo e) (candles e) (replayIndex e)
           (replayCandles e) (paused e) (speed e) iid
           (baseInterval e) (loading e) (error e) (range e) (day e) (tick e)
           ts (log e).

(** [_advanceReplay()] *)
Definition _advanceReplay (e : t) : t :=
  match candles e !! replayIndex e with
  | None => e
  | Some candle =>
    let e1 :=
      mkEngine (symbol e) (symbolInfo e) (candles e) (replayIndex e)
               (replayCandles e ++ [candle]) (paused e) (speed e)
               (intervalId e) (baseInterval e) (loading e) (error e)
               (range e) (replayIndex e) (tick e + 1)
               (timers e) (log e) in
    let e2 :=
      emit (EvTick (tick e1) (day e1) 0 candle (symbol e1)
                   ((inject_Z (Z.of_nat (replayIndex e1)) + 1)
                    / inject_Z (Z.of_nat (length (candles e1))))) e1 in
    let e3 := emit (EvDayClose (day e2)) e2 in
    mkEngine (symbol e3) (symbolInfo e3) (candles e3) (S (replayIndex e3))
             (replayCandles e3) (paused e3) (speed e3) (intervalId e3)
             (baseInterval e3) (loading e3) (error e3) (range e3)
             (day e3) (tick e3) (timers e3) (log e3)
  end.

(** The delay computed by [_schedule]. *)
Definition delay (e : t) : Q := Math_max 10 (baseInterval e / speed e).

(** [_schedule()] *)
Definition _schedule (e : t) : t :=
  if paused e then e
  else
    let '(id, ts) := Timers.setTimeout (delay e) (timers e) in
    set_timer (Some id) ts e.

(** The callback given to [setTimeout] by [_schedule]. *)
Definition onTimeout (e : t) : t :=
  if (replayIndex e <? length (candles e))%nat then
    _schedule (_advanceReplay e)
  else
    emit (EvComplete (length (candles e))) (set_paused true e).

(** The host fires the pending timeout [id]. *)
Definition fire (id : positive) (e : t) : t :=
  if Timers.is_pending id (timers e) then
    onTimeout (set_timer (intervalId e) (Timers.clearTimeout id (timers e)) e)
  else e.

(** [play()] *)
Definition play (e : t) : t :=
  if negb (paused e) then e
  else if (length (candles e) =? 0)%nat then e
  else if (length (candles e) <=? replayIndex e)%nat then e
  else emit EvPlay (_schedule (set_paused false e)).

(** [pause()] *)
Definition pause (e : t) : t :=
  let e1 := set_paused true e in
  let e2 :=
    match intervalId e1 with
    | Some id => set_timer None (Timers.clearTimeout id (timers e1)) e1
    | None => e1
    end in
  emit EvPause e2.

(** [setSpeed(s)] *)
Definition setSpeed (s : Q) (e : t) : t :=
  let e1 :=
    mkEngine (symbol e) (symbolInfo e) (candles e) (replayIndex e)
             (replayCandles e) (paused e) s (intervalId e)
             (baseInterval e) (loading e) (error e) (range e) (day e)
             (tick e) (timers e) (log e) in
  if negb (paused e1) then play (pause e1) else e1.

(** The four assignments [replayIndex = 0; replayCandles = []; day = 0;
    tick = 0] shared by [reset] and a successful [loadSymbol]. *)
Definition rewind (e : t) : t :=
  mkEngine (symbol e) (symbolInfo e) (candles e) 0 [] (paused e) (speed e)
           (intervalId e) (baseInterval e) (loading e) (error e) (range e)
           0 0 (timers e) (log e).

(** [reset()] *)
Definition reset (e : t) : t :=
  let e1 := rewind (pause e) in
  let e2 := if (0 <? length (candles e1))%nat then _advanceReplay e1 else e1 in
  emit EvReset e2.

(** [String.prototype.toUpperCase], on ASCII letters; the characters
    outside ASCII that JavaScript maps as well are left as they are, and
    no statement below depends on what the function returns. *)
Definition upper_ascii (c : Ascii.ascii) : Ascii.ascii :=
  let n := Ascii.nat_of_ascii c in
  if ((97 <=? n) && (n <=? 122))%nat then Ascii.ascii_of_nat (n - 32) else c.

Fixpoint toUpperCase (s : string) : string :=
  match s with
  | EmptyString => EmptyString
  | String c s' => String (upper_ascii c) (toUpperCase s')
  end.

(** [loadSymbol(symbol, range)] up to its first [await]. *)
Definition loadSymbol_begin (sym rng : string) (e : t) : t :=
  let e1 := pause e in
  let e2 :=
    mkEngine (toUpperCase sym) (symbolInfo e1) (candles e1) (replayIndex e1)
             (replayCandles e1) (paused e1) (speed e1) (intervalId e1)
             (baseInterval e1) true None rng (day e1) (tick e1)
             (timers e1) (log e1) in
  emit (EvLoading (symbol e2)) e2.

(** The [catch] block: [loading = false; error = err.message;
    emit('error', ...); throw err]. *)
Definition fail (message : string) (e : t) : t :=
  emit (EvError message)
    (mkEngine (symbol e) (symbolInfo e) (candles e) (replayIndex e)
              (replayCandles e) (paused e) (speed e) (intervalId e)
              (baseInterval e) false (Some message) (range e) (day e)
              (tick e) (timers e) (log e)).

(** [loadSymbol] once the [fetch] has settled: the value the promise
    resolves to ([None] when it rejects) and the engine. *)
Definition loadSymbol_end (r : Response) (e : t) : option Data * t :=
  match r with
  | Rejected message => (None, fail message e)
  | NotOk err status =>
    let message :=
      match err with
      | Some m => if bool_decide (m = "") then "HTTP " +:+ status else m
      | None => "HTTP " +:+ status
      end in
    (None, fail message e)
  | Ok data =>
    match d_candles data with
    | None | Some [] => (None, fail "No historical data available" e)
    | Some cs =>
      let e1 :=
        mkEngine (symbol e) (Some (d_info data)) cs 0 [] (paused e) (speed e)
                 (intervalId e) (baseInterval e) false (error e) (range e)
                 0 0 (timers e) (log e) in
      let e2 :=
        emit (EvLoaded (symbol e1) (d_info data) (length (candles e1))) e1 in
      (Some data, _advanceReplay e2)
    end
  end.

(** A load whose [fetch] settles with [r] before anything else happens. *)
Definition loadSymbol (sym rng : string) (r : Response) (e : t)
    : option Data * t :=
  loadSymbol_end r (loadSymbol_begin sym rng e).

Definition is_tick (ev : Event) : bool :=
  match ev with EvTick _ _ _ _ _ _ => true | _ => false end.

(** What the outside can do to a driver. *)
Inductive Op :=
| OpPlay
| OpPause
| OpReset
| OpSetSpeed (s : Q)
| OpFire (id : positive)
| OpLoadBegin (sym rng : string)
| OpLoadEnd (r : Response).

Definition step (e : t) (o : Op) : t :=
  match o with
  | OpPlay => play e
  | OpPause => pause e
  | OpReset => reset e
  | OpSetSpeed s => setSpeed s e
  | OpFire id => fire id e
  | OpLoadBegin sym rng => loadSymbol_begin sym rng e
  | OpLoadEnd r => (loadSymbol_end r e).2
  end.

Definition run (ops : list Op) (e : t) : t := fold_left step ops e.

(** A response that carries at least one candle. *)
Definition has_candles (r : Response) : bool :=
  match r with
  | Ok data => match d_candles data with Some (_ :: _) => true | _ => false end
  | _ => false
  end.

Definition loads_candles (o : Op) : bool :=
  match o with OpLoadEnd r => has_candles r | _ => false end.

(** From [e] to [e'] signals were only added, and no [tick] among them. *)
Definition no_tick_between (e e' : t) : Prop :=
  exists evs, log e' = log e ++ evs
              /\ Forall (fun ev => is_tick ev = false) evs.

(** [array.slice(-count)]: the last [count] entries for a positive
    [count], the whole array for [count = 0] (where [-0] is the start
    index 0), and the array without its first [-count] entries for a
    negative [count]. *)
Definition slice_last {A} (count : Z) (l : list A) : list A :=
  if (0 <? count)%Z then drop (length l - Z.to_nat count) l
  else drop (Z.to_nat (- count)) l.

(** [symbol && symbol !== this.symbol]; [None] is a call without a
    symbol, and the empty string is falsy. *)
Definition other_symbol (sym : option string) (e : t) : bool :=
  match sym with
  | Some s => bool_decide (s ≠ "") && bool_decide (s ≠ symbol e)
  | None => false
  end.

(** [getCandles(symbol, count = 500)] *)
Definition getCandles (sym : option string) (count : Z) (e : t)
    : list Candle :=
  if other_symbol sym e then [] else slice_last count (replayCandles e).




(** [getBacktestData()] and [getFullHistory()]: copies of the two arrays. *)
Definition getBacktestData (e : t) : list Candle := replayCandles e.
Definition getFullHistory (e : t) : list Candle := candles e.

(** [isComplete()] *)
Definition isComplete (e : t) : bool :=
  (length (candles e) <=? replayIndex e)%nat.

(** [getProgress()] *)
Definition getProgress (e : t) : Q :=
  if (length (candles e) =? 0)%nat then 0
  else inject_Z (Z.of_nat (replayIndex e))
       / inject_Z (Z.of_nat (length (candles e))).

(** [getCurrentDate()] *)
Definition getCurrentDate (e : t) : string :=
  match last (replayCandles e) with
  | Some c => date c
  | None => ""
  end.

(** The replay position and what has been revealed agree: the revealed
    candles are the first [replayIndex] candles of the series, [tick]
    counts them, [day] is the index of the last one, and a loaded series
    always shows at least its first candle. *)
Definition replay_ok (e : t) : Prop :=
  replayCandles e = take (replayIndex e) (candles e)
  /\ (replayIndex e <= length (candles e))%nat
  /\ tick e = Z.of_nat (replayIndex e)
  /\ day e = Nat.pred (replayIndex e)
  /\ (candles e <> [] -> (1 <= replayIndex e)%nat).

(** Speeds offered to [setSpeed] are positive. *)
Definition positive_speed (o : Op) : Prop :=
  match o with OpSetSpeed s => 0 < s | _ => True end.

(** No timeout is pending while paused and exactly one while playing,
    the one stored in [intervalId]. *)
Definition one_timer (e : t) : Prop :=
  if paused e then Timers.pending (timers e) = []
  else exists id d, intervalId e = Some id
                    /\ Timers.pending (timers e) = [(id, d)].

(** As [one_timer], and the pending timeout was asked with the delay of
    the current speed. *)
Definition well_scheduled (e : t) : Prop :=
  if paused e then Timers.pending (timers e) = []
  else exists id, intervalId e = Some id
                  /\ Timers.pending (timers e) = [(id, delay e)].

(** The host fires the oldest pending timeout, if there is one. *)
Definition fire_next (e : t) : t :=
  match Timers.pending (timers e) with
  | (id, _) :: _ => fire id e
  | [] => e
  end.

(** The candles announced by the [tick] signals of a log, in order. *)
Definition announced (l : list Event) : list Candle :=
  omap (fun ev => match ev with
                  | EvTick _ _ _ candle _ _ => Some candle
                  | _ => None
                  end) l.

Definition is_complete (ev : Event) : bool :=
  match ev with EvComplete _ => true | _ => false end.

Section WholeReplay.

Variable series : list Candle.
Variable before : list Event.

(** The driver is playing [series], has revealed its first [n] candles
    and announced each of them once since the log was [before], without
    having signalled completion. *)
Definition replaying (n : nat) (e : t) : Prop :=
  candles e = series /\ replayIndex e = n
  /\ replayCandles e = take n series
  /\ paused e = false
  /\ (exists id d, intervalId e = Some id
                   /\ Timers.pending (timers e) = [(id, d)])
  /\ exists evs, log e = before ++ evs
                 /\ announced evs = take n series
                 /\ filter (fun ev => is_complete ev = true) evs = [].

(** All of [series] is revealed and announced, the driver is paused and
    waits for nothing. *)
Definition replayed (e : t) : Prop :=
  candles e = series /\ replayIndex e = length series
  /\ replayCandles e = series
  /\ paused e = true
  /\ Timers.pending (timers e) = []
  /\ exists evs, log e = before ++ evs /\ announced evs = series.

End WholeReplay.

End RealMarketEngine.

(** ** [candidates.sort((a, b) => b.score - a.score)]

    [Array.prototype.sort] is stable; with this comparator it orders by
    score, highest first, and keeps the generation order among equal
    scores.  A stable insertion sort has the same result. *)

Section SortByScore.

Context {A : Type} (score : A -> Q).

Fixpoint insert_by_score (x : A) (l : list A) : list A :=
  match l with
  | [] => [x]
  | y :: l' =>
    if Qltb (score x) (score y) then y :: insert_by_score x l'
    else x :: y :: l'
  end.

Definition sort_by_score (l : list A) : list A :=
  foldr insert_by_score [] l.

(** [a] may stand before [b] in the sorted array. *)
Definition ranked_before (a b : A) : Prop := score b <= score a.

End SortByScore.

(** ** ai-engine.js *)

Module AIEngine.

Inductive Action := BUY | SELL | HOLD.

Inductive Label := bullish | bearish | neutral.

(** One projected path of [_lookahead]. *)
Record Scenario := mkScenario {
  scenarioPrice : Q;
  expectedReturn : Q;
  label : Label
}.

(** A candidate move.  The HOLD object of [evaluate] has only [action],
    [symbol], [reason] and [score]; its other fields are absent and read
    here as [0], the empty string and [None]. *)
Record Move := mkMove {
  action : Action;
  symbol : string;
  qty : Q;
  price : Q;
  strategy : string;
  reason : string;
  edge : Q;
  score : Q;
  lookahead : option (list Scenario)
}.

Definition set_score (s : Q) (m : Move) : Move :=
  mkMove (action m) (symbol m) (qty m) (price m) (strategy m) (reason m)
         (edge m) s (lookahead m).

(** [{ action: 'HOLD', symbol: '-', reason: 'No high-conviction trades',
    score: 0 }] *)
Definition hold_move : Move :=
  mkMove HOLD "-" 0 0 "" "No high-conviction trades" 0 0 None.

(** The analysis trace of one evaluation; [timestamp] is [Date.now()],
    and the [reasoning] text is not modelled. *)
Record Analysis := mkAnalysis {
  a_tick : Z;
  a_timestamp : Z;
  a_positionScore : Q;
  a_candidates : list Move;
  a_chosen : Move;
  a_strategy : string;
  a_depth : Z;
  a_treeNodes : nat;
  a_confidence : Q
}.

Inductive Event :=
| EvTrade (trade : Portfolio.Trade) (strategy reason : string) (confidence : Q)
| EvAnalysis (analysis : Analysis).

Definition is_trade (ev : Event) : bool :=
  match ev with EvTrade _ _ _ _ => true | _ => false end.

(** What [evaluate] reads from [this.market]. *)
Record Market := mkMarket {
  m_symbols : list string;
  m_prices : gmap string Q;
  m_day : Z;
  m_tick : Z
}.

Record t := mkEngine {
  portfolio : Portfolio.t;
  e_strategy : string;
  thinkingLog : list Analysis;
  currentAnalysis : option Analysis;
  tradeFrequency : Z;
  lastEvalTick : Z;
  depth : Z;
  confidence : Q;
  log : list Event
}.

(** [constructor(market, portfolio)] *)
Definition new (portfolio : Portfolio.t) : t :=
  {| portfolio := portfolio; e_strategy := "auto"; thinkingLog := [];
     currentAnalysis := None; tradeFrequency := 8; lastEvalTick := 0;
     depth := 3; confidence := 0; log := [] |}.

(** [_evaluatePosition(prices)] *)
Definition _evaluatePosition (prices : gmap string Q) (p : Portfolio.t) : Q :=
  let val := Portfolio.totalValue prices p in
  let ret := ((val - Portfolio.startingCash p) / Portfolio.startingCash p) * 100 in
  let score := ret * 10 in
  let holdingCount := size (Portfolio.holdings p) in
  let score :=
    if ((2 <=? holdingCount) && (holdingCount <=? 5))%nat then score + 5
    else score in
  let score := score - Portfolio.maxDrawdown p * 2 in
  Math_round score.

(** [stratWeights[move.strategy] || 1] *)
Definition stratWeight (strategy : string) : Q :=
  if bool_decide (strategy = "momentum") then 12 # 10
  else if bool_decide (strategy = "meanReversion") then 11 # 10
  else if bool_decide (strategy = "breakout") then 13 # 10
  else if bool_decide (strategy = "value") then 1
  else if bool_decide (strategy = "scalping") then 8 # 10
  else 1.

(** [_scoreMove(move, prices)] *)
Definition _scoreMove (move : Move) (prices : gmap string Q)
    (p : Portfolio.t) : Q :=
  let score := edge move * 5 in
  let score := score * stratWeight (strategy move) in
  let score :=
    match lookahead move with
    | Some (s :: l) =>
      let avgOutcome :=
        fold_left (fun acc sc => acc + expectedReturn sc) (s :: l) 0
        / inject_Z (Z.of_nat (length (s :: l))) in
      score + avgOutcome * 10
    | _ => score
    end in
  let score :=
    match action move with
    | BUY =>
      let cost := qty move * price move in
      if Qltb (Portfolio.cash p * (1 # 2)) cost then score * (1 # 2) else score
    | _ => score
    end in
  let score :=
    match action move, Portfolio.getHolding (symbol move) p with
    | BUY, Some holding =>
      let currentVal := Portfolio.qty holding * price move in
      let totalVal := Portfolio.totalValue prices p in
      if Qltb (3 # 10) (currentVal / totalVal) then score * (3 # 10) else score
    | _, _ => score
    end in
  Math_max 0 score.

(** [_executeTrade(move, prices)] *)
Definition _executeTrade (move : Move) (mk : Market) (now : Z) (e : t) : t :=
  let '(result, p') :=
    match action move with
    | BUY => Portfolio.buy (symbol move) (qty move) (price move)
                           (m_day mk) (m_tick mk) now (portfolio e)
    | SELL => Portfolio.sell (symbol move) (qty move) (price move)
                             (m_day mk) (m_tick mk) now (portfolio e)
    | HOLD => (None, portfolio e)
    end in
  let log' :=
    match result with
    | Some trade =>
      log e ++ [EvTrade trade (strategy move) (reason move) (confidence e)]
    | None => log e
    end in
  mkEngine p' (e_strategy e) (thinkingLog e) (currentAnalysis e)
           (tradeFrequency e) (lastEvalTick e) (depth e) (confidence e) log'.

Definition set_confidence (c : Q) (e : t) : t :=
  mkEngine (portfolio e) (e_strategy e) (thinkingLog e) (currentAnalysis e)
           (tradeFrequency e) (lastEvalTick e) (depth e) c (log e).

(** The conviction threshold of [evaluate]. *)
Definition threshold : Q := 1 # 10.

Section Evaluate.

(** [_generateMoves(symbol, prices)] reads the market's candles and
    draws random lookahead paths; [evaluate] is defined for any such
    generator. *)
Variable _generateMoves : Portfolio.t -> string -> gmap string Q -> list Move.

(** The candidates of one evaluation, scored, in generation order. *)
Definition scored (mk : Market) (p : Portfolio.t) : list Move :=
  flat_map (fun sym =>
              map (fun m => set_score (_scoreMove m (m_prices mk) p) m)
                  (_generateMoves p sym (m_prices mk)))
           (m_symbols mk).

Definition treeNodes (candidates : list Move) : nat :=
  fold_left (fun n m =>
               n + match lookahead m with Some l => length l | None => 1 end)%nat
            candidates 0%nat.

(** [evaluate(tick)]; [None] is the [null] result of a skipped tick. *)
Definition evaluate (tick : Z) (mk : Market) (now : Z) (e : t)
    : option Analysis * t :=
  if (tick - lastEvalTick e <? tradeFrequency e)%Z then (None, e)
  else
    let e0 :=
      mkEngine (portfolio e) (e_strategy e) (thinkingLog e)
               (currentAnalysis e) (tradeFrequency e) tick (depth e)
               (confidence e) (log e) in
    let prices := m_prices mk in
    let positionScore := _evaluatePosition prices (portfolio e0) in
    let generated := scored mk (portfolio e0) in
    let candidates := sort_by_score score generated in
    let '(chosen, e1) :=
      match candidates with
      | best :: _ =>
        if Qltb threshold (score best) then
          let e' := set_confidence
                      (Math_min 99 (Math_max 10 (score best * 20))) e0 in
          (best, _executeTrade best mk now e')
        else
          (hold_move, set_confidence (Math_max 5 (score best * 10)) e0)
      | [] =>
        (hold_move, set_confidence (Math_max 5 (0 * 10)) e0)
      end in
    let analysis :=
      mkAnalysis tick now positionScore candidates chosen (e_strategy e)
                 (depth e) (treeNodes generated) (confidence e1) in
    let tlog := analysis :: thinkingLog e1 in
    let tlog := if (50 <? length tlog)%nat then removelast tlog else tlog in
    (Some analysis,
     mkEngine (portfolio e1) (e_strategy e1) tlog (Some analysis)
              (tradeFrequency e1) (lastEvalTick e1) (depth e1)
              (confidence e1) (log e1 ++ [EvAnalysis analysis])).

End Evaluate.

(** One call [evaluate(tick)]: the tick, the market as [evaluate] finds
    it, and the value of [Date.now()]. *)
Record Call := mkCall { c_tick : Z; c_market : Market; c_now : Z }.

Section Evaluations.

Variable _generateMoves : Portfolio.t -> string -> gmap string Q -> list Move.

(** A sequence of calls of [evaluate]: the analyses returned, oldest
    first, and the engine after the last call. *)
Definition evaluations (calls : list Call) (e : t) : list Analysis * t :=
  fold_left
    (fun st c =>
       match evaluate _generateMoves (c_tick c) (c_market c) (c_now c) st.2 with
       | (Some a, e') => (st.1 ++ [a], e')
       | (None, e') => (st.1, e')
       end)
    calls ([], e).

End Evaluations.

(** Consecutive analyses are at least [gap] ticks apart, and the first
    one is at tick [gap] at the earliest. *)
Fixpoint spaced (gap last : Z) (l : list Analysis) : Prop :=
  match l with
  | [] => True
  | a :: l' => (last + gap <= a_tick a)%Z /\ spaced gap (a_tick a) l'
  end.

End AIEngine.

(** ** app.js: the evaluation of the replay mode ([App._evaluateRealAI]) *)

Module RealAI.

Inductive Action := BUY | SELL.

(** [{ action, qty, strategy, reason, score }] *)
Record Candidate := mkCandidate {
  action : Action;
  qty : Q;
  strategy : string;
  reason : string;
  score : Q
}.

(** What [_evaluateRealAI] reads from its argument and from the driver. *)
Record TickData := mkTick {
  d_day : Z;
  d_tick : Z;
  d_close : Q;
  d_date : string;
  d_symbol : string
}.

(** A marker pushed to [realTradeMarkers]; its colour, shape and position
    follow from [mk_action]. *)
Record Marker := mkMarker {
  mk_time : string;
  mk_action : Action;
  mk_qty : Q
}.

(** The part of [App] the evaluation works on. *)
Record t := mkApp {
  realAiPortfolio : Portfolio.t;
  realTradeMarkers : list Marker;
  _realAiLastEval : Z
}.

(** The locals handed to [_renderRealAIAnalysis]. *)
Record Outcome := mkOutcome {
  o_action : option Action;
  o_qty : Q;
  o_reason : string;
  o_strategy : string;
  o_confidence : Q;
  o_score : Q;
  o_result : option Portfolio.Trade
}.

(** [let action = null; let qty = 0; let reason = ''; let strategy =
    'AUTO'; let confidence = 50; let score = 0;] *)
Definition idle : Outcome := mkOutcome None 0 "" "AUTO" 50 0 None.

(** The conviction threshold of the replay evaluation. *)
Definition threshold : Q := 5 # 10.

(** [_evaluateRealAI(data)] from [candidates.sort] on (lines 436-466);
    [generated] is the candidate list built by the strategies above it. *)
Definition select (generated : list Candidate) (data : TickData) (now : Z)
    (app : t) : Outcome * t :=
  let candidates := sort_by_score score generated in
  match candidates with
  | best :: _ =>
    if Qltb threshold (score best) then
      let confidence := Math_min 95 (Math_max 20 (score best * 25)) in
      let '(result, p') :=
        match action best with
        | BUY => Portfolio.buy (d_symbol data) (qty best) (d_close data)
                               (d_day data) (d_tick data) now
                               (realAiPortfolio app)
        | SELL => Portfolio.sell (d_symbol data) (qty best) (d_close data)
                                 (d_day data) (d_tick data) now
                                 (realAiPortfolio app)
        end in
      let markers :=
        match result with
        | Some trade =>
          realTradeMarkers app
            ++ [mkMarker (d_date data) (action best) (Portfolio.t_qty trade)]
        | None => realTradeMarkers app
        end in
      (mkOutcome (Some (action best)) (qty best) (reason best)
                 (strategy best) confidence (score best) result,
       mkApp p' markers (_realAiLastEval app))
    else (idle, app)
  | [] => (idle, app)
  end.

(** [_evaluateRealAI(data)]: the two gates, then the selection.
    [numCandles] is [candles.length]; [None] is an early [return]. *)
Definition _evaluateRealAI (numCandles : nat) (generated : list Candidate)
    (data : TickData) (now : Z) (app : t) : option Outcome * t :=
  if (numCandles <? 5)%nat then (None, app)
  else if (d_day data - _realAiLastEval app <? 2)%Z then (None, app)
  else
    let app1 := mkApp (realAiPortfolio app) (realTradeMarkers app) (d_day data) in
    let '(o, app2) := select generated data now app1 in
    (Some o, app2).

End RealAI.

(** ** Runs and derived quantities used in the statements below *)

Module Ledger.

Import Portfolio.

(** A call of [buy] or [sell] with its arguments and the clock value. *)
Inductive Op :=
| Buy (symbol : string) (qty price : Q) (day tick now : Z)
| Sell (symbol : string) (qty price : Q) (day tick now : Z).

Definition op_qty (o : Op) : Q :=
  match o with Buy _ q _ _ _ _ | Sell _ q _ _ _ _ => q end.

Definition op_price (o : Op) : Q :=
  match o with Buy _ _ pr _ _ _ | Sell _ _ pr _ _ _ => pr end.

Definition call (o : Op) (p : t) : option Trade * t :=
  match o with
  | Buy s q pr d k n => buy s q pr d k n p
  | Sell s q pr d k n => sell s q pr d k n p
  end.

Definition step (p : t) (o : Op) : t := (call o p).2.

Definition run (ops : list Op) (p : t) : t := fold_left step ops p.

(** The cost basis of the holdings: the sum of [qty * avgCost]. *)
Definition basis (m : gmap string Holding) : Q :=
  map_fold (fun _ h acc => acc + qty h * avgCost h) 0 m.

(** Cash plus cost basis. *)
Definition bookValue (p : t) : Q := cash p + basis (holdings p).

(** The sum computed by [realizedPnL], over any list of records. *)
Definition pnl_sum (l : list Trade) : Q :=
  fold_left (fun s tr => s + default 0 (t_pnl tr))
            (filter (fun tr => is_Some (t_pnl tr)) l) 0.

(** An order for a positive quantity at a positive price. *)
Definition positive_order (o : Op) : Prop := 0 < op_qty o /\ 0 < op_price o.

(** Cash is not negative and every holding has a positive quantity. *)
Definition sound (p : t) : Prop :=
  0 <= cash p /\ map_Forall (fun _ h => 0 < qty h) (holdings p).

(** The symbol an order is for. *)
Definition op_symbol (o : Op) : string :=
  match o with Buy s _ _ _ _ _ | Sell s _ _ _ _ _ => s end.

(** An order for a symbol under which [holdings] inherits nothing. *)
Definition plain_order (o : Op) : Prop := plain_key (op_symbol o).

(** Every holding has a positive quantity. *)
Definition holdings_positive (p : t) : Prop :=
  map_Forall (fun _ h => 0 < qty h) (holdings p).

(** What a record did to cash: [this.cash -= totalCost] for a BUY,
    [this.cash += revenue] for a SELL, with the [total] it records. *)
Definition settle (c : Q) (tr : Trade) : Q :=
  match t_side tr with
  | BUY => c - t_total tr
  | SELL => c + t_total tr
  end.

(** The records of a list applied to an amount of cash, in order. *)
Definition settled (c : Q) (l : list Trade) : Q := fold_left settle l c.

(** A record as [buy] and [sell] write it: the total is quantity times
    price, and the P&L is present on SELL records only. *)
Definition record_ok (tr : Trade) : Prop :=
  t_total tr = t_qty tr * t_price tr
  /\ match t_side tr with
     | BUY => t_pnl tr = None
     | SELL => is_Some (t_pnl tr)
     end.

(** A run of [updateMetrics] calls, one per price table. *)
Definition updateMetrics_run (calls : list (gmap string Q)) (p : t) : t :=
  fold_left (fun p prices => updateMetrics prices p) calls p.

(** What the owner of a ledger does with it: an order, the metrics update
    of a period close, or a reset. *)
Inductive Action :=
| Order (o : Op)
| Metrics (prices : gmap string Q)
| Reset (cash0 : option Q).

Definition act (p : t) (a : Action) : t :=
  match a with
  | Order o => step p o
  | Metrics prices => updateMetrics prices p
  | Reset cash0 => reset cash0 p
  end.

Definition play (actions : list Action) (p : t) : t := fold_left act actions p.

(** The records carry the ids 1, 2, ... in the order of the list, and
    [tradeId] is the id of the last one. *)
Definition numbered (p : t) : Prop :=
  tradeId p = Z.of_nat (length (trades p))
  /\ forall (i : nat) tr, trades p !! i = Some tr -> t_id tr = (Z.of_nat i + 1)%Z.

(** No price of the table is negative. *)
Definition nonneg_prices (prices : gmap string Q) : Prop :=
  map_Forall (fun _ x => 0 <= x) prices.

(** An order for a plain symbol, a metrics update, or a reset to an amount
    that is not negative. *)
Definition careful (a : Action) : Prop :=
  match a with
  | Order o => plain_order o
  | Metrics _ => True
  | Reset (Some c) => 0 <= c
  | Reset None => True
  end.

(** Peak and drawdown as [updateMetrics] keeps them: against a positive
    starting cash the peak is positive, and the largest drawdown is not
    negative. *)
Definition metrics_ok (p : t) : Prop :=
  0 < startingCash p /\ 0 < peakValue p /\ 0 <= maxDrawdown p.

End Ledger.

(** * Properties *)

(** ** Numbers *)

Lemma Qltb_lt a b : Qltb a b = true <-> a < b.
Proof.
  unfold Qltb. rewrite negb_true_iff, <- not_true_iff_false, Qle_bool_iff.
  split; [apply Qnot_le_lt | apply Qlt_not_le].
Qed.

Lemma Qltb_ge a b : Qltb a b = false <-> b <= a.
Proof.
  unfold Qltb. rewrite negb_false_iff. apply Qle_bool_iff.
Qed.

Lemma Qleb_le a b : Qleb a b = true <-> a <= b.
Proof. apply Qle_bool_iff. Qed.

Lemma Qleb_gt a b : Qleb a b = false <-> b < a.
Proof.
  unfold Qleb. rewrite <- not_true_iff_false, Qle_bool_iff.
  split; [apply Qnot_le_lt | apply Qlt_not_le].
Qed.

Lemma Qeqb_eq a b : Qeqb a b = true <-> a == b.
Proof. apply Qeq_bool_iff. Qed.

Lemma Math_floor_le x : Math_floor x <= x.
Proof. apply Qfloor_le. Qed.

Lemma Math_max_l a b : a <= Math_max a b.
Proof. apply Q.le_max_l. Qed.

(** ** portfolio.js *)

Section PortfolioFacts.

Import Portfolio Ledger.

(** C1.  Starting with 10000 in cash, [buy(symbol, 10, 100, day, tick)]
    leaves cash 9000 and the holding [{qty: 10, avgCost: 100}]; the
    following [sell(symbol, 5, 120, day, tick)] leaves cash 9600, returns
    and records a SELL trade with realized P&L 100, and leaves the holding
    [{qty: 5, avgCost: 100}].  The symbol is any key under which the
    [holdings] object inherits nothing. *)
Theorem C1_buy_then_sell_scenario :
  forall (who sym : string) (day tick now day' tick' now' : Z),
    plain_key sym ->
    let p0 := new who 10000 in
    let r1 := buy sym 10 100 day tick now p0 in
    let r2 := sell sym 5 120 day' tick' now' r1.2 in
    (cash r1.2 == 9000
     /\ exists h, holdings r1.2 !! sym = Some h
                  /\ qty h == 10 /\ avgCost h == 100)
    /\ (cash r2.2 == 9600
        /\ (exists tr pnl, r2.1 = Some tr
              /\ trades r2.2 = trades r1.2 ++ [tr]
              /\ t_side tr = SELL /\ t_qty tr == 5
              /\ t_pnl tr = Some pnl /\ pnl == 100)
        /\ exists h, holdings r2.2 !! sym = Some h
                     /\ qty h == 5 /\ avgCost h == 100).
Proof.
  intros who sym day tick now day' tick' now' _ p0 r1 r2.
  assert (E1 : r1 = buy_fill sym 10 100 day tick now p0) by reflexivity.
  assert (H1 : holdings r1.2 !! sym
               = Some (mkHolding (0 + 10) ((0 * 0 + 10 * 100) / (0 + 10)))).
  { rewrite E1. unfold buy_fill. cbn [snd holdings p0 new].
    rewrite lookup_empty. cbn [default qty avgCost].
    apply lookup_insert_eq. }
  split.
  - split; [rewrite E1; reflexivity|].
    eexists; split; [exact H1|]. split; reflexivity.
  - unfold r2, sell. rewrite H1. cbn [qty avgCost].
    change (Qleb (0 + 10) 0) with false. cbv iota.
    change (Qleb (Math_min 5 (0 + 10)) 0) with false. cbv iota.
    change (Qleb (0 + 10 - Math_min 5 (0 + 10)) 0) with false. cbv iota.
    cbn [fst snd cash trades holdings].
    split; [rewrite E1; reflexivity|].
    split.
    + eexists; eexists. split; [reflexivity|].
      split; [reflexivity|]. split; [reflexivity|].
      cbn [t_qty t_pnl]. split; [reflexivity|]. split; reflexivity.
    + eexists; split; [apply lookup_insert_eq|].
      cbn [qty avgCost]. split; reflexivity.
Qed.

(** The scenario on the symbol NOVA. *)
Lemma C1_buy_then_sell_scenario_witness :
  let r1 := buy "NOVA" 10 100 0 0 0 (new "You" 10000) in
  cash r1.2 == 9000 /\ cash (sell "NOVA" 5 120 0 1 0 r1.2).2 == 9600.
Proof.
  intros r1.
  destruct (C1_buy_then_sell_scenario "You" "NOVA" 0 0 0 0 1 0 eq_refl)
    as [[H1 _] [H2 _]].
  split; [exact H1 | exact H2].
Defined.



Lemma updateMetrics_maxDrawdown prices p :
  maxDrawdown p <= maxDrawdown (updateMetrics prices p).
Proof.
  unfold updateMetrics. cbn [maxDrawdown].
  match goal with |- context [if Qltb ?a ?b then _ else _] =>
    destruct (Qltb a b) eqn:E end.
  - apply Qltb_lt in E. apply Qlt_le_weak, E.
  - apply Qle_refl.
Qed.

(** C6.  [maxDrawdown] never decreases: it is at least as large after an
    [updateMetrics] call as before it, for every portfolio and every price
    table, and so along every run of calls. *)
Theorem C6_maxDrawdown_monotone :
  (forall (prices : gmap string Q) (p : t),
      maxDrawdown p <= maxDrawdown (updateMetrics prices p))
  /\ (forall (calls more : list (gmap string Q)) (p : t),
         maxDrawdown (updateMetrics_run calls p)
         <= maxDrawdown (updateMetrics_run (calls ++ more) p)).
Proof.
  split; [apply updateMetrics_maxDrawdown|].
  intros calls more p. unfold updateMetrics_run.
  rewrite fold_left_app.
  generalize (fold_left (fun p prices => updateMetrics prices p) calls p).
  induction more as [|prices more IH]; intros p'; cbn [fold_left].
  - apply Qle_refl.
  - eapply Qle_trans; [apply updateMetrics_maxDrawdown | apply IH].
Qed.

End PortfolioFacts.

(** *** What positive orders preserve *)

Section LedgerFacts.

Import Portfolio Ledger.

Implicit Types (p : t) (m : gmap string Holding) (h : Holding).

Lemma basis_empty : basis ∅ = 0.
Proof. apply map_fold_empty. Qed.

Lemma basis_insert_fresh m i h :
  m !! i = None -> basis (<[i:=h]> m) == basis m + qty h * avgCost h.
Proof.
  intros Hi. unfold basis.
  apply (map_fold_insert Qeq (fun _ h acc => acc + qty h * avgCost h)).
  - intros j z x y Hxy. rewrite Hxy. reflexivity.
  - intros. ring.
  - exact Hi.
Qed.

Lemma basis_delete m i h :
  m !! i = Some h -> basis m == basis (delete i m) + qty h * avgCost h.
Proof.
  intros Hi. unfold basis.
  apply (map_fold_delete Qeq (fun _ h acc => acc + qty h * avgCost h)).
  - intros j z x y Hxy. rewrite Hxy. reflexivity.
  - intros. ring.
  - exact Hi.
Qed.

Lemma basis_insert_over m i h h' :
  m !! i = Some h ->
  basis (<[i:=h']> m) == basis m - qty h * avgCost h + qty h' * avgCost h'.
Proof.
  intros Hi. rewrite <- (insert_delete_eq m i h').
  rewrite basis_insert_fresh by apply lookup_delete_eq.
  rewrite (basis_delete m i h Hi). ring.
Qed.

(** The contribution of the slot [holdings[symbol]] to the basis, with
    the [{qty: 0, avgCost: 0}] that [buy] creates for a new symbol. *)
Lemma basis_insert_default m i h' :
  let h := default (mkHolding 0 0) (m !! i) in
  basis (<[i:=h']> m) == basis m - qty h * avgCost h + qty h' * avgCost h'.
Proof.
  destruct (m !! i) as [h|] eqn:Hi; cbn [default].
  - apply basis_insert_over, Hi.
  - rewrite basis_insert_fresh by exact Hi. cbn [qty avgCost]. ring.
Qed.

Lemma pnl_sum_snoc l tr :
  pnl_sum (l ++ [tr]) = match t_pnl tr with
                        | Some x => pnl_sum l + x
                        | None => pnl_sum l
                        end.
Proof.
  unfold pnl_sum. rewrite filter_app.
  destruct (t_pnl tr) as [x|] eqn:E.
  - rewrite filter_cons_True by (rewrite E; eauto).
    rewrite filter_nil, fold_left_app. cbn [fold_left]. rewrite E. reflexivity.
  - rewrite filter_cons_False by (rewrite E; apply is_Some_None).
    rewrite filter_nil, app_nil_r. reflexivity.
Qed.

Lemma realizedPnL_eq p : realizedPnL p = pnl_sum (trades p).
Proof. reflexivity. Qed.

Lemma default_qty_nonneg p sym :
  sound p -> 0 <= qty (default (mkHolding 0 0) (holdings p !! sym)).
Proof.
  intros [_ Hh]. destruct (holdings p !! sym) as [h|] eqn:E; cbn.
  - apply Qlt_le_weak. exact (Hh sym h E).
  - apply Qle_refl.
Qed.

Lemma buy_fill_sound sym q price day tick now p :
  0 < q -> q * price <= cash p -> sound p ->
  sound (buy_fill sym q price day tick now p).2.
Proof.
  intros Hq Hcost Hs. pose proof (default_qty_nonneg p sym Hs) as H0.
  destruct Hs as [Hc Hh]. split; cbn [buy_fill snd cash holdings].
  - lra.
  - apply map_Forall_insert_2; [cbn [qty]; lra | exact Hh].
Qed.

Lemma buy_fill_book sym q price day tick now p :
  0 < q -> sound p ->
  bookValue (buy_fill sym q price day tick now p).2 == bookValue p.
Proof.
  intros Hq Hs. pose proof (default_qty_nonneg p sym Hs) as H0.
  unfold bookValue. cbn [buy_fill snd cash holdings].
  rewrite basis_insert_default. cbn [qty avgCost].
  set (h := default (mkHolding 0 0) (holdings p !! sym)) in *.
  field. lra.
Qed.

Lemma clamp_affordable c price :
  0 < price -> Math_floor (c / price) * price <= c.
Proof.
  intros Hp.
  apply Qle_trans with ((c / price) * price).
  - apply Qmult_le_compat_r; [apply Math_floor_le | apply Qlt_le_weak, Hp].
  - apply Qle_lteq. right. field. lra.
Qed.

Lemma buy_cases sym q price day tick now p :
  0 < q -> 0 < price ->
  (buy sym q price day tick now p = (None, p))
  \/ exists q', 0 < q' /\ q' * price <= cash p
                /\ buy sym q price day tick now p
                   = buy_fill sym q' price day tick now p.
Proof.
  intros Hq Hp. unfold buy.
  destruct (Qltb (cash p) (q * price)) eqn:E.
  - destruct (Qleb (Math_floor (cash p / price)) 0) eqn:E2; [left; reflexivity|].
    right. exists (Math_floor (cash p / price)).
    apply Qleb_gt in E2.
    split; [exact E2|]. split; [apply clamp_affordable, Hp | reflexivity].
  - right. exists q. apply Qltb_ge in E. auto.
Qed.

Lemma buy_sound sym q price day tick now p :
  0 < q -> 0 < price -> sound p -> sound (buy sym q price day tick now p).2.
Proof.
  intros Hq Hp Hs.
  destruct (buy_cases sym q price day tick now p Hq Hp)
    as [-> | (q' & Hq' & Hc & ->)]; [exact Hs|].
  apply buy_fill_sound; assumption.
Qed.

Lemma buy_book sym q price day tick now p :
  0 < q -> 0 < price -> sound p ->
  bookValue (buy sym q price day tick now p).2 == bookValue p
  /\ realizedPnL (buy sym q price day tick now p).2 = realizedPnL p.
Proof.
  intros Hq Hp Hs.
  destruct (buy_cases sym q price day tick now p Hq Hp)
    as [-> | (q' & Hq' & Hc & ->)]; [split; reflexivity|].
  split; [apply buy_fill_book; assumption|].
  rewrite !realizedPnL_eq. cbn [buy_fill snd trades].
  apply (pnl_sum_snoc (trades p)).
Qed.

Lemma sell_sound sym q price day tick now p :
  0 < price -> sound p -> sound (sell sym q price day tick now p).2.
Proof.
  intros Hp Hs. unfold sell.
  destruct (holdings p !! sym) as [h|] eqn:Eh; [|exact Hs].
  destruct (Qleb (qty h) 0); [exact Hs|].
  destruct (Qleb (Math_min q (qty h)) 0) eqn:Eq; [exact Hs|].
  apply Qleb_gt in Eq. destruct Hs as [Hc Hh].
  split; cbn [snd cash holdings].
  - pose proof (Qmult_lt_0_compat _ _ Eq Hp). lra.
  - destruct (Qleb (qty h - Math_min q (qty h)) 0) eqn:E3.
    + apply map_Forall_delete, Hh.
    + apply Qleb_gt in E3.
      apply map_Forall_insert_2; [exact E3 | exact Hh].
Qed.

Lemma sell_book sym q price day tick now p :
  sound p ->
  bookValue (sell sym q price day tick now p).2
  + realizedPnL p == bookValue p + realizedPnL (sell sym q price day tick now p).2.
Proof.
  intros Hs. unfold sell.
  destruct (holdings p !! sym) as [h|] eqn:Eh; [|cbn [snd]; ring].
  destruct (Qleb (qty h) 0); [cbn [snd]; ring|].
  destruct (Qleb (Math_min q (qty h)) 0) eqn:Eq; [cbn [snd]; ring|].
  set (q' := Math_min q (qty h)) in *.
  assert (Hle : q' <= qty h) by apply Q.le_min_r.
  rewrite !realizedPnL_eq. unfold bookValue.
  cbn [snd cash holdings trades].
  rewrite pnl_sum_snoc. cbn [t_pnl].
  destruct (Qleb (qty h - q') 0) eqn:E3.
  - apply Qleb_le in E3.
    assert (Hq : qty h == q') by lra.
    rewrite (basis_delete _ _ _ Eh). rewrite Hq. ring.
  - rewrite (basis_insert_over _ _ _ _ Eh). cbn [qty avgCost]. ring.
Qed.

(** With positive quantities and prices, the clamps do what they are
    there for: cash never goes below zero and a holding never has a
    quantity that is not positive.  For cash this is a fact of the exact
    model: in binary64 the product [Math.floor(cash / price) * price] can
    exceed [cash] by a rounding error. *)
Lemma positive_orders_sound ops p :
  Forall positive_order ops -> sound p -> sound (run ops p).
Proof.
  intros Hops. revert p. induction Hops as [|o ops [Hq Hp] _ IH]; intros p Hs.
  - exact Hs.
  - cbn [run fold_left]. apply IH. unfold step.
    destruct o; cbn [call op_qty op_price] in *.
    + apply buy_sound; assumption.
    + apply sell_sound; assumption.
Qed.

(** With positive quantities and prices, cash plus cost basis equals the
    starting cash plus the realized P&L of the SELL records: an identity
    of the exact model, which binary64 keeps up to rounding only. *)
Lemma positive_orders_book ops p :
  Forall positive_order ops -> sound p ->
  bookValue p == startingCash p + realizedPnL p ->
  bookValue (run ops p) == startingCash (run ops p) + realizedPnL (run ops p).
Proof.
  intros Hops. revert p.
  induction Hops as [|o ops [Hq Hp] _ IH]; intros p Hs Hb.
  - exact Hb.
  - cbn [run fold_left]. apply IH; unfold step.
    + destruct o; cbn [call op_qty op_price] in *.
      * apply buy_sound; assumption.
      * apply sell_sound; assumption.
    + destruct o as [s q pr d k n | s q pr d k n];
        cbn [call op_qty op_price] in *.
      * destruct (buy_book s q pr d k n p Hq Hp Hs) as [Hbook Hpnl].
        rewrite Hbook, Hpnl.
        assert (Hsc : startingCash (buy s q pr d k n p).2 = startingCash p).
        { unfold buy, buy_fill.
          repeat match goal with |- context [if ?b then _ else _] =>
                   destruct b end; reflexivity. }
        rewrite Hsc. exact Hb.
      * pose proof (sell_book s q pr d k n p Hs) as Hbook.
        assert (Hsc : startingCash (sell s q pr d k n p).2 = startingCash p).
        { unfold sell. destruct (holdings p !! s); [|reflexivity].
          repeat match goal with |- context [if ?b then _ else _] =>
                   destruct b end; reflexivity. }
        rewrite Hsc. lra.
Qed.

Lemma new_sound who c : 0 <= c -> sound (new who c).
Proof. intros Hc. split; [exact Hc | apply map_Forall_empty]. Qed.

Lemma new_book who c :
  bookValue (new who c) == startingCash (new who c) + realizedPnL (new who c).
Proof.
  unfold bookValue, realizedPnL. cbn [new cash holdings startingCash trades].
  rewrite basis_empty. reflexivity.
Qed.

End LedgerFacts.

(** *** Orders for a quantity that is not positive *)

Section LedgerDefects.

Import Portfolio Ledger.

(** C2.  The claim is that no sequence of [buy] and [sell] calls makes a
    holding's quantity or the cash negative.  [buy] tests [qty <= 0] only
    inside the branch that clamps to the affordable quantity, so an order
    for -5 shares at 100 is filled: the call returns a BUY record, cash
    grows to 10500 and the holding has quantity -5.  [sell] tests
    [qty <= 0] on every path: on a holding of 10 shares it rejects the
    order for -5 and leaves the portfolio as it was. *)
Theorem C2_buy_negative_quantity :
  let r := buy "NOVA" (-5) 100 0 0 0 (new "You" 10000) in
  let held := (buy "NOVA" 10 100 0 0 0 (new "You" 10000)).2 in
  (exists tr, r.1 = Some tr /\ t_side tr = BUY /\ t_qty tr == -5)
  /\ cash r.2 == 10500
  /\ (exists h, holdings r.2 !! "NOVA" = Some h /\ qty h == -5 /\ qty h < 0)
  /\ ~ sound r.2
  /\ sell "NOVA" (-5) 100 0 0 0 held = (None, held).
Proof.
  cbv zeta. split; [|split; [|split; [|split]]].
  - eexists. split; [reflexivity|]. split; reflexivity.
  - reflexivity.
  - eexists. split; [vm_compute; reflexivity|]. split; reflexivity.
  - intros [_ Hh].
    specialize (Hh "NOVA" (mkHolding (0 + -5) ((0 * 0 + -5 * 100) / (0 + -5)))).
    cbn [qty] in Hh. apply (Qlt_irrefl 0).
    eapply Qlt_trans; [apply Hh; vm_compute; reflexivity | reflexivity].
  - vm_compute. reflexivity.
Qed.

(** C10.  The claim is that cash plus cost basis always equals the
    starting cash plus the realized P&L.  After the order for -5 shares
    at 100 above, an order for 5 shares at 120 brings the quantity of the
    holding to 0 and divides by it to get the average cost: cash is 9900,
    no P&L was realized, and no average cost whatsoever makes
    [cash + qty * avgCost] equal to the starting 10000.  (JavaScript
    stores [Infinity] as average cost, and the sum is [NaN].) *)
Theorem C10_book_value_lost :
  let p := run [Buy "NOVA" (-5) 100 0 0 0; Buy "NOVA" 5 120 0 1 0]
               (new "You" 10000) in
  length (trades p) = 2%nat
  /\ cash p == 9900
  /\ realizedPnL p == 0
  /\ (exists h, holdings p = {[ "NOVA" := h ]} /\ qty h == 0
                /\ forall a : Q,
                     ~ cash p + qty h * a == startingCash p + realizedPnL p)
  /\ ~ bookValue p == startingCash p + realizedPnL p.
Proof.
  intros p.
  assert (Hc : cash p == 9900) by reflexivity.
  assert (Hr : realizedPnL p == 0) by reflexivity.
  assert (Hs : startingCash p == 10000) by reflexivity.
  assert (Hb : bookValue p == 9900) by (vm_compute; reflexivity).
  split; [reflexivity|]. split; [exact Hc|]. split; [exact Hr|]. split.
  - eexists. split; [vm_compute; reflexivity|].
    split; [reflexivity|].
    intros a H. cbn [qty] in H. rewrite Hc, Hr, Hs in H. lra.
  - rewrite Hb, Hr, Hs. lra.
Qed.

End LedgerDefects.

(** ** indicators.js *)

Section IndicatorFacts.

Import Indicators.

Implicit Types (data closes : list Q) (period : Z) (out : list (option Q)).

Lemma null_exactly_intro (warm_up : nat -> Prop) n out :
  length out = n ->
  (forall i o, out !! i = Some o -> (o = None <-> warm_up i)) ->
  null_exactly warm_up n out.
Proof.
  intros Hlen Hout. split; [exact Hlen|].
  intros i Hi.
  destruct (lookup_lt_is_Some_2 out i) as [o Ho]; [lia|].
  pose proof (Hout i o Ho) as Hiff. split.
  - intros Hw. rewrite Ho. f_equal. apply Hiff, Hw.
  - intros Hw. destruct o as [v|]; [eauto|].
    exfalso. apply Hw, Hiff. reflexivity.
Qed.

(** An output that is [null] at every index of a short input is the
    all-[null] array. *)
Lemma null_exactly_all (warm_up : nat -> Prop) n out :
  null_exactly warm_up n out ->
  (forall i, (i < n)%nat -> warm_up i) ->
  out = replicate n None.
Proof.
  intros [Hlen Hout] Hall. apply list_eq. intros i.
  destruct (decide (i < n)%nat) as [Hi|Hi].
  - rewrite lookup_replicate_2 by exact Hi.
    apply (Hout i Hi), Hall, Hi.
  - rewrite (proj2 (lookup_ge_None _ _)) by lia.
    symmetry. apply lookup_replicate_None. lia.
Qed.

Lemma warming_spec period i :
  warming period i = true <-> (Z.of_nat i < period - 1)%Z.
Proof. unfold warming. apply Z.ltb_lt. Qed.

(** Every index read by a window that [warming] lets through lies in
    the array. *)
Lemma window_in_range period i j :
  warming period i = false -> j ∈ window period i -> (j <= i)%nat.
Proof.
  unfold warming, window. intros Hw Hj.
  apply Z.ltb_ge in Hw. apply elem_of_seq in Hj. lia.
Qed.

Lemma SMA_length data period : length (SMA data period) = length data.
Proof. unfold SMA. rewrite length_fmap. apply length_seq. Qed.

Lemma SMA_lookup data period i :
  (i < length data)%nat ->
  SMA data period !! i
  = Some (if warming period i then None
          else Some (window_sum data period i / inject_Z period)).
Proof.
  intros Hi. unfold SMA.
  rewrite list_lookup_fmap, lookup_seq_lt by exact Hi. reflexivity.
Qed.

Lemma SMA_null data period i o :
  SMA data period !! i = Some o ->
  (o = None <-> (Z.of_nat i < period - 1)%Z).
Proof.
  intros Ho.
  assert (Hi : (i < length data)%nat).
  { rewrite <- (SMA_length data period). eapply lookup_lt_Some, Ho. }
  rewrite SMA_lookup in Ho by exact Hi. injection Ho as <-.
  rewrite <- warming_spec. destruct (warming period i); split; congruence.
Qed.

Lemma EMA_loop_length data period k indices ema :
  length (EMA_loop data period k indices ema) = length indices.
Proof.
  revert ema. induction indices as [|i rest IH]; intros ema; cbn [EMA_loop].
  - reflexivity.
  - destruct (warming period i); cbn [length]; rewrite IH; reflexivity.
Qed.

Lemma EMA_loop_null data period k indices ema n o :
  EMA_loop data period k indices ema !! n = Some o ->
  exists i, indices !! n = Some i /\ (o = None <-> warming period i = true).
Proof.
  revert ema n. induction indices as [|i rest IH]; intros ema n;
    cbn [EMA_loop].
  - intros H. rewrite lookup_nil in H. discriminate.
  - destruct (warming period i) eqn:Hw; destruct n as [|n]; cbn [lookup list_lookup].
    + intros [= <-]. exists i. rewrite Hw. split; [reflexivity | tauto].
    + apply IH.
    + intros [= <-]. exists i. rewrite Hw. split; [reflexivity | split; congruence].
    + apply IH.
Qed.

Lemma EMA_length data period : length (EMA data period) = length data.
Proof. unfold EMA. rewrite EMA_loop_length. apply length_seq. Qed.

Lemma EMA_null data period i o :
  EMA data period !! i = Some o ->
  (o = None <-> (Z.of_nat i < period - 1)%Z).
Proof.
  intros Ho. apply EMA_loop_null in Ho as (j & Hj & Hiff).
  apply lookup_seq in Hj as [-> _]. rewrite <- warming_spec. exact Hiff.
Qed.

Lemma RSI_step_spec closes period i st :
  let r := RSI_step closes period i st in
  (r.2 = None <-> i = 0%nat \/ (Z.of_nat i < period)%Z)
  /\ (forall v, r.2 = Some v -> v = RSI_value r.1).
Proof.
  unfold RSI_step.
  destruct (i =? 0)%nat eqn:E0.
  - apply Nat.eqb_eq in E0. cbn [snd]. split; [tauto | discriminate].
  - apply Nat.eqb_neq in E0.
    destruct (Z.of_nat i <=? period)%Z eqn:E1.
    + destruct (Z.of_nat i <? period)%Z eqn:E2; cbn [fst snd].
      * apply Z.ltb_lt in E2. split; [tauto | discriminate].
      * apply Z.ltb_ge in E2.
        split; [split; [discriminate | lia] | intros v [= <-]; reflexivity].
    + apply Z.leb_gt in E1. cbn [fst snd].
      split; [split; [discriminate | lia] | intros v [= <-]; reflexivity].
Qed.

Lemma RSI_loop_length closes period indices st :
  length (RSI_loop closes period indices st) = length indices.
Proof.
  revert st. induction indices as [|i rest IH]; intros st; cbn [RSI_loop length].
  - reflexivity.
  - rewrite IH. reflexivity.
Qed.

Lemma RSI_loop_lookup closes period indices st n r :
  RSI_loop closes period indices st !! n = Some r ->
  exists i st0, indices !! n = Some i /\ r = RSI_step closes period i st0.
Proof.
  revert st n. induction indices as [|i rest IH]; intros st n; cbn [RSI_loop].
  - intros H. rewrite lookup_nil in H. discriminate.
  - destruct n as [|n]; cbn [lookup list_lookup].
    + intros [= <-]. eauto.
    + apply IH.
Qed.

Lemma RSI_trace_lookup closes period i r :
  RSI_trace closes period !! i = Some r ->
  (r.2 = None <-> i = 0%nat \/ (Z.of_nat i < period)%Z)
  /\ (forall v, r.2 = Some v -> v = RSI_value r.1).
Proof.
  intros Hr. apply RSI_loop_lookup in Hr as (j & st0 & Hj & ->).
  apply lookup_seq in Hj as [-> _]. apply RSI_step_spec.
Qed.

Lemma RSI_length closes period : length (RSI closes period) = length closes.
Proof.
  unfold RSI, RSI_trace. rewrite length_fmap, RSI_loop_length. apply length_seq.
Qed.

Lemma RSI_null closes period i o :
  RSI closes period !! i = Some o ->
  (o = None <-> i = 0%nat \/ (Z.of_nat i < period)%Z).
Proof.
  unfold RSI. rewrite list_lookup_fmap.
  destruct (RSI_trace closes period !! i) as [r|] eqn:Hr; [|discriminate].
  intros [= <-]. apply (RSI_trace_lookup _ _ _ _ Hr).
Qed.

Section BollingerFacts.

Variable Math_sqrt : Q -> Q.

Lemma Bollinger_step_null closes period mult i :
  (i < length closes)%nat ->
  let r := Bollinger_step Math_sqrt closes period mult (SMA closes period) i in
  (r.1.1 = None <-> (Z.of_nat i < period - 1)%Z)
  /\ (r.1.2 = None <-> (Z.of_nat i < period - 1)%Z)
  /\ (r.2 = None <-> (Z.of_nat i < period - 1)%Z).
Proof.
  intros Hi. cbv zeta. unfold Bollinger_step.
  rewrite SMA_lookup by exact Hi.
  rewrite <- warming_spec.
  destruct (warming period i); cbn [default from_option id fst snd];
    (split; [|split]); split; congruence.
Qed.

Lemma Bollinger_null closes period mult (proj : _ -> option Q) i o :
  (forall r : option Q * option Q * option Q,
      proj r = r.1.1 \/ proj r = r.1.2 \/ proj r = r.2) ->
  (proj <$> (Bollinger_step Math_sqrt closes period mult (SMA closes period)
             <$> seq 0 (length closes))) !! i = Some o ->
  (o = None <-> (Z.of_nat i < period - 1)%Z).
Proof.
  intros Hproj. rewrite !list_lookup_fmap.
  destruct (seq 0 (length closes) !! i) as [j|] eqn:Hj; [|discriminate].
  apply lookup_seq in Hj as [-> Hi]. change (0 + i)%nat with i.
  cbn [fmap option_fmap option_map]. intros [= <-].
  destruct (Bollinger_step_null closes period mult i Hi) as (Hu & Hm & Hl).
  destruct (Hproj (Bollinger_step Math_sqrt closes period mult
                     (SMA closes period) i)) as [-> | [-> | ->]];
    assumption.
Qed.

Lemma Bollinger_lengths closes period mult :
  let b := BollingerBands Math_sqrt closes period mult in
  length (upper b) = length closes
  /\ length (middle b) = length closes
  /\ length (lower b) = length closes.
Proof.
  cbv zeta. cbn [BollingerBands upper middle lower].
  rewrite !length_fmap, length_seq. auto.
Qed.

End BollingerFacts.

(** C3, as the code has it.  At every index where [RSI] is defined and
    the smoothed average loss is zero, the relative strength is taken to
    be 100 and the value is [100 - 100/101] (99.0099...), not 100.  (The
    averages are quotients by [period]; with period 0 they are [NaN] or
    infinite in JavaScript and the average loss is never zero.) *)
Theorem C3_RSI_zero_loss :
  forall closes period (i : nat) (st : RSIState) (v : Q),
    period <> 0%Z ->
    RSI_trace closes period !! i = Some (st, Some v) ->
    losses st == 0 ->
    RSI closes period !! i = Some (Some v)
    /\ v == 100 - 100 / (1 + 100)
    /\ v == 10000 # 101.
Proof.
  intros closes period i st v _ Hr Hloss.
  destruct (RSI_trace_lookup _ _ _ _ Hr) as [_ Hv].
  specialize (Hv v eq_refl). cbn [fst] in Hv.
  split.
  - unfold RSI. rewrite list_lookup_fmap, Hr. reflexivity.
  - apply Qeqb_eq in Hloss. subst v. unfold RSI_value. rewrite Hloss.
    split; reflexivity.
Qed.

(** The theorem at work: on the rising series 1, 2, 3 with period 2 the
    average loss at index 2 is zero. *)
Lemma C3_RSI_zero_loss_witness :
  exists v, RSI [1; 2; 3] 2 !! 2%nat = Some (Some v) /\ v == 10000 # 101.
Proof.
  exists (100 - 100 / (1 + 100)).
  destruct (C3_RSI_zero_loss [1; 2; 3] 2 2%nat
              (mkRSI ((0 + (2 - 1) + (3 - 2)) / inject_Z 2)
                     ((0 - 0) / inject_Z 2))
              (100 - 100 / (1 + 100)) ltac:(discriminate) eq_refl eq_refl)
    as (H1 & _ & H3).
  split; assumption.
Defined.

(** C3, as the specification has it, fails: on the series 1, 2, 3 with
    period 2 the average loss at index 2 is zero and the value is not 100. *)
Lemma C3_RSI_zero_loss_is_not_100 :
  RSI [1; 2; 3] 2 = [None; None; Some (100 - 100 / (1 + 100))]
  /\ ~ (forall closes period (i : nat) (st : RSIState) (v : Q),
          period <> 0%Z ->
          RSI_trace closes period !! i = Some (st, Some v) ->
          losses st == 0 -> v == 100).
Proof.
  split; [reflexivity|].
  intros H.
  specialize (H [1; 2; 3] 2%Z 2%nat _ _ ltac:(discriminate) eq_refl eq_refl).
  vm_compute in H. discriminate.
Qed.

(** C5.  For a period of at least 1, [SMA], [EMA], the three Bollinger
    bands and [RSI] return as many entries as the input has, and the entry
    at index [i] is [null] exactly before the warm-up is over and a number
    from then on: for [SMA], [EMA] and the bands exactly when
    [i < period - 1], for [RSI], which needs a previous close, exactly
    when [i < period].  An input shorter than the warm-up gives the
    all-[null] array. *)
Theorem C5_indicator_shape :
  forall (Math_sqrt : Q -> Q) data period (mult : Q),
    (1 <= period)%Z ->
    let n := length data in
    let sma_warm_up := fun i : nat => (Z.of_nat i < period - 1)%Z in
    let rsi_warm_up := fun i : nat => (Z.of_nat i < period)%Z in
    let bands := BollingerBands Math_sqrt data period mult in
    (null_exactly sma_warm_up n (SMA data period)
     /\ null_exactly sma_warm_up n (EMA data period)
     /\ null_exactly sma_warm_up n (upper bands)
     /\ null_exactly sma_warm_up n (middle bands)
     /\ null_exactly sma_warm_up n (lower bands)
     /\ null_exactly rsi_warm_up n (RSI data period))
    /\ ((Z.of_nat n <= period - 1)%Z ->
        SMA data period = replicate n None
        /\ EMA data period = replicate n None
        /\ upper bands = replicate n None
        /\ middle bands = replicate n None
        /\ lower bands = replicate n None)
    /\ ((Z.of_nat n <= period)%Z -> RSI data period = replicate n None).
Proof.
  intros Math_sqrt data period mult Hp n sma_warm_up rsi_warm_up bands.
  destruct (Bollinger_lengths Math_sqrt data period mult) as (Lu & Lm & Ll).
  assert (Hshape :
    null_exactly sma_warm_up n (SMA data period)
    /\ null_exactly sma_warm_up n (EMA data period)
    /\ null_exactly sma_warm_up n (upper bands)
    /\ null_exactly sma_warm_up n (middle bands)
    /\ null_exactly sma_warm_up n (lower bands)
    /\ null_exactly rsi_warm_up n (RSI data period)).
  { split; [|split; [|split; [|split; [|split]]]].
    - apply null_exactly_intro; [apply SMA_length | apply SMA_null].
    - apply null_exactly_intro; [apply EMA_length | apply EMA_null].
    - apply null_exactly_intro; [exact Lu|].
      intros i o. apply Bollinger_null. auto.
    - apply null_exactly_intro; [exact Lm|].
      intros i o. apply Bollinger_null. auto.
    - apply null_exactly_intro; [exact Ll|].
      intros i o. apply Bollinger_null. auto.
    - apply null_exactly_intro; [apply RSI_length|].
      intros i o Ho. rewrite (RSI_null _ _ _ _ Ho). unfold rsi_warm_up. lia. }
  destruct Hshape as (Hs & He & Hu & Hm & Hl & Hr).
  split; [tauto|]. split.
  - intros Hn.
    assert (Hall : forall i, (i < n)%nat -> sma_warm_up i)
      by (intros i Hi; unfold sma_warm_up; lia).
    split; [|split; [|split; [|split]]];
      eapply null_exactly_all; eassumption.
  - intros Hn. eapply null_exactly_all; [exact Hr|].
    intros i Hi. unfold rsi_warm_up. lia.
Qed.

(** The theorem at work on the four closes 1, 2, 4, 8: with period 3 the
    [RSI] is [null] at the indices 0, 1, 2 and a number at index 3, and
    with period 6 the [SMA] is all [null]. *)
Lemma C5_indicator_shape_witness :
  null_exactly (fun i => (Z.of_nat i < 3)%Z) 4 (RSI [1; 2; 4; 8] 3)
  /\ SMA [1; 2; 4; 8] 6 = replicate 4 None.
Proof.
  destruct (C5_indicator_shape (fun x => x) [1; 2; 4; 8] 3 2 ltac:(lia))
    as ((_ & _ & _ & _ & _ & Hrsi) & _).
  destruct (C5_indicator_shape (fun x => x) [1; 2; 4; 8] 6 2 ltac:(lia))
    as (_ & Hshort & _).
  split.
  - exact Hrsi.
  - apply Hshort. cbn. lia.
Defined.

End IndicatorFacts.

(** ** market.js *)

Section MarketEngineFacts.

Import MarketEngine.

Lemma clear_own_timer next id (d : Q) :
  Timers.clearTimeout id (Timers.mkTimers next [(id, d)])
  = Timers.mkTimers next [].
Proof.
  unfold Timers.clearTimeout. cbn [Timers.pending Timers.nextId].
  rewrite filter_cons_False by (cbn; intros H; apply H; reflexivity).
  reflexivity.
Qed.

Lemma is_pending_single next id id' (d : Q) :
  Timers.is_pending id (Timers.mkTimers next [(id', d)]) = true -> id = id'.
Proof.
  unfold Timers.is_pending. intros H. apply bool_decide_eq_true in H.
  cbn in H. apply list_elem_of_singleton in H. exact H.
Qed.

Lemma well_scheduled_one_timer e : well_scheduled e -> one_timer e.
Proof.
  unfold well_scheduled, one_timer. destruct (paused e); [auto|].
  intros (id & H1 & H2). eauto.
Qed.

(** [pause] leaves the engine paused with no timeout pending. *)
Lemma pause_clears e :
  one_timer e ->
  paused (pause e) = true /\ Timers.pending (timers (pause e)) = []
  /\ speed (pause e) = speed e /\ baseInterval (pause e) = baseInterval e.
Proof.
  destruct e as [tk dy tpd pa sp iid bi [next pend] lg].
  unfold one_timer, pause.
  cbn [paused timers intervalId Timers.pending emit speed baseInterval].
  destruct pa.
  - intros ->. destruct iid; cbn; auto.
  - intros (id & d & -> & ->). rewrite clear_own_timer. cbn. auto.
Qed.

(** [play] on a paused engine with no timeout pending asks for one
    timeout, with the delay of the current speed. *)
Lemma play_schedules e :
  paused e = true -> Timers.pending (timers e) = [] ->
  well_scheduled (play e)
  /\ speed (play e) = speed e /\ baseInterval (play e) = baseInterval e.
Proof.
  destruct e as [tk dy tpd pa sp iid bi [next pend] lg].
  cbn [paused timers Timers.pending]. intros -> ->.
  unfold well_scheduled, play. cbn. eauto.
Qed.

Lemma play_scheduled e : well_scheduled e -> well_scheduled (play e).
Proof.
  intros H. destruct (paused e) eqn:Hp.
  - apply play_schedules; [exact Hp|].
    unfold well_scheduled in H. rewrite Hp in H. exact H.
  - unfold play. rewrite Hp. exact H.
Qed.

Lemma pause_scheduled e : one_timer e -> well_scheduled (pause e).
Proof.
  intros H. destruct (pause_clears e H) as (Hp & Ht & _).
  unfold well_scheduled. rewrite Hp. exact Ht.
Qed.

Lemma setSpeed_scheduled s e :
  well_scheduled e -> well_scheduled (setSpeed s e) /\ speed (setSpeed s e) = s.
Proof.
  intros H. apply well_scheduled_one_timer in H.
  unfold setSpeed. cbn [paused].
  set (e1 := mkEngine _ _ _ _ s _ _ _ _).
  assert (H1 : one_timer e1) by exact H.
  destruct (paused e) eqn:Hp; cbn [negb].
  - split; [|reflexivity].
    exact H1.
  - destruct (pause_clears e1 H1) as (Hpa & Hti & Hsp & _).
    destruct (play_schedules (pause e1) Hpa Hti) as (Hw & Hsp' & _).
    split; [exact Hw|]. rewrite Hsp', Hsp. reflexivity.
Qed.

Lemma reset_scheduled e : one_timer e -> well_scheduled (reset e).
Proof.
  intros H. destruct (pause_clears e H) as (Hp & Ht & _).
  unfold reset, well_scheduled. cbn [emit paused timers]. rewrite Hp. exact Ht.
Qed.

Lemma reset_speed e : speed (reset e) = speed e.
Proof. unfold reset, pause. destruct (intervalId e); reflexivity. Qed.

Lemma _schedule_speed e : speed (_schedule e) = speed e.
Proof. unfold _schedule. destruct (paused e); reflexivity. Qed.

Lemma fire_scheduled id e :
  well_scheduled e -> well_scheduled (fire id e).
Proof.
  destruct e as [tk dy tpd pa sp iid bi [next pend] lg].
  unfold well_scheduled, fire. cbn [paused timers intervalId Timers.pending].
  destruct pa.
  - intros ->. cbn. reflexivity.
  - intros (id0 & -> & ->).
    destruct (Timers.is_pending id _) eqn:Hpend.
    + apply is_pending_single in Hpend as ->.
      rewrite clear_own_timer. unfold _tick. cbn [tick ticksPerDay].
      destruct ((tk mod tpd =? 0)%Z && (0 <? tk)%Z);
        unfold _schedule; cbn; eauto.
    + cbn. eauto.
Qed.

Lemma fire_speed id e : speed (fire id e) = speed e.
Proof.
  unfold fire. destruct (Timers.is_pending id (timers e)); [|reflexivity].
  rewrite _schedule_speed. unfold _tick. cbn.
  destruct ((tick e mod ticksPerDay e =? 0)%Z && (0 <? tick e)%Z); reflexivity.
Qed.

Lemma step_scheduled e o :
  positive_speed o -> well_scheduled e -> 0 < speed e ->
  well_scheduled (step e o) /\ 0 < speed (step e o).
Proof.
  intros Ho Hw Hs. destruct o as [ | | | s | id]; cbn [step positive_speed] in *.
  - split; [apply play_scheduled, Hw|].
    unfold play. destruct (paused e); exact Hs.
  - split; [apply pause_scheduled, well_scheduled_one_timer, Hw|].
    unfold pause. destruct (intervalId e); exact Hs.
  - split; [apply reset_scheduled, well_scheduled_one_timer, Hw|].
    rewrite reset_speed. exact Hs.
  - destruct (setSpeed_scheduled s e Hw) as [H1 H2]. rewrite H2. auto.
  - split; [apply fire_scheduled, Hw|]. rewrite fire_speed. exact Hs.
Qed.

Lemma run_scheduled ops e :
  Forall positive_speed ops -> well_scheduled e -> 0 < speed e ->
  well_scheduled (run ops e) /\ 0 < speed (run ops e).
Proof.
  intros Hops. revert e. induction Hops as [|o ops Ho _ IH]; intros e Hw Hs.
  - auto.
  - cbn [run fold_left]. destruct (step_scheduled e o Ho Hw Hs). apply IH; auto.
Qed.

(** C9, as the code has it.  In every state the simulator reaches from
    its initial state by [play], [pause], [reset], [setSpeed] with a
    positive speed and the firing of a timeout, while it is playing
    exactly one timeout is pending and it was asked with the delay
    [Math.max(10, baseInterval / speed)]: that is [baseInterval / speed]
    as long as this quotient is at least 10 ms, and 10 ms above that
    speed. *)
Theorem C9_tick_delay :
  forall ops : list Op,
    Forall positive_speed ops ->
    let e := run ops new in
    0 < speed e
    /\ (paused e = false ->
        exists id d,
          intervalId e = Some id
          /\ Timers.pending (timers e) = [(id, d)]
          /\ d = Math_max 10 (baseInterval e / speed e)
          /\ (10 <= baseInterval e / speed e -> d == baseInterval e / speed e)
          /\ (baseInterval e / speed e <= 10 -> d == 10)).
Proof.
  intros ops Hops e.
  destruct (run_scheduled ops new Hops) as [Hw Hs];
    [reflexivity | reflexivity |].
  fold e in Hw, Hs. split; [exact Hs|].
  intros Hp. unfold well_scheduled in Hw. rewrite Hp in Hw.
  destruct Hw as (id & Hid & Hpend). exists id, (delay e).
  split; [exact Hid|]. split; [exact Hpend|]. split; [reflexivity|].
  unfold delay, Math_max. split; intros H.
  - apply Q.max_r, H.
  - apply Q.max_l, H.
Qed.

(** The theorem at work: at speed 5 the pending delay is 385 / 5 = 77. *)
Lemma C9_tick_delay_witness :
  exists id d,
    Timers.pending (timers (run [OpPlay; OpSetSpeed 5] new)) = [(id, d)]
    /\ d == 77.
Proof.
  assert (Hops : Forall positive_speed [OpPlay; OpSetSpeed 5]).
  { repeat constructor. }
  destruct (C9_tick_delay [OpPlay; OpSetSpeed 5] Hops) as [_ H].
  destruct (H eq_refl) as (id & d & _ & Hpend & _ & Hd & _).
  exists id, d. split; [exact Hpend|].
  rewrite Hd; [reflexivity | vm_compute; discriminate].
Defined.

(** C9, as the specification has it, fails: at speed 50, one of the
    speeds the dashboard offers, [baseInterval / speed] is 7.7 and the
    delay asked for is 10. *)
Lemma C9_delay_clamped_at_speed_50 :
  let e := run [OpSetSpeed 50; OpPlay] new in
  paused e = false
  /\ Timers.pending (timers e) = [(1%positive, 10)]
  /\ baseInterval e / speed e == 77 # 10
  /\ ~ (forall s : Q, 0 < s ->
        forall id d,
          (id, d) ∈ Timers.pending (timers (run [OpSetSpeed s; OpPlay] new)) ->
          d == baseInterval new / s).
Proof.
  cbv zeta. split; [reflexivity|]. split; [reflexivity|].
  split; [reflexivity|].
  intros H. specialize (H 50 eq_refl 1%positive 10).
  assert (Hin : (1%positive, 10) ∈
                Timers.pending (timers (run [OpSetSpeed 50; OpPlay] new))).
  { change (Timers.pending (timers (run [OpSetSpeed 50; OpPlay] new)))
      with [(1%positive, 10)]. apply list_elem_of_singleton. reflexivity. }
  specialize (H Hin). vm_compute in H. discriminate.
Qed.

End MarketEngineFacts.

(** ** real-market.js *)

Section ReplayFacts.

Import RealMarketEngine.

Lemma no_tick_refl e : no_tick_between e e.
Proof. exists []. rewrite app_nil_r. auto. Qed.

Lemma no_tick_trans e1 e2 e3 :
  no_tick_between e1 e2 -> no_tick_between e2 e3 -> no_tick_between e1 e3.
Proof.
  intros (l1 & H1 & F1) (l2 & H2 & F2). exists (l1 ++ l2).
  rewrite H2, H1, app_assoc. split; [reflexivity | apply Forall_app; auto].
Qed.

Lemma no_tick_emit ev e e' :
  is_tick ev = false -> log e' = log e -> no_tick_between e (emit ev e').
Proof.
  intros Hev Hlog. exists [ev]. cbn [emit log]. rewrite Hlog. auto.
Qed.

Lemma no_tick_same_log e e' : log e' = log e -> no_tick_between e e'.
Proof. intros H. exists []. rewrite H, app_nil_r. auto. Qed.

(** [pause] touches neither the series nor the replay position. *)
Lemma pause_keeps e :
  candles (pause e) = candles e
  /\ replayIndex (pause e) = replayIndex e
  /\ replayCandles (pause e) = replayCandles e
  /\ day (pause e) = day e /\ tick (pause e) = tick e
  /\ log (pause e) = log e ++ [EvPause].
Proof.
  unfold pause. cbn [set_paused intervalId].
  destruct (intervalId e); cbn; auto 10.
Qed.

(** [play()] on an empty series returns at once: nothing is scheduled and
    nothing is emitted. *)
Lemma play_empty e : candles e = [] -> play e = e.
Proof.
  intros H. unfold play. destruct (negb (paused e)); [reflexivity|].
  rewrite H. reflexivity.
Qed.

Lemma _advanceReplay_empty e : candles e = [] -> _advanceReplay e = e.
Proof. intros H. unfold _advanceReplay. rewrite H. reflexivity. Qed.

Lemma _schedule_keeps e :
  candles (_schedule e) = candles e /\ log (_schedule e) = log e.
Proof. unfold _schedule. destruct (paused e); cbn; auto. Qed.

Lemma pause_quiet e :
  candles (pause e) = candles e /\ no_tick_between e (pause e).
Proof.
  destruct (pause_keeps e) as (Hc & _ & _ & _ & _ & Hl).
  split; [exact Hc|]. exists [EvPause]. auto.
Qed.

Ltac quiet :=
  first
    [ apply no_tick_refl
    | eexists; split;
      [ cbn; rewrite <- ?app_assoc; reflexivity | repeat constructor ] ].

Lemma fire_quiet id e :
  candles e = [] ->
  candles (fire id e) = [] /\ no_tick_between e (fire id e).
Proof.
  intros H. unfold fire.
  destruct (Timers.is_pending id (timers e));
    [|split; [exact H | apply no_tick_refl]].
  unfold onTimeout. cbn [set_timer candles replayIndex]. rewrite H.
  cbn [length]. rewrite (proj2 (Nat.ltb_ge _ _)) by lia.
  split; [cbn; exact H | quiet].
Qed.

Lemma reset_quiet e :
  candles e = [] ->
  candles (reset e) = [] /\ no_tick_between e (reset e).
Proof.
  destruct e as [sy si cs ri rc pa sp iid bi ld er rg dy tk ts lg].
  cbn [candles]. intros ->.
  unfold reset, pause; destruct iid; cbn; (split; [reflexivity | quiet]).
Qed.

Lemma setSpeed_quiet s e :
  candles e = [] ->
  candles (setSpeed s e) = [] /\ no_tick_between e (setSpeed s e).
Proof.
  intros H. unfold setSpeed. cbn [paused].
  set (e1 := mkEngine _ _ _ _ _ _ s _ _ _ _ _ _ _ _ _).
  assert (H1 : candles e1 = []) by exact H.
  destruct (negb (paused e)).
  - destruct (pause_quiet e1) as [Hc Hq].
    rewrite play_empty by (rewrite Hc; exact H1).
    split; [rewrite Hc; exact H1|].
    destruct Hq as (evs & Hl & Hf). exists evs. split; [exact Hl | exact Hf].
  - split; [exact H1 | apply no_tick_same_log; reflexivity].
Qed.

Lemma loadSymbol_begin_keeps sym rng e :
  let e' := loadSymbol_begin sym rng e in
  candles e' = candles e
  /\ replayIndex e' = replayIndex e
  /\ replayCandles e' = replayCandles e
  /\ day e' = day e /\ tick e' = tick e
  /\ paused e' = true
  /\ log e' = log e ++ [EvPause; EvLoading (toUpperCase sym)].
Proof.
  destruct (pause_keeps e) as (Hc & Hi & Hr & Hd & Ht & Hl).
  cbv zeta. unfold loadSymbol_begin.
  cbn [emit candles replayIndex replayCandles day tick log symbol paused].
  rewrite Hl, <- app_assoc.
  assert (Hp : paused (pause e) = true)
    by (unfold pause; destruct (intervalId (set_paused true e)); reflexivity).
  auto 10.
Qed.

Lemma fail_keeps message e :
  let e' := fail message e in
  candles e' = candles e
  /\ replayIndex e' = replayIndex e
  /\ replayCandles e' = replayCandles e
  /\ day e' = day e /\ tick e' = tick e
  /\ paused e' = paused e
  /\ timers e' = timers e
  /\ error e' = Some message /\ loading e' = false
  /\ log e' = log e ++ [EvError message].
Proof. cbn. auto 12. Qed.

(** A response without candles ends in the [catch] block. *)
Lemma loadSymbol_end_fails r e :
  has_candles r = false ->
  exists message, loadSymbol_end r e = (None, fail message e).
Proof.
  destruct r as [m | err st | data]; cbn [loadSymbol_end has_candles].
  - eauto.
  - eauto.
  - destruct (d_candles data) as [[|c cs]|]; [eauto | discriminate | eauto].
Qed.

Lemma step_quiet e o :
  candles e = [] -> loads_candles o = false ->
  candles (step e o) = [] /\ no_tick_between e (step e o).
Proof.
  intros H Ho. destruct o as [ | | | s | id | sym rng | r]; cbn [step].
  - rewrite play_empty by exact H. split; [exact H | apply no_tick_refl].
  - destruct (pause_quiet e) as [Hc Hq]. rewrite Hc. auto.
  - apply reset_quiet, H.
  - apply setSpeed_quiet, H.
  - apply fire_quiet, H.
  - destruct (loadSymbol_begin_keeps sym rng e) as (Hc & _ & _ & _ & _ & _ & Hl).
    split; [rewrite Hc; exact H|]. eexists. split; [exact Hl | repeat constructor].
  - cbn [loads_candles] in Ho.
    destruct (loadSymbol_end_fails r e Ho) as [message ->]. cbn [snd].
    split; [exact H|]. quiet.
Qed.

Lemma run_quiet ops e :
  Forall (fun o => loads_candles o = false) ops -> candles e = [] ->
  candles (run ops e) = [] /\ no_tick_between e (run ops e).
Proof.
  intros Hops. revert e. induction Hops as [|o ops Ho _ IH]; intros e H.
  - split; [exact H | apply no_tick_refl].
  - cbn [run fold_left]. destruct (step_quiet e o H Ho) as [Hc Hq].
    destruct (IH _ Hc) as [Hc' Hq']. split; [exact Hc'|].
    eapply no_tick_trans; eassumption.
Qed.

(** C8.  A load that completes with an empty historical series (no
    [candles] field, or an empty array) rejects, leaves the driver paused
    with [error] set and [loading] cleared, and emits [pause], [loading]
    and [error] and nothing else, so no [tick].  The series loaded before,
    the replay position, the revealed candles and the clock are as they
    were; this holds of the continuation after the awaited [fetch] in
    whatever state the answer finds the driver.  On an empty series
    [play()] returns at once, scheduling and emitting nothing, and whatever
    is done next short of a load that brings candles, no [tick] is ever
    emitted. *)
Theorem C8_empty_series_load :
  forall (sym rng : string) (data : Data) (e : t),
    d_candles data = None \/ d_candles data = Some [] ->
    let r := loadSymbol sym rng (Ok data) e in
    let e' := r.2 in
    (r.1 = None
     /\ error e' = Some "No historical data available"
     /\ loading e' = false /\ paused e' = true)
    /\ log e' = log e ++ [EvPause; EvLoading (toUpperCase sym);
                          EvError "No historical data available"]
    /\ (candles e' = candles e
        /\ replayIndex e' = replayIndex e
        /\ replayCandles e' = replayCandles e
        /\ day e' = day e /\ tick e' = tick e)
    /\ (candles e = [] ->
        play e' = e'
        /\ forall ops : list Op,
             Forall (fun o => loads_candles o = false) ops ->
             candles (run ops e') = []
             /\ Timers.pending (timers (play (run ops e')))
                = Timers.pending (timers (run ops e'))
             /\ no_tick_between e (run ops e'))
    /\ (forall e1 : t,
          let r1 := loadSymbol_end (Ok data) e1 in
          r1.1 = None
          /\ log r1.2 = log e1 ++ [EvError "No historical data available"]
          /\ candles r1.2 = candles e1
          /\ replayIndex r1.2 = replayIndex e1
          /\ replayCandles r1.2 = replayCandles e1
          /\ day r1.2 = day e1 /\ tick r1.2 = tick e1
          /\ paused r1.2 = paused e1 /\ timers r1.2 = timers e1).
Proof.
  intros sym rng data e Hdata r e'.
  assert (Hany : forall e1 : t,
             loadSymbol_end (Ok data) e1
             = (None, fail "No historical data available" e1)).
  { intros e1. cbn [loadSymbol_end]. destruct Hdata as [-> | ->]; reflexivity. }
  destruct (loadSymbol_begin_keeps sym rng e)
    as (Hc & Hi & Hr & Hd & Ht & Hp & Hl).
  assert (Hend : r = (None, fail "No historical data available"
                                 (loadSymbol_begin sym rng e))).
  { unfold r, loadSymbol. cbn [loadSymbol_end].
    destruct Hdata as [-> | ->]; reflexivity. }
  unfold e'. rewrite Hend. cbn [fst snd].
  destruct (fail_keeps "No historical data available"
                       (loadSymbol_begin sym rng e))
    as (Fc & Fi & Fr & Fd & Ft & Fp & _ & Fe & Fl & Flog).
  assert (Hlog : log (fail "No historical data available"
                           (loadSymbol_begin sym rng e))
                 = log e ++ [EvPause; EvLoading (toUpperCase sym);
                             EvError "No historical data available"]).
  { rewrite Flog, Hl, <- app_assoc. reflexivity. }
  split; [|split; [|split; [|split]]].
  - rewrite Fp, Hp. auto.
  - exact Hlog.
  - rewrite Fc, Fi, Fr, Fd, Ft. auto.
  - intros Hempty.
    assert (Hc' : candles (fail "No historical data available"
                                (loadSymbol_begin sym rng e)) = [])
      by (rewrite Fc, Hc; exact Hempty).
    split; [apply play_empty, Hc'|].
    intros ops Hops. destruct (run_quiet ops _ Hops Hc') as [Hcr Hq].
    split; [exact Hcr|]. split; [rewrite play_empty by exact Hcr; reflexivity|].
    eapply no_tick_trans; [|exact Hq].
    eexists. split; [exact Hlog | repeat constructor].
  - intros e1. cbv zeta. rewrite Hany. cbn. auto 10.
Qed.

(** The theorem at work: a fresh driver asked for "msft" gets an answer
    with an empty [candles] array; pressing play and letting any timeout
    fire afterwards reveals nothing. *)
Lemma C8_empty_series_load_witness :
  let data := mkData (mkInfo "MSFT" "USD" "NMS" "EQUITY" 0 0) (Some []) in
  let e' := (loadSymbol "msft" "1y" (Ok data) new).2 in
  error e' = Some "No historical data available"
  /\ log e' = [EvPause; EvLoading "MSFT";
               EvError "No historical data available"]
  /\ candles (run [OpPlay; OpFire 1; OpSetSpeed 5; OpPlay] e') = []
  /\ no_tick_between new (run [OpPlay; OpFire 1; OpSetSpeed 5; OpPlay] e').
Proof.
  intros data e'.
  destruct (C8_empty_series_load "msft" "1y" data new (or_intror eq_refl))
    as ((_ & He & _) & Hl & _ & Hrun & _).
  split; [exact He|]. split; [exact Hl|].
  destruct (Hrun eq_refl) as [_ Hops].
  destruct (Hops [OpPlay; OpFire 1; OpSetSpeed 5; OpPlay]) as (Hc & _ & Hq).
  - repeat constructor.
  - split; [exact Hc | exact Hq].
Defined.

End ReplayFacts.

(** ** Sorting by score *)

Section SortFacts.

Context {A : Type} (score : A -> Q).

Lemma insert_by_score_perm x l : insert_by_score score x l ≡ₚ x :: l.
Proof.
  induction l as [|y l IH]; cbn [insert_by_score]; [reflexivity|].
  destruct (Qltb (score x) (score y)); [|reflexivity].
  rewrite IH. apply perm_swap.
Qed.

Lemma sort_by_score_perm l : sort_by_score score l ≡ₚ l.
Proof.
  induction l as [|x l IH]; cbn [sort_by_score foldr]; [reflexivity|].
  fold (sort_by_score score l). rewrite insert_by_score_perm, IH. reflexivity.
Qed.

Lemma insert_by_score_sorted x l :
  StronglySorted (ranked_before score) l -> StronglySorted (ranked_before score) (insert_by_score score x l).
Proof.
  induction 1 as [|y l Hs IH Hy]; cbn [insert_by_score].
  - repeat constructor.
  - destruct (Qltb (score x) (score y)) eqn:E.
    + apply Qltb_lt in E. constructor; [exact IH|].
      rewrite insert_by_score_perm. constructor; [|exact Hy].
      unfold ranked_before. apply Qlt_le_weak, E.
    + apply Qltb_ge in E. constructor; [constructor; assumption|].
      constructor; [exact E|].
      eapply Forall_impl; [exact Hy|]. intros z Hz. unfold ranked_before in *.
      eapply Qle_trans; eassumption.
Qed.

Lemma sort_by_score_sorted l : StronglySorted (ranked_before score) (sort_by_score score l).
Proof.
  induction l as [|x l IH]; cbn [sort_by_score foldr]; [constructor|].
  apply insert_by_score_sorted, IH.
Qed.

(** The first element of the sorted array has the highest score. *)
Lemma sort_by_score_top l best rest :
  sort_by_score score l = best :: rest ->
  forall m, m ∈ l -> score m <= score best.
Proof.
  intros Hsort m Hm.
  pose proof (sort_by_score_sorted l) as Hs. rewrite Hsort in Hs.
  rewrite <- (sort_by_score_perm l), Hsort in Hm.
  apply StronglySorted_inv in Hs as [_ Hall].
  apply elem_of_cons in Hm as [-> | Hm]; [apply Qle_refl|].
  rewrite Forall_forall in Hall. apply Hall, Hm.
Qed.

Lemma sort_by_score_nil l : sort_by_score score l = [] -> l = [].
Proof.
  intros H. apply Permutation_nil. rewrite <- H.
  apply sort_by_score_perm.
Qed.

End SortFacts.

(** ** ai-engine.js and the replay evaluation of app.js *)

Section SelectionFacts.

Lemma sort_by_score_head {A} (score : A -> Q) l best rest :
  sort_by_score score l = best :: rest ->
  forall m, m ∈ best :: rest -> score m <= score best.
Proof.
  intros Hsort m Hm. apply (sort_by_score_top score l best rest Hsort).
  rewrite <- (sort_by_score_perm score l), Hsort. exact Hm.
Qed.

(** What one evaluation of the synthetic engine does: it holds, with the
    ledger untouched and no [trade] signal, and then no candidate scores
    above the threshold; or it picks the first candidate of the sorted
    list, which scores above the threshold and at least as high as every
    other candidate. *)
Lemma evaluate_selection gen tick mk now (e : AIEngine.t) a e' :
  AIEngine.evaluate gen tick mk now e = (Some a, e') ->
  AIEngine.a_candidates a
  = sort_by_score AIEngine.score (AIEngine.scored gen mk (AIEngine.portfolio e))
  /\ ((AIEngine.a_chosen a = AIEngine.hold_move
       /\ AIEngine.portfolio e' = AIEngine.portfolio e
       /\ AIEngine.log e' = AIEngine.log e ++ [AIEngine.EvAnalysis a]
       /\ forall m, m ∈ AIEngine.a_candidates a ->
                    AIEngine.score m <= AIEngine.threshold)
      \/ (exists rest,
             AIEngine.a_candidates a = AIEngine.a_chosen a :: rest
             /\ AIEngine.threshold < AIEngine.score (AIEngine.a_chosen a)
             /\ forall m, m ∈ AIEngine.a_candidates a ->
                  AIEngine.score m <= AIEngine.score (AIEngine.a_chosen a))).
Proof.
  unfold AIEngine.evaluate.
  destruct (tick - AIEngine.lastEvalTick e <? AIEngine.tradeFrequency e)%Z;
    [discriminate|].
  cbn [AIEngine.portfolio].
  destruct (sort_by_score AIEngine.score
              (AIEngine.scored gen mk (AIEngine.portfolio e)))
    as [|best rest] eqn:Es.
  - intros [= <- <-]. cbn. split; [reflexivity|]. left.
    repeat split. intros m Hm. apply elem_of_nil in Hm. destruct Hm.
  - pose proof (sort_by_score_head _ _ _ _ Es) as Htop.
    destruct (Qltb AIEngine.threshold (AIEngine.score best)) eqn:Et.
    + apply Qltb_lt in Et. intros [= <- <-]. cbn.
      split; [reflexivity|]. right. exists rest. auto.
    + apply Qltb_ge in Et. intros [= <- <-]. cbn.
      split; [reflexivity|]. left. repeat split.
      intros m Hm. eapply Qle_trans; [apply Htop, Hm | exact Et].
Qed.

(** The same for the selection of the replay mode. *)
Lemma select_selection generated data now (app : RealAI.t) o app' :
  RealAI.select generated data now app = (o, app') ->
  (o = RealAI.idle /\ app' = app
   /\ forall c, c ∈ generated -> RealAI.score c <= RealAI.threshold)
  \/ (exists best rest,
         sort_by_score RealAI.score generated = best :: rest
         /\ RealAI.threshold < RealAI.score best
         /\ RealAI.o_action o = Some (RealAI.action best)
         /\ RealAI.o_qty o = RealAI.qty best
         /\ RealAI.o_score o = RealAI.score best
         /\ forall c, c ∈ generated -> RealAI.score c <= RealAI.score best).
Proof.
  unfold RealAI.select.
  destruct (sort_by_score RealAI.score generated) as [|best rest] eqn:Es.
  - intros [= <- <-]. left. repeat split.
    apply sort_by_score_nil in Es. subst generated.
    intros c Hc. apply elem_of_nil in Hc. destruct Hc.
  - pose proof (sort_by_score_top _ _ _ _ Es) as Htop.
    destruct (Qltb RealAI.threshold (RealAI.score best)) eqn:Et.
    + apply Qltb_lt in Et.
      destruct (RealAI.action best) eqn:Ea;
        match goal with |- context [Portfolio.buy ?a ?b ?c ?d ?e ?f ?g] =>
          destruct (Portfolio.buy a b c d e f g) as [res p']
        | |- context [Portfolio.sell ?a ?b ?c ?d ?e ?f ?g] =>
          destruct (Portfolio.sell a b c d e f g) as [res p']
        end;
        intros [= <- <-]; right; exists best, rest; cbn; rewrite ?Ea; auto 10.
    + apply Qltb_ge in Et. intros [= <- <-]. left. repeat split.
      intros c Hc. eapply Qle_trans; [apply Htop, Hc | exact Et].
Qed.

(** C4.  In both evaluations exactly one of two things happens.  Either
    the engine holds: the chosen move is the HOLD move (in the replay
    evaluation no action is taken), the ledger is untouched, no trade is
    signalled or marked, and no candidate scores above the conviction
    threshold.  Or the first candidate of the list sorted by score is
    chosen and handed to the ledger: its score is strictly above the
    threshold (0.1 in [AIEngine.evaluate], 0.5 in [App._evaluateRealAI])
    and at least as high as that of every other candidate.  So a candidate
    whose score is at most the threshold is never selected, and whenever
    no candidate scores above the threshold the outcome is HOLD. *)
Theorem C4_conviction_threshold :
  AIEngine.threshold == 1 # 10 /\ RealAI.threshold == 5 # 10
  /\ (forall gen tick mk now (e : AIEngine.t) a e',
        AIEngine.evaluate gen tick mk now e = (Some a, e') ->
        let chosen := AIEngine.a_chosen a in
        let candidates := AIEngine.a_candidates a in
        ((chosen = AIEngine.hold_move
          /\ AIEngine.portfolio e' = AIEngine.portfolio e
          /\ AIEngine.log e' = AIEngine.log e ++ [AIEngine.EvAnalysis a]
          /\ forall m, m ∈ candidates ->
                AIEngine.score m <= AIEngine.threshold)
         \/ ((exists rest, candidates = chosen :: rest)
             /\ AIEngine.threshold < AIEngine.score chosen
             /\ forall m, m ∈ candidates ->
                  AIEngine.score m <= AIEngine.score chosen))
        /\ ((forall m, m ∈ candidates ->
                AIEngine.score m <= AIEngine.threshold) ->
            chosen = AIEngine.hold_move
            /\ AIEngine.portfolio e' = AIEngine.portfolio e
            /\ AIEngine.log e' = AIEngine.log e ++ [AIEngine.EvAnalysis a]))
  /\ (forall numCandles generated data now (app : RealAI.t) r app',
        RealAI._evaluateRealAI numCandles generated data now app = (r, app') ->
        (r = None /\ app' = app)
        \/ (r = Some RealAI.idle
            /\ RealAI.realAiPortfolio app' = RealAI.realAiPortfolio app
            /\ RealAI.realTradeMarkers app' = RealAI.realTradeMarkers app
            /\ forall c, c ∈ generated ->
                 RealAI.score c <= RealAI.threshold)
        \/ (exists o best rest,
               r = Some o
               /\ sort_by_score RealAI.score generated = best :: rest
               /\ RealAI.o_action o = Some (RealAI.action best)
               /\ RealAI.o_qty o = RealAI.qty best
               /\ RealAI.threshold < RealAI.score best
               /\ forall c, c ∈ generated ->
                    RealAI.score c <= RealAI.score best)).
Proof.
  split; [reflexivity|]. split; [reflexivity|]. split.
  - intros gen tick mk now e a e' Hev chosen candidates.
    destruct (evaluate_selection _ _ _ _ _ _ _ Hev)
      as [_ [(Hh & Hp & Hl & Hall) | (rest & Hc & Ht & Hmax)]].
    + split; [left; auto | auto].
    + split; [right; eauto|].
      intros Hlow. exfalso.
      apply (Qlt_not_le _ _ Ht), Hlow.
      fold candidates in Hc. rewrite Hc. apply elem_of_cons. left. reflexivity.
  - intros numCandles generated data now app r app'.
    unfold RealAI._evaluateRealAI.
    destruct (numCandles <? 5)%nat; [intros [= <- <-]; left; auto|].
    destruct (RealAI.d_day data - RealAI._realAiLastEval app <? 2)%Z;
      [intros [= <- <-]; left; auto|].
    destruct (RealAI.select _ _ _ _) as [o app2] eqn:Es.
    intros [= <- <-]. right.
    destruct (select_selection _ _ _ _ _ _ Es)
      as [(-> & -> & Hall) | (best & rest & Hs & Ht & Ha & Hq & _ & Hmax)].
    + left. cbn. auto.
    + right. exists o, best, rest. auto 7.
Qed.

(** The theorem at work.  A single momentum candidate with edge 0.01
    scores 0.06: the synthetic engine holds and the ledger is untouched.
    A replay candidate with score 0.56 is the one acted on. *)
Lemma C4_conviction_threshold_witness :
  let gen := fun (_ : Portfolio.t) (sym : string) (_ : gmap string Q) =>
               [AIEngine.mkMove AIEngine.BUY sym 10 100 "momentum" "uptrend"
                                (1 # 100) 0 (Some [])] in
  let mk := AIEngine.mkMarket ["NOVA"] {[ "NOVA" := 100 ]} 0 8 in
  let e := AIEngine.new (Portfolio.new "AI Engine" 10000) in
  let c := RealAI.mkCandidate RealAI.BUY 3 "Momentum" "Uptrend" (56 # 100) in
  let data := RealAI.mkTick 7 8 100 "2024-01-10" "AAPL" in
  let app := RealAI.mkApp (Portfolio.new "AI Engine" 10000) [] (-1) in
  (exists a e',
      AIEngine.evaluate gen 8 mk 0 e = (Some a, e')
      /\ AIEngine.a_chosen a = AIEngine.hold_move
      /\ AIEngine.portfolio e' = AIEngine.portfolio e)
  /\ (exists o app',
        RealAI._evaluateRealAI 8 [c] data 0 app = (Some o, app')
        /\ RealAI.o_action o = Some RealAI.BUY
        /\ RealAI.threshold < RealAI.o_score o).
Proof.
  intros gen mk e c data app.
  destruct C4_conviction_threshold as (_ & _ & Hsyn & Hreal).
  split.
  - eexists; eexists. split; [reflexivity|].
    destruct (Hsyn gen 8%Z mk 0%Z e _ _ eq_refl) as [_ Hhold].
    destruct Hhold as (H1 & H2 & _); [|split; assumption].
    intros m Hm. cbn in Hm.
    apply list_elem_of_singleton in Hm. subst m. vm_compute. discriminate.
  - eexists; eexists. split; [reflexivity|].
    destruct (Hreal 8%nat [c] data 0%Z app _ _ eq_refl)
      as [[Hn _] | [[Hi _] | (o & best & rest & Ho & Hs & Ha & _ & Ht & _)]].
    + discriminate Hn.
    + discriminate Hi.
    + injection Hs as <- <-. split; [reflexivity|]. exact Ht.
Defined.

End SelectionFacts.

(** * Further properties of the ledger (portfolio.js) *)

Section LedgerMore.

Import Portfolio Ledger.

Implicit Types (p : t) (m : gmap string Holding) (h : Holding).

Lemma buy_keeps_header sym q price day tick now p :
  name (buy sym q price day tick now p).2 = name p
  /\ startingCash (buy sym q price day tick now p).2 = startingCash p
  /\ peakValue (buy sym q price day tick now p).2 = peakValue p
  /\ maxDrawdown (buy sym q price day tick now p).2 = maxDrawdown p.
Proof.
  unfold buy, buy_fill.
  repeat match goal with |- context [if ?b then _ else _] => destruct b end;
    cbn; auto.
Qed.

Lemma sell_keeps_header sym q price day tick now p :
  name (sell sym q price day tick now p).2 = name p
  /\ startingCash (sell sym q price day tick now p).2 = startingCash p
  /\ peakValue (sell sym q price day tick now p).2 = peakValue p
  /\ maxDrawdown (sell sym q price day tick now p).2 = maxDrawdown p.
Proof.
  unfold sell. destruct (holdings p !! sym); [|cbn; auto].
  repeat match goal with |- context [if ?b then _ else _] => destruct b end;
    cbn; auto.
Qed.

Lemma step_keeps_header p o :
  name (step p o) = name p
  /\ startingCash (step p o) = startingCash p
  /\ peakValue (step p o) = peakValue p
  /\ maxDrawdown (step p o) = maxDrawdown p.
Proof.
  destruct o; [apply buy_keeps_header | apply sell_keeps_header].
Qed.

Lemma run_keeps_startingCash ops p :
  startingCash (run ops p) = startingCash p.
Proof.
  unfold run. revert p.
  induction ops as [|o ops IH]; intros p; cbn [fold_left]; [reflexivity|].
  rewrite (IH (step p o)). apply step_keeps_header.
Qed.

Lemma buy_holdings_positive sym q price day tick now p :
  0 < q -> 0 < price -> holdings_positive p ->
  holdings_positive (buy sym q price day tick now p).2.
Proof.
  intros Hq Hp Hh.
  destruct (buy_cases sym q price day tick now p Hq Hp)
    as [-> | (q' & Hq' & _ & ->)]; [exact Hh|].
  unfold holdings_positive. cbn [buy_fill snd holdings].
  apply map_Forall_insert_2; [|exact Hh]. cbn [qty].
  destruct (holdings p !! sym) as [h|] eqn:E; cbn [default from_option id qty].
  - pose proof (Hh sym h E) as H0. cbn in H0. lra.
  - lra.
Qed.

Lemma sell_holdings_positive sym q price day tick now p :
  holdings_positive p -> holdings_positive (sell sym q price day tick now p).2.
Proof.
  intros Hh. unfold sell.
  destruct (holdings p !! sym) as [h|] eqn:Eh; [|exact Hh].
  destruct (Qleb (qty h) 0); [exact Hh|].
  destruct (Qleb (Math_min q (qty h)) 0); [exact Hh|].
  unfold holdings_positive. cbn [snd holdings].
  destruct (Qleb (qty h - Math_min q (qty h)) 0) eqn:E3.
  - apply map_Forall_delete, Hh.
  - apply Qleb_gt in E3. apply map_Forall_insert_2; [exact E3 | exact Hh].
Qed.

Lemma run_holdings_positive ops p :
  Forall positive_order ops -> holdings_positive p ->
  holdings_positive (run ops p).
Proof.
  intros Hops. unfold run. revert p.
  induction Hops as [|o ops [Hq Hp] _ IH]; intros p Hh; [exact Hh|].
  cbn [fold_left]. apply IH. unfold step.
  destruct o; cbn [call op_qty op_price] in *.
  - apply buy_holdings_positive; assumption.
  - apply sell_holdings_positive; assumption.
Qed.

(** X1.  No holding with a quantity that is not positive is ever kept.
    From a ledger whose holdings all have a positive quantity, any
    sequence of [buy] and [sell] calls for a positive quantity at a
    positive price, on symbols under which [holdings] inherits nothing,
    leads to a ledger of the same kind: [buy] adds a positive quantity, by
    its clamp too, and [sell] deletes the holding it has emptied.  The
    starting cash is never touched. *)
Theorem positive_orders_keep_holdings_positive :
  forall (ops : list Op) p,
    Forall positive_order ops -> Forall plain_order ops ->
    holdings_positive p ->
    let p' := run ops p in
    (forall sym h, holdings p' !! sym = Some h -> 0 < qty h)
    /\ startingCash p' = startingCash p.
Proof.
  intros ops p Hops _ Hh p'.
  split; [exact (run_holdings_positive ops p Hops Hh)|].
  apply run_keeps_startingCash.
Qed.

(** The theorem at work: with 1000 in cash, an order for 30 shares at 40
    is clamped to 25 shares, and selling 40 sells the 25 held. *)
Lemma positive_orders_keep_holdings_positive_witness :
  let p' := run [Buy "NOVA" 30 40 0 0 0; Sell "NOVA" 40 50 0 1 0]
                (new "You" 1000) in
  (forall sym h, holdings p' !! sym = Some h -> 0 < qty h)
  /\ holdings p' = ∅.
Proof.
  intros p'.
  destruct (positive_orders_keep_holdings_positive
              [Buy "NOVA" 30 40 0 0 0; Sell "NOVA" 40 50 0 1 0]
              (new "You" 1000)) as (Hh & _).
  - repeat constructor.
  - repeat constructor.
  - apply map_Forall_empty.
  - split; [exact Hh | vm_compute; reflexivity].
Defined.

Lemma settled_snoc c l tr : settled c (l ++ [tr]) = settle (settled c l) tr.
Proof. unfold settled. rewrite fold_left_app. reflexivity. Qed.

(** An order leaves cash settled by the records, and writes a record of
    the expected form. *)
Lemma step_settled c0 p o :
  cash p = settled c0 (trades p) -> Forall record_ok (trades p) ->
  cash (step p o) = settled c0 (trades (step p o))
  /\ Forall record_ok (trades (step p o)).
Proof.
  intros Hc Hr. unfold step. destruct o as [s q pr d k n | s q pr d k n];
    cbn [call].
  - unfold buy, buy_fill.
    repeat match goal with |- context [if ?b then _ else _] => destruct b end;
      cbn [snd cash trades]; try (split; assumption);
      (split; [rewrite settled_snoc, <- Hc; reflexivity|]);
      (apply Forall_app; split; [exact Hr|]);
      repeat constructor.
  - unfold sell. destruct (holdings p !! s) as [h|]; [|split; assumption].
    repeat match goal with |- context [if ?b then _ else _] => destruct b end;
      cbn [snd cash trades]; try (split; assumption);
      (split; [rewrite settled_snoc, <- Hc; reflexivity|]);
      (apply Forall_app; split; [exact Hr|]);
      repeat constructor; cbn; eauto.
Qed.

(** X2.  The records explain the cash.  After any sequence of [buy] and
    [sell] calls on a new ledger, on symbols under which [holdings]
    inherits nothing, the cash is the starting cash with the total of
    every record taken (BUY) or added (SELL) in the order of the list:
    the very subtractions and additions the calls made.  Every record has
    quantity times price as its total, and a P&L exactly when it is a
    SELL. *)
Theorem cash_is_settled_by_the_records :
  forall (who : string) (c : Q) (ops : list Op),
    Forall plain_order ops ->
    let p := run ops (new who c) in
    cash p = settled c (trades p)
    /\ Forall record_ok (trades p).
Proof.
  intros who c ops _ p. unfold p, run.
  assert (H0 : cash (new who c) = settled c (trades (new who c))
               /\ Forall record_ok (trades (new who c)))
    by (split; [reflexivity | constructor]).
  revert H0. generalize (new who c).
  induction ops as [|o ops IH]; intros p0 H0; [exact H0|].
  cbn [fold_left]. apply IH. destruct H0. apply step_settled; assumption.
Qed.

(** The theorem at work: buy 10 at 100, buy 10 at 120, sell 5 at 130. *)
Lemma cash_is_settled_by_the_records_witness :
  let p := run [Buy "NOVA" 10 100 0 0 0; Buy "NOVA" 10 120 0 1 0;
                Sell "NOVA" 5 130 0 2 0] (new "You" 10000) in
  cash p = settled 10000 (trades p) /\ cash p == 8450.
Proof.
  intros p.
  destruct (cash_is_settled_by_the_records "You" 10000
              [Buy "NOVA" 10 100 0 0 0; Buy "NOVA" 10 120 0 1 0;
               Sell "NOVA" 5 130 0 2 0]) as [H _].
  - repeat constructor.
  - split; [exact H | reflexivity].
Defined.

Lemma numbered_snoc p p' tr :
  trades p' = trades p ++ [tr] -> t_id tr = (tradeId p + 1)%Z ->
  tradeId p' = (tradeId p + 1)%Z -> numbered p -> numbered p'.
Proof.
  intros Ht Hid Hn [Hlen Hids]. split.
  - rewrite Hn, Ht, Hlen, length_app. cbn [length]. lia.
  - intros i tr'. rewrite Ht. intros H.
    apply lookup_snoc_Some in H as [[_ H] | [-> <-]].
    + apply Hids, H.
    + rewrite Hid, Hlen. reflexivity.
Qed.

Lemma step_numbered p o :
  numbered p -> numbered (step p o) /\ trades p `prefix_of` trades (step p o).
Proof.
  intros Hn. unfold step. destruct o as [s q pr d k n | s q pr d k n];
    cbn [call].
  - unfold buy.
    destruct (Qltb (cash p) (q * pr));
      [destruct (Qleb (Math_floor (cash p / pr)) 0)|];
      try (split; [exact Hn | reflexivity]);
      (split; [eapply numbered_snoc; [reflexivity | reflexivity | reflexivity
                                      | exact Hn]
              | eexists; reflexivity]).
  - unfold sell. destruct (holdings p !! s) as [h|];
      [|split; [exact Hn | reflexivity]].
    destruct (Qleb (qty h) 0); [split; [exact Hn | reflexivity]|].
    destruct (Qleb (Math_min q (qty h)) 0); [split; [exact Hn | reflexivity]|].
    split; [eapply numbered_snoc; [reflexivity | reflexivity | reflexivity
                                   | exact Hn]
           | eexists; reflexivity].
Qed.

Lemma act_numbered p a : numbered p -> numbered (act p a).
Proof.
  intros Hn. destruct a as [o | prices | c0]; cbn [act].
  - apply step_numbered, Hn.
  - exact Hn.
  - split; [reflexivity|]. intros i tr H. cbn in H.
    rewrite lookup_nil in H. discriminate.
Qed.

Lemma new_numbered who c : numbered (new who c).
Proof.
  split; [reflexivity|]. intros i tr H. cbn in H.
  rewrite lookup_nil in H. discriminate.
Qed.

Lemma play_numbered actions p : numbered p -> numbered (play actions p).
Proof.
  unfold play. revert p.
  induction actions as [|a actions IH]; intros p H; [exact H|].
  cbn [fold_left]. apply IH, act_numbered, H.
Qed.

(** X3.  Trade records are numbered 1, 2, 3, ... in the order in which
    they were made, [tradeId] is always the number of records, and orders
    only ever append to the list: whatever is bought, sold, measured or
    reset, with whatever arguments. *)
Theorem trade_ids_are_sequential :
  forall (who : string) (c : Q) (actions : list Action) (ops : list Op),
    let p := play actions (new who c) in
    (tradeId p = Z.of_nat (length (trades p))
     /\ forall (i : nat) tr,
          trades p !! i = Some tr -> t_id tr = (Z.of_nat i + 1)%Z)
    /\ trades p `prefix_of` trades (run ops p)
    /\ numbered (run ops p).
Proof.
  intros who c actions ops p.
  assert (Hp : numbered p) by apply play_numbered, new_numbered.
  split; [exact Hp|].
  clearbody p. clear actions. unfold run. revert p Hp.
  induction ops as [|o ops IH]; intros p Hp.
  - split; [reflexivity | exact Hp].
  - cbn [fold_left]. destruct (step_numbered p o Hp) as [Hn Hpre].
    destruct (IH _ Hn) as [Hpre' Hn']. split; [|exact Hn'].
    etransitivity; eassumption.
Qed.

End LedgerMore.

Section LedgerMore2.

Import Portfolio Ledger.

Implicit Types (p : t) (m : gmap string Holding) (h : Holding).

(** X4.  Buying a symbol that is not held and selling the same quantity
    straight away takes the holding out again: for a symbol under which
    [holdings] inherits nothing, a positive quantity and a cost within
    cash, the [buy] is filled as ordered, the [sell] is filled for the
    whole quantity, the two records are appended in this order, and the
    holdings are exactly as they were before the two calls. *)
Theorem buy_then_sell_round_trip :
  forall (sym : string) (q price price' : Q)
         (day tick now day' tick' now' : Z) p,
    plain_key sym ->
    holdings p !! sym = None ->
    0 < q -> 0 < price -> q * price <= cash p ->
    let p1 := (buy sym q price day tick now p).2 in
    let r := sell sym q price' day' tick' now' p1 in
    holdings r.2 = holdings p
    /\ exists tb ts,
         trades r.2 = trades p ++ [tb; ts] /\ r.1 = Some ts
         /\ t_side tb = BUY /\ t_qty tb = q
         /\ t_side ts = SELL /\ t_qty ts == q.
Proof.
  intros sym q price price' day tick now day' tick' now' p _ Hnone Hq Hp Hcost
         p1 r.
  assert (E1 : p1 = (buy_fill sym q price day tick now p).2).
  { unfold p1, buy. apply Qltb_ge in Hcost. rewrite Hcost. reflexivity. }
  assert (Hm : Math_min q (0 + q) == q) by (apply Q.min_l; lra).
  unfold r, sell. rewrite E1. cbn [buy_fill snd holdings cash].
  rewrite lookup_insert_eq, Hnone. cbn [default from_option id qty avgCost].
  rewrite (proj2 (Qleb_gt (0 + q) 0)) by lra.
  rewrite (proj2 (Qleb_gt (Math_min q (0 + q)) 0)) by lra.
  rewrite (proj2 (Qleb_le (0 + q - Math_min q (0 + q)) 0)) by lra.
  cbn [fst snd holdings cash trades].
  split; [apply delete_insert_id, Hnone|].
  eexists; eexists. split; [rewrite <- app_assoc; reflexivity|].
  split; [reflexivity|]. cbn [t_side t_qty].
  split; [reflexivity|]. split; [reflexivity|]. split; [reflexivity|].
  exact Hm.
Qed.

Lemma buy_then_sell_round_trip_witness :
  let p := new "You" 10000 in
  let r := sell "NOVA" 10 190 0 1 0 (buy "NOVA" 10 185 0 0 0 p).2 in
  holdings r.2 = holdings p /\ length (trades r.2) = 2%nat.
Proof.
  intros p r.
  destruct (buy_then_sell_round_trip "NOVA" 10 185 190 0 0 0 0 1 0 p)
    as (Hh & tb & ts & Ht & _);
    [reflexivity | reflexivity | reflexivity | reflexivity | discriminate |].
  split; [exact Hh|]. fold r in Ht. rewrite Ht. reflexivity.
Defined.

End LedgerMore2.

Section LedgerMore3.

Import Portfolio Ledger.

Implicit Types (p : t) (m : gmap string Holding) (h : Holding).

(** X5.  A [buy] within cash of a symbol that is already held, with
    positive quantities, is filled as ordered and only adds to that
    holding: the new quantity is the old one plus the quantity bought, the
    new average cost is the value of
    [(avgCost * qty + qty' * price) / (qty + qty')], which is not negative
    when the old average cost and the price are not; cash goes down by
    quantity times price, one BUY record with that total is appended, and
    no other symbol's holding is touched. *)
Theorem buy_adds_to_a_holding :
  forall (sym : string) (q price : Q) (day tick now : Z) p h,
    holdings p !! sym = Some h ->
    0 < qty h -> 0 < q -> q * price <= cash p ->
    let r := buy sym q price day tick now p in
    (exists h', holdings r.2 !! sym = Some h'
                /\ qty h' = qty h + q
                /\ avgCost h' = (avgCost h * qty h + q * price) / (qty h + q)
                /\ (0 <= avgCost h -> 0 <= price -> 0 <= avgCost h'))
    /\ cash r.2 = cash p - q * price
    /\ (exists tr, r.1 = Some tr /\ trades r.2 = trades p ++ [tr]
                   /\ t_side tr = BUY /\ t_qty tr = q
                   /\ t_total tr = q * price)
    /\ forall other, other <> sym -> holdings r.2 !! other = holdings p !! other.
Proof.
  intros sym q price day tick now p h Hh Hn Hq Hcost r.
  assert (E : r = buy_fill sym q price day tick now p).
  { unfold r, buy. apply Qltb_ge in Hcost. rewrite Hcost. reflexivity. }
  rewrite E. cbn [buy_fill fst snd holdings cash trades]. rewrite Hh.
  cbn [default from_option id].
  split; [|split; [reflexivity|split]].
  - eexists. split; [apply lookup_insert_eq|]. cbn [qty avgCost].
    split; [reflexivity|]. split; [reflexivity|].
    intros Ha Hp. apply Qle_shift_div_l; [lra|]. rewrite Qmult_0_l.
    pose proof (Qmult_le_0_compat _ _ Ha (Qlt_le_weak _ _ Hn)).
    pose proof (Qmult_le_0_compat _ _ (Qlt_le_weak _ _ Hq) Hp). lra.
  - eexists. split; [reflexivity|]. split; [reflexivity|].
    cbn [t_side t_qty t_total]. auto.
  - intros other Hne. apply lookup_insert_ne. congruence.
Qed.

Lemma buy_adds_to_a_holding_witness :
  let p := (buy "NOVA" 10 100 0 0 0 (new "You" 10000)).2 in
  exists h', holdings (buy "NOVA" 30 120 0 1 0 p).2 !! "NOVA" = Some h'
             /\ qty h' == 40 /\ avgCost h' == 115.
Proof.
  intros p.
  destruct (buy_adds_to_a_holding "NOVA" 30 120 0 1 0 p
              (mkHolding (0 + 10) ((0 * 0 + 10 * 100) / (0 + 10))))
    as ((h' & H1 & H2 & H3 & _) & _);
    [vm_compute; reflexivity | reflexivity | reflexivity | discriminate |].
  exists h'. split; [exact H1|]. split; [rewrite H2 | rewrite H3]; reflexivity.
Defined.

(** X6.  [sell] never sells more than is held.  On a symbol held with a
    positive quantity, an order for a positive quantity is filled for the
    smaller of the two quantities, credits that quantity times the price,
    and records as P&L the difference to the average cost; the holding is
    removed when the order covers it and otherwise keeps its average cost.
    No other symbol's holding is touched. *)
Theorem sell_clamps_to_holding :
  forall (sym : string) (q price : Q) (day tick now : Z) p h,
    holdings p !! sym = Some h ->
    0 < qty h -> 0 < q ->
    let r := sell sym q price day tick now p in
    (exists tr, r.1 = Some tr
                /\ t_qty tr = Math_min q (qty h)
                /\ t_qty tr <= q /\ t_qty tr <= qty h
                /\ t_pnl tr = Some (t_qty tr * price - t_qty tr * avgCost h)
                /\ cash r.2 == cash p + t_qty tr * price)
    /\ (qty h <= q -> holdings r.2 = delete sym (holdings p))
    /\ (q < qty h ->
        exists h', holdings r.2 !! sym = Some h'
                   /\ qty h' == qty h - q /\ avgCost h' = avgCost h)
    /\ forall other, other <> sym -> holdings r.2 !! other = holdings p !! other.
Proof.
  intros sym q price day tick now p h Hh Hn Hq r.
  pose proof (Q.le_min_l q (qty h)) as Hl1.
  pose proof (Q.le_min_r q (qty h)) as Hl2.
  assert (Hmpos : 0 < Math_min q (qty h)).
  { unfold Math_min. destruct (Q.min_spec q (qty h)) as [[_ ->] | [_ ->]]; assumption. }
  unfold r, sell. rewrite Hh.
  rewrite (proj2 (Qleb_gt (qty h) 0)) by exact Hn.
  rewrite (proj2 (Qleb_gt (Math_min q (qty h)) 0)) by exact Hmpos.
  cbn [fst snd cash holdings].
  split; [|split; [|split]].
  - eexists. split; [reflexivity|]. cbn [t_qty t_pnl].
    split; [reflexivity|]. split; [exact Hl1|]. split; [exact Hl2|].
    split; reflexivity.
  - intros Hle.
    assert (Hm : Math_min q (qty h) == qty h) by (apply Q.min_r, Hle).
    rewrite (proj2 (Qleb_le (qty h - Math_min q (qty h)) 0)) by lra.
    reflexivity.
  - intros Hlt.
    assert (Hm : Math_min q (qty h) == q) by (apply Q.min_l; lra).
    rewrite (proj2 (Qleb_gt (qty h - Math_min q (qty h)) 0)) by lra.
    eexists. split; [apply lookup_insert_eq|]. cbn [qty avgCost].
    split; [rewrite Hm; reflexivity | reflexivity].
  - intros other Hne.
    destruct (Qleb (qty h - Math_min q (qty h)) 0).
    + apply lookup_delete_ne. congruence.
    + apply lookup_insert_ne. congruence.
Qed.

Lemma sell_clamps_to_holding_witness :
  let p := (buy "NOVA" 10 100 0 0 0 (new "You" 10000)).2 in
  let r := sell "NOVA" 25 130 0 1 0 p in
  (exists tr, r.1 = Some tr /\ t_qty tr <= 0 + 10)
  /\ holdings r.2 = delete "NOVA" (holdings p).
Proof.
  intros p r.
  destruct (sell_clamps_to_holding "NOVA" 25 130 0 1 0 p
              (mkHolding (0 + 10) ((0 * 0 + 10 * 100) / (0 + 10))))
    as ((tr & H1 & _ & _ & H4 & _) & Hall & _);
    [vm_compute; reflexivity | reflexivity | reflexivity |].
  split; [exists tr; split; [exact H1 | exact H4]|].
  apply Hall. discriminate.
Defined.

End LedgerMore3.

Section LedgerMore4.

Import Portfolio Ledger.

Implicit Types (p : t) (m : gmap string Holding) (h : Holding).

Lemma play_orders ops p : play (map Order ops) p = run ops p.
Proof.
  unfold play, run. revert p.
  induction ops as [|o ops IH]; intros p; [reflexivity|].
  cbn [map fold_left act]. apply IH.
Qed.

Lemma priceOf_nonneg prices sym : nonneg_prices prices -> 0 <= priceOf prices sym.
Proof.
  intros Hp. unfold priceOf. destruct (prices !! sym) as [x|] eqn:E; cbn.
  - exact (Hp sym x E).
  - apply Qle_refl.
Qed.

(** With prices that are not negative, a ledger whose holdings have
    positive quantities is worth at least its cash: [totalValue] starts
    from cash and only adds products that are not negative. *)
Lemma totalValue_at_least_cash prices p :
  nonneg_prices prices -> holdings_positive p -> cash p <= totalValue prices p.
Proof.
  intros Hp Hh. unfold totalValue. revert Hh. unfold holdings_positive.
  apply (map_fold_weak_ind
           (fun r m => map_Forall (fun _ h => 0 < qty h) m -> cash p <= r)).
  - intros _. apply Qle_refl.
  - intros i h m r Hi IH Hall.
    apply map_Forall_insert in Hall as [Hq Hm]; [|exact Hi].
    specialize (IH Hm). pose proof (priceOf_nonneg prices i Hp) as H0.
    pose proof (Qmult_le_0_compat _ _ (Qlt_le_weak _ _ Hq) H0). lra.
Qed.

(** X7.  The snapshot of [stats] hangs together.  For a ledger opened
    with a positive amount [c] that has only seen orders for a positive
    quantity at a positive price, on symbols under which [holdings]
    inherits nothing, and for prices that are not negative: the total
    value is at least the cash, the total P&L is the total value minus
    [c], the return in percent is that P&L over [c] times 100, and the
    trade count is the id of the last record. *)
Theorem stats_are_consistent :
  forall (Math_sqrt : Q -> Q) (who : string) (c : Q) (ops : list Op)
         (prices : gmap string Q),
    0 < c -> Forall positive_order ops -> Forall plain_order ops ->
    nonneg_prices prices ->
    let p := run ops (new who c) in
    let st := stats Math_sqrt prices p in
    s_cash st <= s_totalValue st
    /\ s_totalPnL st = s_totalValue st - c
    /\ s_totalReturnPct st = (s_totalPnL st / c) * 100
    /\ Z.of_nat (s_tradeCount st) = tradeId p.
Proof.
  intros Math_sqrt who c ops prices Hc Hops _ Hprices p st.
  pose proof (run_keeps_startingCash ops (new who c)) as Hsc.
  fold p in Hsc. cbn [new startingCash] in Hsc.
  pose proof (run_holdings_positive ops (new who c) Hops
                (map_Forall_empty _)) as Hh.
  fold p in Hh.
  destruct (play_numbered (map Order ops) _ (new_numbered who c)) as [Hid _].
  rewrite play_orders in Hid. fold p in Hid.
  unfold st. cbn [stats s_cash s_totalValue s_totalPnL s_totalReturnPct
                  s_tradeCount].
  unfold totalPnL, totalReturnPct. rewrite Hsc.
  split; [apply totalValue_at_least_cash; assumption|].
  split; [reflexivity|]. split; [reflexivity|]. symmetry. exact Hid.
Qed.

Lemma stats_are_consistent_witness :
  let p := run [Buy "NOVA" 10 100 0 0 0; Sell "NOVA" 4 110 0 1 0]
               (new "You" 10000) in
  let st := stats (fun x => x) {[ "NOVA" := 120 ]} p in
  s_cash st <= s_totalValue st /\ s_totalPnL st == 160.
Proof.
  intros p st.
  destruct (stats_are_consistent (fun x => x) "You" 10000
              [Buy "NOVA" 10 100 0 0 0; Sell "NOVA" 4 110 0 1 0]
              {[ "NOVA" := 120 ]}) as (H & _).
  - reflexivity.
  - repeat constructor.
  - repeat constructor.
  - intros k x Hk. apply lookup_singleton_Some in Hk as [_ <-]. discriminate.
  - split; [exact H | vm_compute; reflexivity].
Defined.

Lemma filter_length_le {A} (f : A -> bool) (l : list A) :
  (length (List.filter f l) <= length l)%nat.
Proof.
  induction l as [|x l IH]; cbn; [lia|]. destruct (f x); cbn; lia.
Qed.

Lemma percentage_bounds (w n : Q) :
  0 < n -> 0 <= w -> w <= n ->
  0 <= w / n * 100 <= 100 /\ (w / n * 100 == 100 <-> w == n).
Proof.
  intros Hn Hw Hwn.
  assert (H0 : 0 <= w / n)
    by (apply Qle_shift_div_l; [exact Hn | rewrite Qmult_0_l; exact Hw]).
  assert (H1 : w / n <= 1)
    by (apply Qle_shift_div_r; [exact Hn | rewrite Qmult_1_l; exact Hwn]).
  assert (Hx : w == (w / n) * n) by (field; lra).
  set (x := w / n) in *. clearbody x.
  split; [split; lra|]. split.
  - intros H100. assert (Hq : x == 1) by lra. rewrite Hx, Hq. ring.
  - intros Hwn'. assert (Hq : x * n == 1 * n) by (rewrite <- Hx, Hwn'; ring).
    apply Qmult_inj_r in Hq; [rewrite Hq; reflexivity | lra].
Qed.

(** X8.  The win rate is a percentage: for every ledger it lies between 0
    and 100, it is 0 when nothing was sold, and 100 exactly when every
    SELL record has a positive P&L. *)
Theorem winRate_is_a_percentage :
  forall p,
    0 <= winRate p <= 100
    /\ (List.filter is_closed_sell (trades p) = [] -> winRate p = 0)
    /\ (List.filter is_closed_sell (trades p) <> [] ->
        (winRate p == 100 <->
         forall tr, In tr (List.filter is_closed_sell (trades p)) ->
                    is_win tr = true)).
Proof.
  intros p. unfold winRate.
  set (sells := List.filter is_closed_sell (trades p)).
  pose proof (filter_length_le is_win sells) as Hle.
  destruct (length sells =? 0)%nat eqn:E.
  - apply Nat.eqb_eq in E. split; [split; discriminate|].
    split; [reflexivity|]. intros Hne. destruct sells; [congruence | discriminate].
  - apply Nat.eqb_neq in E.
    assert (Hn : 0 < inject_Z (Z.of_nat (length sells))).
    { change 0 with (inject_Z 0). rewrite <- Zlt_Qlt. lia. }
    assert (Hw : 0 <= inject_Z (Z.of_nat (length (List.filter is_win sells)))).
    { change 0 with (inject_Z 0). rewrite <- Zle_Qle. lia. }
    assert (Hwn : inject_Z (Z.of_nat (length (List.filter is_win sells)))
                  <= inject_Z (Z.of_nat (length sells))).
    { rewrite <- Zle_Qle. lia. }
    destruct (percentage_bounds _ _ Hn Hw Hwn) as [Hb Hiff].
    split; [exact Hb|]. split; [intros Hnil; rewrite Hnil in E; easy|].
    intros _. rewrite Hiff. split.
    + intros Hwn'. unfold Qeq in Hwn'. cbn [Qnum Qden inject_Z] in Hwn'.
      assert (Hlen : length (List.filter is_win sells) = length sells) by lia.
      clear - Hlen. induction sells as [|x l IH]; [intros tr []|].
      cbn in Hlen. intros tr [<- | Hin].
      * destruct (is_win x) eqn:Ex; [reflexivity|].
        pose proof (filter_length_le is_win l). cbn in Hlen. lia.
      * destruct (is_win x) eqn:Ex.
        -- apply IH; [cbn in Hlen; lia | exact Hin].
        -- pose proof (filter_length_le is_win l). cbn in Hlen. lia.
    + intros Hall.
      assert (Hf : List.filter is_win sells = sells).
      { clear - Hall. induction sells as [|x l IH]; [reflexivity|].
        cbn. rewrite (Hall x (or_introl eq_refl)). f_equal.
        apply IH. intros tr Hin. apply Hall. right. exact Hin. }
      rewrite Hf. reflexivity.
Qed.

End LedgerMore4.

Section LedgerMore5.

Import Portfolio Ledger.

Implicit Types (p : t) (m : gmap string Holding) (h : Holding).

Lemma updateMetrics_ok prices p :
  metrics_ok p -> metrics_ok (updateMetrics prices p).
Proof.
  intros (Hsc & Hpeak & Hdd). unfold metrics_ok, updateMetrics.
  cbn [startingCash peakValue maxDrawdown].
  split; [exact Hsc|]. split.
  - destruct (Qltb (peakValue p) (totalValue prices p)) eqn:E; [|exact Hpeak].
    apply Qltb_lt in E. lra.
  - match goal with |- context [if Qltb (maxDrawdown p) ?dd then _ else _] =>
      destruct (Qltb (maxDrawdown p) dd) eqn:E end; [|exact Hdd].
    apply Qltb_lt in E. lra.
Qed.

Lemma act_ok p a : careful a -> metrics_ok p -> metrics_ok (act p a).
Proof.
  intros Ha Hm. destruct a as [o | prices | c0]; cbn [act careful] in *.
  - destruct (step_keeps_header p o) as (_ & Hst & Hpk & Hdd).
    unfold metrics_ok. rewrite Hst, Hpk, Hdd. exact Hm.
  - apply updateMetrics_ok, Hm.
  - destruct Hm as (Hsc & _). unfold metrics_ok, reset.
    cbn [startingCash peakValue maxDrawdown].
    split; [exact Hsc|]. split; [|apply Qle_refl].
    destruct c0 as [c|]; [|exact Hsc].
    destruct (Qeqb c 0) eqn:E; [exact Hsc|].
    apply Qle_lteq in Ha as [Ha | Ha]; [exact Ha|].
    exfalso. apply not_true_iff_false in E. apply E, Qeqb_eq.
    symmetry. exact Ha.
Qed.

(** X9.  The peak follows the value.  On a ledger opened with a positive
    amount, after any orders on symbols under which [holdings] inherits
    nothing, any metrics updates and any resets to amounts that are not
    negative, the peak value is positive and the largest drawdown is not
    negative.  Each metrics update leaves the peak at least as high as the
    value it has just seen and as the peak before, at one of the two, and
    remembers the value for the next return. *)
Theorem peak_follows_the_value :
  forall (who : string) (c : Q) (actions : list Action),
    0 < c -> Forall careful actions ->
    let p := play actions (new who c) in
    (0 < peakValue p /\ 0 <= maxDrawdown p)
    /\ forall prices,
         let p' := updateMetrics prices p in
         totalValue prices p <= peakValue p'
         /\ peakValue p <= peakValue p'
         /\ (peakValue p' = peakValue p
             \/ peakValue p' = totalValue prices p)
         /\ _prevValue p' = totalValue prices p
         /\ 0 < peakValue p' /\ 0 <= maxDrawdown p'.
Proof.
  intros who c actions Hc Hcareful p.
  assert (Hm : metrics_ok p).
  { unfold p, play.
    assert (H0 : metrics_ok (new who c)).
    { split; [exact Hc|]. split; [exact Hc | apply Qle_refl]. }
    revert H0. generalize (new who c).
    induction Hcareful as [|a actions Ha _ IH]; intros p0 H0; [exact H0|].
    cbn [fold_left]. apply IH, act_ok; assumption. }
  split; [destruct Hm as (_ & H1 & H2); auto|].
  intros prices p'.
  destruct (updateMetrics_ok prices p Hm) as (_ & Hpk & Hdd).
  fold p' in Hpk, Hdd.
  assert (H : totalValue prices p <= peakValue p'
              /\ peakValue p <= peakValue p'
              /\ (peakValue p' = peakValue p
                  \/ peakValue p' = totalValue prices p)).
  { unfold p', updateMetrics. cbn [peakValue].
    destruct (Qltb (peakValue p) (totalValue prices p)) eqn:E.
    - apply Qltb_lt in E. split; [apply Qle_refl|].
      split; [apply Qlt_le_weak, E | right; reflexivity].
    - apply Qltb_ge in E. split; [exact E|].
      split; [apply Qle_refl | left; reflexivity]. }
  destruct H as (H1 & H2 & H3).
  split; [exact H1|]. split; [exact H2|]. split; [exact H3|].
  split; [reflexivity|]. split; [exact Hpk | exact Hdd].
Qed.

Lemma peak_follows_the_value_witness :
  let p := play [Order (Buy "NOVA" 10 100 0 0 0);
                 Metrics {[ "NOVA" := 80 ]}; Metrics {[ "NOVA" := 130 ]}]
                (new "You" 10000) in
  0 < peakValue p /\ peakValue p == 10300 /\ maxDrawdown p == 2.
Proof.
  intros p.
  destruct (peak_follows_the_value "You" 10000
              [Order (Buy "NOVA" 10 100 0 0 0);
               Metrics {[ "NOVA" := 80 ]}; Metrics {[ "NOVA" := 130 ]}])
    as ((Hpk & _) & _).
  - reflexivity.
  - repeat constructor.
  - split; [exact Hpk|]. split; vm_compute; reflexivity.
Defined.

Lemma act_keeps_header p a :
  name (act p a) = name p /\ startingCash (act p a) = startingCash p.
Proof.
  destruct a as [o | prices | c0]; cbn [act].
  - destruct (step_keeps_header p o) as (H1 & H2 & _). auto.
  - auto.
  - auto.
Qed.

Lemma play_keeps_header actions p :
  name (play actions p) = name p
  /\ startingCash (play actions p) = startingCash p.
Proof.
  unfold play. revert p. induction actions as [|a actions IH]; intros p.
  - auto.
  - cbn [fold_left]. destruct (IH (act p a)) as [H1 H2].
    destruct (act_keeps_header p a) as [H3 H4].
    rewrite H1, H2. auto.
Qed.

(** X10.  [reset()] after anything gives back the ledger as it was
    opened: the same name and starting cash, no holdings, no records, the
    counters at zero.  The same holds for [reset(0)], since 0 is falsy.
    [reset(c)] with another amount starts over with cash [c] and keeps the
    old starting cash, against which returns go on being measured. *)
Theorem reset_starts_over :
  forall (who : string) (c : Q) (actions : list Action),
    let p := play actions (new who c) in
    reset None p = new who c
    /\ reset (Some 0) p = new who c
    /\ forall c' : Q,
         ~ c' == 0 ->
         reset (Some c') p
         = mkPortfolio who c c' ∅ [] 0 c' 0 [] c'.
Proof.
  intros who c actions p.
  destruct (play_keeps_header actions (new who c)) as [Hn Hs].
  fold p in Hn, Hs. cbn [new name startingCash] in Hn, Hs.
  unfold reset, new. rewrite Hn, Hs.
  split; [reflexivity|]. split; [reflexivity|].
  intros c' Hc'.
  destruct (Qeqb c' 0) eqn:E; [apply Qeqb_eq in E; contradiction | reflexivity].
Qed.

Lemma reset_starts_over_witness :
  let p := play [Order (Buy "NOVA" 10 100 0 0 0); Metrics {[ "NOVA" := 80 ]}]
                (new "You" 10000) in
  cash (reset (Some 5000) p) = 5000
  /\ startingCash (reset (Some 5000) p) = 10000.
Proof.
  intros p.
  destruct (reset_starts_over "You" 10000
              [Order (Buy "NOVA" 10 100 0 0 0); Metrics {[ "NOVA" := 80 ]}])
    as (_ & _ & H).
  fold p in H. rewrite (H 5000) by discriminate. split; reflexivity.
Defined.

End LedgerMore5.

Section IndicatorMore.

Import Indicators.

Implicit Types (data closes : list Q) (period : Z).

Lemma get_nonneg data j : Forall (fun x => 0 <= x) data -> 0 <= get data j.
Proof.
  intros Hall. unfold get. destruct (data !! j) as [x|] eqn:Hx; cbn.
  - rewrite Forall_forall in Hall. apply Hall.
    eapply list_elem_of_lookup_2, Hx.
  - apply Qle_refl.
Qed.

Lemma fold_sum_lower (f : nat -> Q) (l : list nat) (acc lo : Q) :
  (forall j, j ∈ l -> lo <= f j) ->
  acc + lo * inject_Z (Z.of_nat (length l))
  <= fold_left (fun sum j => sum + f j) l acc.
Proof.
  revert acc. induction l as [|j l IH]; intros acc Hall.
  - cbn [fold_left length]. change (inject_Z (Z.of_nat 0)) with 0. lra.
  - cbn [fold_left length].
    pose proof (Hall j ltac:(apply elem_of_cons; left; reflexivity)) as Hlo.
    pose proof (IH (acc + f j)
                  (fun k Hk => Hall k ltac:(apply elem_of_cons; right; exact Hk)))
      as H1.
    rewrite Nat2Z.inj_succ, <- Z.add_1_r, inject_Z_plus.
    change (inject_Z 1) with 1.
    set (n := inject_Z (Z.of_nat (length l))) in *. clearbody n. lra.
Qed.

Lemma SMA_nonneg data period i v :
  (1 <= period)%Z -> Forall (fun x => 0 <= x) data ->
  SMA data period !! i = Some (Some v) -> 0 <= v.
Proof.
  intros Hp Hall H.
  assert (Hi : (i < length data)%nat).
  { rewrite <- (SMA_length data period). eapply lookup_lt_Some, H. }
  rewrite SMA_lookup in H by exact Hi.
  destruct (warming period i) eqn:Hw; [discriminate|]. injection H as <-.
  assert (Hpos : 0 < inject_Z period).
  { change 0 with (inject_Z 0). rewrite <- Zlt_Qlt. lia. }
  apply Qle_shift_div_l; [exact Hpos|]. rewrite Qmult_0_l.
  pose proof (fold_sum_lower (get data) (window period i) 0 0) as H1.
  fold (window_sum data period i) in H1.
  eapply Qle_trans; [|apply H1].
  - set (n := inject_Z _). clearbody n. lra.
  - intros j Hj. unfold get.
    pose proof (window_in_range period i j Hw Hj).
    destruct (lookup_lt_is_Some_2 data j) as [x Hx]; [lia|]. rewrite Hx. cbn.
    rewrite Forall_forall in Hall. apply Hall.
    eapply list_elem_of_lookup_2, Hx.
Qed.

Lemma smoothing_factor period :
  (1 <= period)%Z -> 0 <= 2 / (inject_Z period + 1) <= 1.
Proof.
  intros Hp.
  assert (H1 : 1 <= inject_Z period).
  { change 1 with (inject_Z 1). rewrite <- Zle_Qle. exact Hp. }
  split.
  - apply Qle_shift_div_l; lra.
  - apply Qle_shift_div_r; lra.
Qed.

Lemma EMA_loop_nonneg data period k indices ema n v :
  (1 <= period)%Z -> 0 <= k <= 1 ->
  Forall (fun x => 0 <= x) data ->
  (forall e, ema = Some e -> 0 <= e) ->
  EMA_loop data period k indices ema !! n = Some (Some v) ->
  0 <= v.
Proof.
  intros Hp Hk Hall. revert ema n.
  induction indices as [|i rest IH]; intros ema n Hema; cbn [EMA_loop].
  - intros H. rewrite lookup_nil in H. discriminate.
  - destruct (warming period i) eqn:Hw.
    + destruct n as [|n]; cbn [lookup list_lookup]; [discriminate|].
      apply IH, Hema.
    + set (e' := match ema with
                 | Some e => get data i * k + e * (1 - k)
                 | None => window_sum data period i / inject_Z period
                 end).
      assert (He' : 0 <= e').
      { unfold e'. destruct ema as [e|].
        - pose proof (get_nonneg data i Hall) as Hx.
          pose proof (Hema e eq_refl) as He.
          pose proof (Qmult_le_0_compat _ _ Hx (proj1 Hk)).
          pose proof (Qmult_le_0_compat e (1 - k) He ltac:(lra)). lra.
        - assert (Hpos : 0 < inject_Z period).
          { change 0 with (inject_Z 0). rewrite <- Zlt_Qlt. lia. }
          apply Qle_shift_div_l; [exact Hpos|]. rewrite Qmult_0_l.
          pose proof (fold_sum_lower (get data) (window period i) 0 0
                        (fun j _ => get_nonneg data j Hall)) as H1.
          fold (window_sum data period i) in H1.
          eapply Qle_trans; [|exact H1].
          set (m := inject_Z _). clearbody m. lra. }
      destruct n as [|n]; cbn [lookup list_lookup].
      * intros [= <-]. exact He'.
      * apply IH. intros e [= <-]. exact He'.
Qed.

(** X11.  Averages of prices are not negative: with a period of at least
    1 and data without negative entries, no value of [SMA] and no value
    of [EMA] is negative.  A sum of terms that are not negative, a
    quotient by the positive period, and a mix with the weights [k] and
    [1 - k], both between 0 and 1, keep the sign. *)
Theorem moving_averages_are_not_negative :
  forall data period,
    (1 <= period)%Z ->
    Forall (fun x => 0 <= x) data ->
    forall (i : nat) (v : Q),
      (SMA data period !! i = Some (Some v) -> 0 <= v)
      /\ (EMA data period !! i = Some (Some v) -> 0 <= v).
Proof.
  intros data period Hp Hall i v. split.
  - apply SMA_nonneg; assumption.
  - unfold EMA. intros H.
    eapply EMA_loop_nonneg; [exact Hp | apply smoothing_factor, Hp | exact Hall
                            | | exact H].
    discriminate.
Qed.

Lemma moving_averages_are_not_negative_witness :
  exists v, EMA [10; 12; 11; 15] 2 !! 3%nat = Some (Some v) /\ 0 <= v.
Proof.
  eexists. split; [reflexivity|].
  apply (moving_averages_are_not_negative [10; 12; 11; 15] 2 ltac:(lia)
           ltac:(repeat constructor; discriminate) 3%nat).
  reflexivity.
Defined.

End IndicatorMore.

Section IndicatorMore2.

Import Indicators.

Implicit Types (data closes : list Q) (period : Z).

Lemma EMA_loop_seed data period k indices n i :
  indices !! n = Some i ->
  (forall j, j ∈ take n indices -> warming period j = true) ->
  warming period i = false ->
  EMA_loop data period k indices None !! n
  = Some (Some (window_sum data period i / inject_Z period)).
Proof.
  revert n. induction indices as [|x rest IH]; intros n Hn Hbefore Hw.
  - rewrite lookup_nil in Hn. discriminate.
  - destruct n as [|n]; cbn [EMA_loop].
    + injection Hn as ->. rewrite Hw. reflexivity.
    + rewrite (Hbefore x) by (cbn; apply elem_of_cons; left; reflexivity).
      cbn [lookup list_lookup]. apply IH; [exact Hn | | exact Hw].
      intros j Hj. apply Hbefore. cbn. apply elem_of_cons. right. exact Hj.
Qed.

Lemma EMA_loop_next data period k indices ema n j i :
  indices !! n = Some j -> indices !! S n = Some i ->
  warming period j = false -> warming period i = false ->
  exists prev,
    EMA_loop data period k indices ema !! n = Some (Some prev)
    /\ EMA_loop data period k indices ema !! S n
       = Some (Some (get data i * k + prev * (1 - k))).
Proof.
  revert ema n. induction indices as [|x rest IH]; intros ema n Hj Hi Hwj Hwi.
  - rewrite lookup_nil in Hj. discriminate.
  - destruct n as [|n].
    + injection Hj as ->. destruct rest as [|y rest]; [discriminate|].
      injection Hi as ->. cbn [EMA_loop]. rewrite Hwj, Hwi.
      eexists. split; reflexivity.
    + cbn [EMA_loop]. destruct (warming period x); cbn [lookup list_lookup];
        apply IH; assumption.
Qed.

(** X12.  With a period between 1 and the length of the data, the first
    value of [EMA], at index [period - 1], is the [SMA] at that index, and
    every later value is [data[i] * k + previous * (1 - k)] with
    [k = 2 / (period + 1)]. *)
Theorem EMA_seed_and_recurrence :
  forall data period,
    (1 <= period <= Z.of_nat (length data))%Z ->
    let first := Z.to_nat (period - 1) in
    let k := 2 / (inject_Z period + 1) in
    EMA data period !! first = SMA data period !! first
    /\ (exists v, EMA data period !! first = Some (Some v))
    /\ forall i : nat,
         (first <= i)%nat -> (S i < length data)%nat ->
         exists prev,
           EMA data period !! i = Some (Some prev)
           /\ EMA data period !! S i
              = Some (Some (get data (S i) * k + prev * (1 - k))).
Proof.
  intros data period Hp first k.
  assert (Hfirst : (first < length data)%nat) by (unfold first; lia).
  assert (Hwf : warming period first = false).
  { unfold warming, first. apply Z.ltb_ge. lia. }
  assert (Hseed : EMA data period !! first
                  = Some (Some (window_sum data period first / inject_Z period))).
  { unfold EMA. apply EMA_loop_seed.
    - apply lookup_seq_lt, Hfirst.
    - intros j Hj. apply list_elem_of_lookup in Hj as [m Hm].
      apply lookup_take_Some in Hm as [Hm Hlt].
      apply lookup_seq in Hm as [-> _].
      unfold warming, first in *. apply Z.ltb_lt. lia.
    - exact Hwf. }
  split; [|split].
  - rewrite Hseed, SMA_lookup by exact Hfirst. rewrite Hwf. reflexivity.
  - eauto.
  - intros i Hi Hlen. unfold EMA.
    apply (EMA_loop_next data period k (seq 0 (length data)) None i i (S i)).
    + apply lookup_seq_lt. lia.
    + apply lookup_seq_lt. lia.
    + unfold warming, first in *. apply Z.ltb_ge. lia.
    + unfold warming, first in *. apply Z.ltb_ge. lia.
Qed.

Lemma EMA_seed_and_recurrence_witness :
  EMA [10; 12; 11; 15] 2 !! 1%nat = SMA [10; 12; 11; 15] 2 !! 1%nat
  /\ exists prev,
       EMA [10; 12; 11; 15] 2 !! 2%nat = Some (Some prev)
       /\ EMA [10; 12; 11; 15] 2 !! 3%nat
          = Some (Some (15 * (2 / (inject_Z 2 + 1))
                        + prev * (1 - 2 / (inject_Z 2 + 1)))).
Proof.
  destruct (EMA_seed_and_recurrence [10; 12; 11; 15] 2) as (H1 & _ & H3).
  - cbn. lia.
  - split; [exact H1|]. apply (H3 2%nat); cbn; lia.
Defined.

Lemma RSI_step_nonneg closes period i st :
  (1 <= period)%Z -> nonneg_state st ->
  nonneg_state (RSI_step closes period i st).1.
Proof.
  intros Hp [Hg Hl].
  assert (Hpos : 1 <= inject_Z period).
  { change 1 with (inject_Z 1). rewrite <- Zle_Qle. exact Hp. }
  unfold RSI_step, nonneg_state. destruct (i =? 0)%nat; [split; assumption|].
  set (change := get closes i - get closes (i - 1)). clearbody change.
  cbv zeta.
  destruct (Z.of_nat i <=? period)%Z.
  - destruct (Qltb 0 change) eqn:Ec;
      [apply Qltb_lt in Ec | apply Qltb_ge in Ec];
      destruct (Z.of_nat i <? period)%Z; cbn [fst gains losses];
      (split; [first [lra | apply Qle_shift_div_l; lra]
              | first [lra | apply Qle_shift_div_l; lra]]).
  - cbn [fst gains losses]. split.
    + apply Qle_shift_div_l; [lra|]. rewrite Qmult_0_l.
      destruct (Qltb 0 change) eqn:Ec; [apply Qltb_lt in Ec|]; nra.
    + apply Qle_shift_div_l; [lra|]. rewrite Qmult_0_l.
      destruct (Qltb change 0) eqn:Ec; [apply Qltb_lt in Ec|]; nra.
Qed.

Lemma RSI_loop_nonneg closes period indices st n r :
  (1 <= period)%Z -> nonneg_state st ->
  RSI_loop closes period indices st !! n = Some r -> nonneg_state r.1.
Proof.
  intros Hp. revert st n.
  induction indices as [|i rest IH]; intros st n Hst; cbn [RSI_loop].
  - intros H. rewrite lookup_nil in H. discriminate.
  - destruct n as [|n]; cbn [lookup list_lookup].
    + intros [= <-]. apply RSI_step_nonneg; assumption.
    + apply IH. apply RSI_step_nonneg; assumption.
Qed.

Lemma RSI_value_range st : nonneg_state st -> 0 <= RSI_value st /\ RSI_value st < 100.
Proof.
  intros [Hg Hl]. unfold RSI_value.
  assert (Hrs : 0 <= (if Qeqb (losses st) 0 then 100 else gains st / losses st)).
  { destruct (Qeqb (losses st) 0) eqn:E; [discriminate|].
    assert (Hne : ~ losses st == 0).
    { intros H. apply Qeqb_eq in H. congruence. }
    apply Qle_shift_div_l; [|rewrite Qmult_0_l; exact Hg].
    apply Qle_lteq in Hl as [Hl | Hl]; [exact Hl|].
    exfalso. apply Hne. symmetry. exact Hl. }
  set (rs := if Qeqb (losses st) 0 then 100 else gains st / losses st) in *.
  clearbody rs.
  assert (H1 : 0 < 100 / (1 + rs)).
  { apply Qlt_shift_div_l; lra. }
  assert (H2 : 100 / (1 + rs) <= 100).
  { apply Qle_shift_div_r; nra. }
  set (x := 100 / (1 + rs)) in *. clearbody x. split; lra.
Qed.

(** X13.  With a period of at least 1, every value of [RSI] lies
    between 0 and 100: the two smoothed averages it is computed from are
    never negative. *)
Theorem RSI_stays_in_range :
  forall closes period (i : nat) (v : Q),
    (1 <= period)%Z ->
    RSI closes period !! i = Some (Some v) ->
    0 <= v <= 100.
Proof.
  intros closes period i v Hp. unfold RSI. rewrite list_lookup_fmap.
  destruct (RSI_trace closes period !! i) as [[st o]|] eqn:Hr; [|discriminate].
  cbn. intros [= ->].
  destruct (RSI_trace_lookup _ _ _ _ Hr) as [_ Hv].
  rewrite (Hv v eq_refl). cbn [fst].
  cut (0 <= RSI_value st /\ RSI_value st < 100);
    [intros [H1 H2]; split; [exact H1 | apply Qlt_le_weak, H2]|].
  apply RSI_value_range.
  assert (H0 : nonneg_state (mkRSI 0 0)) by (split; apply Qle_refl).
  apply (RSI_loop_nonneg closes period _ _ i (st, Some v) Hp H0 Hr).
Qed.

Lemma RSI_stays_in_range_witness :
  exists v, RSI [5; 6; 8; 7; 9] 3 !! 4%nat = Some (Some v) /\ 0 <= v <= 100.
Proof.
  eexists. split; [reflexivity|].
  apply (RSI_stays_in_range [5; 6; 8; 7; 9] 3 4%nat); [lia | reflexivity].
Defined.

End IndicatorMore2.

Section IndicatorMore3.

Import Indicators.

Implicit Types (data closes : list Q) (period : Z).

Section BandsMore.

Variable Math_sqrt : Q -> Q.

Lemma Bollinger_rows_lookup closes period mult i :
  (i < length closes)%nat ->
  (Bollinger_step Math_sqrt closes period mult (SMA closes period)
   <$> seq 0 (length closes)) !! i
  = Some (Bollinger_step Math_sqrt closes period mult (SMA closes period) i).
Proof.
  intros Hi. rewrite list_lookup_fmap, lookup_seq_lt by exact Hi. reflexivity.
Qed.


End BandsMore.

Lemma macdLine_length f s n : length (macdLine f s n) = n.
Proof. unfold macdLine. rewrite length_fmap. apply length_seq. Qed.

Lemma MACD_loop_macd line sl vi :
  (fun r : option Q * option Q * option Q => r.1.1) <$> MACD_loop line sl vi
  = line.
Proof.
  revert vi. induction line as [|[m|] rest IH]; intros vi; cbn; [reflexivity|..];
    f_equal; apply IH.
Qed.

Lemma MACD_loop_length line sl vi : length (MACD_loop line sl vi) = length line.
Proof.
  rewrite <- (MACD_loop_macd line sl vi) at 2. rewrite length_fmap. reflexivity.
Qed.

Lemma MACD_loop_row line sl vi i r :
  MACD_loop line sl vi !! i = Some r ->
  (r = (None, None, None))
  \/ exists m vi',
       r = (Some m, signal_at sl vi',
            match signal_at sl vi' with Some x => Some (m - x) | None => None end).
Proof.
  revert vi i. induction line as [|[m|] rest IH]; intros vi i; cbn [MACD_loop].
  - intros H. rewrite lookup_nil in H. discriminate.
  - destruct i as [|i]; cbn [lookup list_lookup].
    + intros [= <-]. right. eauto.
    + apply IH.
  - destruct i as [|i]; cbn [lookup list_lookup].
    + intros [= <-]. left. reflexivity.
    + apply IH.
Qed.

Lemma signal_at_nonzero sl vi x : signal_at sl vi = Some x -> ~ x == 0.
Proof.
  unfold signal_at. destruct (default None (sl !! vi)) as [y|]; [|discriminate].
  destruct (Qeqb y 0) eqn:E; [discriminate|]. intros [= <-] H.
  apply Qeqb_eq in H. congruence.
Qed.

(** X15.  [MACD] returns three arrays as long as the input.  The MACD line
    at index [i] is [null] exactly when [i < fast - 1] or [i < slow - 1],
    and is the fast [EMA] minus the slow [EMA] otherwise.  Where the line
    is [null] so are signal and histogram; the histogram is [null] exactly
    where the signal is, and is line minus signal otherwise.  A signal
    value is never 0: [signalLine[vi] || null] turns a signal of 0 into
    [null]. *)
Theorem MACD_shape :
  forall closes (fast slow sig : Z),
    let r := MACD closes fast slow sig in
    (length (macd r) = length closes
     /\ length (signal r) = length closes
     /\ length (histogram r) = length closes)
    /\ forall i : nat,
         (i < length closes)%nat ->
         exists m s h,
           macd r !! i = Some m /\ signal r !! i = Some s
           /\ histogram r !! i = Some h
           /\ (m = None <-> (Z.of_nat i < fast - 1)%Z \/ (Z.of_nat i < slow - 1)%Z)
           /\ (forall mv, m = Some mv ->
                 exists f sl, EMA closes fast !! i = Some (Some f)
                              /\ EMA closes slow !! i = Some (Some sl)
                              /\ mv = f - sl)
           /\ (m = None -> s = None)
           /\ (h = None <-> s = None)
           /\ (forall mv sv, m = Some mv -> s = Some sv ->
                 h = Some (mv - sv) /\ ~ sv == 0).
Proof.
  intros closes fast slow sig r.
  set (line := macdLine (EMA closes fast) (EMA closes slow) (length closes)).
  set (sl := EMA (validMacd line) sig).
  assert (Hlen : length (MACD_loop line sl 0) = length closes).
  { rewrite MACD_loop_length. apply macdLine_length. }
  split.
  { unfold r. cbn [MACD macd signal histogram]. fold line. fold sl.
    rewrite !length_fmap. auto. }
  intros i Hi.
  destruct (lookup_lt_is_Some_2 (MACD_loop line sl 0) i) as [row Hrow]; [lia|].
  exists row.1.1, row.1.2, row.2.
  assert (Hm : line !! i = Some row.1.1).
  { rewrite <- (MACD_loop_macd line sl 0), list_lookup_fmap, Hrow. reflexivity. }
  split; [|split; [|split]].
  1-3: unfold r; cbn [MACD macd signal histogram]; fold line; fold sl;
       rewrite list_lookup_fmap, Hrow; reflexivity.
  assert (Hline : row.1.1
                  = match default None (EMA closes fast !! i),
                          default None (EMA closes slow !! i) with
                    | Some f, Some s => Some (f - s)
                    | _, _ => None
                    end).
  { unfold line, macdLine in Hm.
    rewrite list_lookup_fmap, lookup_seq_lt in Hm by exact Hi.
    injection Hm as <-. reflexivity. }
  destruct (lookup_lt_is_Some_2 (EMA closes fast) i) as [ef Hef];
    [rewrite EMA_length; exact Hi|].
  destruct (lookup_lt_is_Some_2 (EMA closes slow) i) as [es Hes];
    [rewrite EMA_length; exact Hi|].
  pose proof (EMA_null _ _ _ _ Hef) as Nf.
  pose proof (EMA_null _ _ _ _ Hes) as Ns.
  rewrite Hef, Hes in Hline. cbn [default from_option id] in Hline.
  split; [|split].
  - rewrite Hline. destruct ef as [f|], es as [s|]; split; intros H;
      try discriminate; try reflexivity.
    + destruct H as [H | H]; [apply Nf in H | apply Ns in H]; discriminate.
    + right. apply Ns. reflexivity.
    + left. apply Nf. reflexivity.
    + left. apply Nf. reflexivity.
  - intros mv Hmv. rewrite Hline in Hmv.
    destruct ef as [f|], es as [s|]; try discriminate.
    injection Hmv as <-. eauto.
  - destruct (MACD_loop_row _ _ _ _ _ Hrow) as [-> | (m & vi' & ->)];
      cbn [fst snd].
    + split; [reflexivity|]. split; [tauto|]. intros mv sv H. discriminate.
    + split; [discriminate|]. split.
      * destruct (signal_at sl vi'); split; congruence.
      * intros mv sv [= <-] Hs. rewrite Hs. split; [reflexivity|].
        eapply signal_at_nonzero, Hs.
Qed.

End IndicatorMore3.

Section IndicatorMore4.

Import Indicators.

Implicit Types (data closes : list Q) (period : Z).


Lemma MACD_shape_witness :
  exists m s h,
    macd (MACD [10; 12; 11; 15; 14] 1 2 1) !! 2%nat = Some m
    /\ signal (MACD [10; 12; 11; 15; 14] 1 2 1) !! 2%nat = Some s
    /\ histogram (MACD [10; 12; 11; 15; 14] 1 2 1) !! 2%nat = Some h
    /\ (h = None <-> s = None).
Proof.
  destruct (MACD_shape [10; 12; 11; 15; 14] 1 2 1) as [_ H].
  destruct (H 2%nat) as (m & s & h & H1 & H2 & H3 & _ & _ & _ & H7 & _).
  - cbn. lia.
  - exists m, s, h. auto.
Defined.

Lemma trueRange_nonneg highs lows closes i :
  get lows 0 <= get highs 0 -> 0 <= trueRange highs lows closes i.
Proof.
  intros H0. unfold trueRange. destruct (i =? 0)%nat eqn:E.
  - apply Nat.eqb_eq in E. subst i. lra.
  - eapply Qle_trans; [apply Qabs_nonneg|]. apply Q.le_max_r.
Qed.

(** X16.  [ATR] returns as many entries as there are closes, [null]
    exactly before index [period - 1].  With a period of at least 1, a
    high and a low for every close and a first bar whose high is not below
    its low, no value of the [ATR] is negative: from the second bar on the
    true range is at least an absolute value, whatever the highs and lows
    are. *)
Theorem ATR_is_not_negative :
  forall (highs lows closes : list Q) period,
    null_exactly (fun i => (Z.of_nat i < period - 1)%Z) (length closes)
                 (ATR highs lows closes period)
    /\ ((1 <= period)%Z ->
        length highs = length closes -> length lows = length closes ->
        get lows 0 <= get highs 0 ->
        forall (i : nat) (v : Q),
          ATR highs lows closes period !! i = Some (Some v) -> 0 <= v).
Proof.
  intros highs lows closes period. unfold ATR. split.
  - apply null_exactly_intro; [|apply SMA_null].
    rewrite SMA_length, length_fmap. apply length_seq.
  - intros Hp _ _ H0 i v. apply SMA_nonneg; [exact Hp|].
    apply Forall_forall. intros x Hx.
    apply list_elem_of_fmap in Hx as (j & -> & _).
    apply trueRange_nonneg, H0.
Qed.

Lemma ATR_is_not_negative_witness :
  exists v,
    ATR [12; 13; 11] [10; 9; 8] [11; 10; 9] 2 !! 2%nat = Some (Some v)
    /\ 0 <= v.
Proof.
  eexists. split; [reflexivity|].
  destruct (ATR_is_not_negative [12; 13; 11] [10; 9; 8] [11; 10; 9] 2)
    as [_ H].
  apply (H ltac:(lia) eq_refl eq_refl ltac:(discriminate) 2%nat). reflexivity.
Defined.

Lemma VWAP_loop_length highs lows closes volumes indices cv ct :
  length (VWAP_loop highs lows closes volumes indices cv ct) = length indices.
Proof.
  revert cv ct. induction indices as [|i rest IH]; intros cv ct; cbn;
    [reflexivity | rewrite IH; reflexivity].
Qed.

Lemma VWAP_loop_nonneg highs lows closes volumes indices cv ct n v :
  Forall (fun i => 0 <= get volumes i
                   /\ 0 <= typical highs lows closes i) indices ->
  0 <= cv -> 0 <= ct ->
  VWAP_loop highs lows closes volumes indices cv ct !! n = Some v ->
  0 <= v.
Proof.
  intros Hall. revert cv ct n.
  induction Hall as [|i rest [Hvol Htp] _ IH]; intros cv ct n Hcv Hct;
    cbn [VWAP_loop].
  - intros H. rewrite lookup_nil in H. discriminate.
  - pose proof (Qmult_le_0_compat _ _ Htp Hvol) as Hprod.
    set (tp := typical highs lows closes i) in *. clearbody tp.
    set (w := get volumes i) in *. clearbody w.
    destruct n as [|n]; cbn [lookup list_lookup].
    + intros [= <-]. destruct (Qltb 0 (cv + w)) eqn:E; [|exact Htp].
      apply Qltb_lt in E.
      apply Qle_shift_div_l; [exact E|]. rewrite Qmult_0_l. lra.
    + apply IH; lra.
Qed.

Lemma VWAP_loop_no_volume highs lows closes volumes indices cv ct :
  cv == 0 -> Forall (fun i => get volumes i == 0) indices ->
  VWAP_loop highs lows closes volumes indices cv ct
  = typical highs lows closes <$> indices.
Proof.
  intros Hcv Hall. revert cv ct Hcv.
  induction Hall as [|i rest Hv _ IH]; intros cv ct Hcv; cbn [VWAP_loop fmap list_fmap].
  - reflexivity.
  - assert (Hz : cv + get volumes i == 0) by (rewrite Hcv, Hv; reflexivity).
    rewrite (proj2 (Qltb_ge 0 (cv + get volumes i))) by (rewrite Hz; apply Qle_refl).
    f_equal. apply IH, Hz.
Qed.

(** X17.  [VWAP] returns one number per close, never [null].  Given a
    high, a low and a volume for every close, with volumes and typical
    prices [(high + low + close) / 3] that are not negative no value is
    negative; and as long as no volume has been traded, the value is the
    typical price of the bar itself. *)
Theorem VWAP_is_not_negative :
  forall (highs lows closes volumes : list Q),
    length (VWAP highs lows closes volumes) = length closes
    /\ (length highs = length closes -> length lows = length closes ->
        length volumes = length closes ->
        ((forall i : nat, (i < length closes)%nat ->
            0 <= get volumes i /\ 0 <= typical highs lows closes i) ->
         forall (i : nat) (v : Q),
           VWAP highs lows closes volumes !! i = Some v -> 0 <= v)
        /\ ((forall i : nat, (i < length closes)%nat -> get volumes i == 0) ->
            VWAP highs lows closes volumes
            = typical highs lows closes <$> seq 0 (length closes))).
Proof.
  intros highs lows closes volumes. unfold VWAP.
  split; [rewrite VWAP_loop_length; apply length_seq|]. intros _ _ _. split.
  - intros Hall i v. apply VWAP_loop_nonneg; try apply Qle_refl.
    apply Forall_forall. intros j Hj. apply elem_of_seq in Hj.
    apply Hall. lia.
  - intros Hall. apply VWAP_loop_no_volume; [reflexivity|].
    apply Forall_forall. intros j Hj. apply elem_of_seq in Hj.
    apply Hall. lia.
Qed.

Lemma VWAP_is_not_negative_witness :
  exists v,
    VWAP [12; 13] [10; 9] [11; 10] [100; 300] !! 1%nat = Some v
    /\ 0 <= v.
Proof.
  eexists. split; [reflexivity|].
  destruct (VWAP_is_not_negative [12; 13] [10; 9] [11; 10] [100; 300])
    as (_ & H).
  destruct (H eq_refl eq_refl eq_refl) as [H1 _].
  apply (H1 ltac:(intros [|[|i]] Hi; cbn in Hi; try lia; vm_compute;
                  repeat split; discriminate) 1%nat).
  reflexivity.
Defined.

End IndicatorMore4.

Section MarketEngineMore.

Import MarketEngine.

Lemma step_well_scheduled e o : well_scheduled e -> well_scheduled (step e o).
Proof.
  intros Hw. destruct o as [ | | | s | id]; cbn [step].
  - apply play_scheduled, Hw.
  - apply pause_scheduled, well_scheduled_one_timer, Hw.
  - apply reset_scheduled, well_scheduled_one_timer, Hw.
  - apply setSpeed_scheduled, Hw.
  - apply fire_scheduled, Hw.
Qed.

Lemma run_well_scheduled ops e : well_scheduled e -> well_scheduled (run ops e).
Proof.
  unfold run. revert e. induction ops as [|o ops IH]; intros e Hw; [exact Hw|].
  cbn [fold_left]. apply IH, step_well_scheduled, Hw.
Qed.

Lemma fire_not_pending id e :
  Timers.pending (timers e) = [] -> fire id e = e.
Proof.
  intros H. unfold fire, Timers.is_pending. rewrite H. reflexivity.
Qed.

(** X18.  The simulator never has two timeouts pending, and none while it
    is paused, whatever sequence of [play], [pause], [reset], [setSpeed]
    and timer firings it has been through.  So [pause] really stops the
    clock: after it no timer can fire, and tick and day stay where they
    were. *)
Theorem pause_stops_the_clock :
  forall ops : list Op,
    let e := run ops new in
    (length (Timers.pending (timers e)) <= 1)%nat
    /\ (paused e = true -> Timers.pending (timers e) = [])
    /\ (paused (pause e) = true
        /\ tick (pause e) = tick e /\ day (pause e) = day e
        /\ forall id, fire id (pause e) = pause e).
Proof.
  intros ops e.
  assert (Hw : well_scheduled e) by (apply run_well_scheduled; reflexivity).
  pose proof (well_scheduled_one_timer e Hw) as H1.
  destruct (pause_clears e H1) as (Hp & Ht & _).
  split; [|split].
  - unfold well_scheduled in Hw. destruct (paused e).
    + rewrite Hw. cbn. lia.
    + destruct Hw as (id & _ & ->). cbn. lia.
  - intros Hpa. unfold well_scheduled in Hw. rewrite Hpa in Hw. exact Hw.
  - split; [exact Hp|].
    split; [unfold pause; destruct (intervalId e); reflexivity|].
    split; [unfold pause; destruct (intervalId e); reflexivity|].
    intros id. apply fire_not_pending, Ht.
Qed.

Lemma day_of_next_tick (tk : Z) :
  (0 <= tk)%Z ->
  ((tk + 1 - 1) / 78 =
   (if (tk =? 0) then 0 else (tk - 1) / 78)
   + (if (tk mod 78 =? 0) && (0 <? tk) then 1 else 0))%Z
  /\ ((tk + 1 - 1) mod 78 = tk mod 78)%Z.
Proof.
  intros Ht. replace (tk + 1 - 1)%Z with tk by lia. split; [|reflexivity].
  destruct (tk =? 0)%Z eqn:E0.
  - apply Z.eqb_eq in E0. subst tk. reflexivity.
  - apply Z.eqb_neq in E0. rewrite (proj2 (Z.ltb_lt 0 tk)) by lia.
    rewrite andb_true_r.
    pose proof (Z.div_mod tk 78 ltac:(lia)).
    pose proof (Z.div_mod (tk - 1) 78 ltac:(lia)).
    pose proof (Z.mod_pos_bound (tk - 1) 78 ltac:(lia)).
    pose proof (Z.mod_pos_bound tk 78 ltac:(lia)).
    destruct (tk mod 78 =? 0)%Z eqn:E1;
      [apply Z.eqb_eq in E1 | apply Z.eqb_neq in E1]; lia.
Qed.

Lemma _tick_clock e :
  clock_ok e ->
  clock_ok (_tick e)
  /\ tick (_tick e) = (tick e + 1)%Z
  /\ exists evs, log (_tick e) = log e ++ evs /\ Forall tick_consistent evs.
Proof.
  destruct e as [tk dy tpd pa sp iid bi ts lg].
  unfold clock_ok, _tick. cbn [tick day ticksPerDay].
  intros (-> & Ht & Hd).
  destruct (day_of_next_tick tk Ht) as [Hdiv Hmod].
  assert (Hne : (tk + 1 =? 0)%Z = false) by (apply Z.eqb_neq; lia).
  destruct ((tk mod 78 =? 0)%Z && (0 <? tk)%Z) eqn:E;
    cbn [emit tick day ticksPerDay log]; rewrite Hne.
  - split; [|split; [reflexivity|]].
    + split; [reflexivity|]. split; [lia|]. rewrite Hd, Hdiv. reflexivity.
    + eexists. split; [rewrite <- app_assoc; reflexivity|].
      constructor; [exact I|]. constructor; [|constructor].
      cbn. split; [lia|]. rewrite Hd, Hdiv, Hmod. auto.
  - split; [|split; [reflexivity|]].
    + split; [reflexivity|]. split; [lia|]. rewrite Hd, Hdiv. lia.
    + eexists. split; [reflexivity|]. constructor; [|constructor].
      cbn. split; [lia|]. rewrite Hd, Hdiv, Hmod. split; [lia | reflexivity].
Qed.

Lemma _schedule_clock e :
  tick (_schedule e) = tick e /\ day (_schedule e) = day e
  /\ ticksPerDay (_schedule e) = ticksPerDay e
  /\ log (_schedule e) = log e.
Proof.
  unfold _schedule. destruct (paused e); [auto|].
  destruct (Timers.setTimeout (delay e) (timers e)) as [id ts]. cbn. auto.
Qed.

Lemma _schedule_clock_ok e :
  clock_ok e -> clock_ok (_schedule e).
Proof.
  destruct (_schedule_clock e) as (H1 & H2 & H3 & _).
  unfold clock_ok. rewrite H1, H2, H3. auto.
Qed.

Lemma step_clock e o :
  clock_ok e -> Forall tick_consistent (log e) ->
  clock_ok (step e o) /\ Forall tick_consistent (log (step e o)).
Proof.
  intros Hc Hl. destruct o as [ | | | s | id]; cbn [step].
  - unfold play. destruct (negb (paused e)); [auto|].
    unfold _schedule. cbn. split; [exact Hc|].
    apply Forall_app. split; [exact Hl | repeat constructor].
  - unfold pause. destruct (intervalId e); cbn; (split; [exact Hc|]);
      apply Forall_app; (split; [exact Hl | repeat constructor]).
  - unfold reset, pause. destruct (intervalId e); cbn;
      (split; [destruct Hc as (H1 & _); split; [exact H1 | split; [easy | reflexivity]]|]);
      rewrite <- app_assoc; apply Forall_app;
      (split; [exact Hl | repeat constructor]).
  - unfold setSpeed. cbn [paused]. destruct (negb (paused e)) eqn:Ep; [|exact (conj Hc Hl)].
    unfold play, pause. cbn [paused intervalId].
    destruct (intervalId e); cbn; (split; [exact Hc|]);
      rewrite <- app_assoc; apply Forall_app;
      (split; [exact Hl | repeat constructor]).
  - unfold fire. destruct (Timers.is_pending id (timers e)); [|auto].
    set (e1 := mkEngine _ _ _ _ _ _ _ _ _).
    destruct (_tick_clock e1 Hc) as (Hc' & _ & evs & Hlog & Hevs).
    split; [apply _schedule_clock_ok; exact Hc'|].
    destruct (_schedule_clock (_tick e1)) as (_ & _ & _ & ->).
    rewrite Hlog. apply Forall_app. split; assumption.
Qed.

(** X19.  The clock of the simulator is consistent in every state it can
    reach: a day has 78 ticks, the tick counter is never negative, and the
    day counter is the number of complete days before the last tick.  Every
    [tick] signal ever emitted carries a positive tick number [n], the day
    [(n - 1) / 78] and the place [(n - 1) mod 78] within that day; firing
    the pending timeout advances the tick counter by exactly one. *)
Theorem clock_is_consistent :
  forall ops : list Op,
    let e := run ops new in
    ticksPerDay e = 78%Z /\ (0 <= tick e)%Z
    /\ day e = (if (tick e =? 0)%Z then 0 else (tick e - 1) / 78)%Z
    /\ Forall tick_consistent (log e)
    /\ forall id, Timers.is_pending id (timers e) = true ->
                  tick (fire id e) = (tick e + 1)%Z.
Proof.
  intros ops e.
  assert (H : clock_ok e /\ Forall tick_consistent (log e)).
  { unfold e, run.
    assert (H0 : clock_ok new /\ Forall tick_consistent (log new)).
    { split; [repeat split; discriminate | constructor]. }
    revert H0. generalize new.
    induction ops as [|o ops IH]; intros e0 H0; [exact H0|].
    cbn [fold_left]. apply IH. destruct H0. apply step_clock; assumption. }
  destruct H as [(H1 & H2 & H3) H4].
  split; [exact H1|]. split; [exact H2|]. split; [exact H3|].
  split; [exact H4|].
  intros id Hid. unfold fire. rewrite Hid.
  set (e1 := mkEngine _ _ _ _ _ _ _ _ _).
  assert (Hc1 : clock_ok e1) by (repeat split; assumption).
  destruct (_tick_clock e1 Hc1) as (_ & Ht & _).
  destruct (_schedule_clock (_tick e1)) as (-> & _). exact Ht.
Qed.

Lemma clock_is_consistent_witness :
  Timers.is_pending 2 (timers (run [OpPlay; OpFire 1] new)) = true
  /\ tick (fire 2 (run [OpPlay; OpFire 1] new)) = 2%Z.
Proof.
  destruct (clock_is_consistent [OpPlay; OpFire 1]) as (_ & _ & _ & _ & H).
  assert (Hp : Timers.is_pending 2 (timers (run [OpPlay; OpFire 1] new)) = true)
    by (vm_compute; reflexivity).
  split; [exact Hp|].
  rewrite (H 2%positive Hp). vm_compute. reflexivity.
Defined.

End MarketEngineMore.

Section ReplayMore.

Import RealMarketEngine.

Lemma replay_ok_same e e' :
  candles e' = candles e -> replayIndex e' = replayIndex e ->
  replayCandles e' = replayCandles e -> day e' = day e -> tick e' = tick e ->
  replay_ok e -> replay_ok e'.
Proof.
  unfold replay_ok. intros -> -> -> -> ->. auto.
Qed.

Lemma _advanceReplay_spec e :
  (candles e !! replayIndex e = None /\ _advanceReplay e = e)
  \/ exists c,
      candles e !! replayIndex e = Some c
      /\ candles (_advanceReplay e) = candles e
      /\ replayIndex (_advanceReplay e) = S (replayIndex e)
      /\ replayCandles (_advanceReplay e) = replayCandles e ++ [c]
      /\ day (_advanceReplay e) = replayIndex e
      /\ tick (_advanceReplay e) = (tick e + 1)%Z
      /\ paused (_advanceReplay e) = paused e
      /\ intervalId (_advanceReplay e) = intervalId e
      /\ timers (_advanceReplay e) = timers e
      /\ speed (_advanceReplay e) = speed e
      /\ baseInterval (_advanceReplay e) = baseInterval e
      /\ log (_advanceReplay e)
         = log e ++ [EvTick (tick e + 1) (replayIndex e) 0 c (symbol e)
                            ((inject_Z (Z.of_nat (replayIndex e)) + 1)
                             / inject_Z (Z.of_nat (length (candles e))));
                     EvDayClose (replayIndex e)].
Proof.
  unfold _advanceReplay. destruct (candles e !! replayIndex e) as [c|].
  - right. exists c. cbn. rewrite <- app_assoc. auto 15.
  - left. auto.
Qed.

Lemma _advanceReplay_ok e : replay_ok e -> replay_ok (_advanceReplay e).
Proof.
  intros H. destruct (_advanceReplay_spec e) as [[_ ->] | (c & Hc & H1 & H2 & H3 & H4 & H5 & _)];
    [exact H|].
  destruct H as (Hr & Hle & Ht & Hd & Hne).
  unfold replay_ok. rewrite H1, H2, H3, H4, H5.
  apply lookup_lt_Some in Hc as Hlt.
  split; [rewrite Hr; symmetry; apply take_S_r, Hc|].
  split; [lia|]. split; [lia|]. split; [reflexivity|]. intros _. lia.
Qed.

Lemma _schedule_same e :
  candles (_schedule e) = candles e
  /\ replayIndex (_schedule e) = replayIndex e
  /\ replayCandles (_schedule e) = replayCandles e
  /\ day (_schedule e) = day e /\ tick (_schedule e) = tick e
  /\ log (_schedule e) = log e /\ paused (_schedule e) = paused e
  /\ speed (_schedule e) = speed e /\ baseInterval (_schedule e) = baseInterval e.
Proof. unfold _schedule. destruct (paused e) eqn:E; cbn; rewrite ?E; repeat split; reflexivity. Qed.

Lemma play_same e :
  candles (play e) = candles e
  /\ replayIndex (play e) = replayIndex e
  /\ replayCandles (play e) = replayCandles e
  /\ day (play e) = day e /\ tick (play e) = tick e.
Proof.
  unfold play. destruct (negb (paused e)); [auto|].
  destruct (length (candles e) =? 0)%nat; [auto|].
  destruct (length (candles e) <=? replayIndex e)%nat; [auto|].
  cbn. auto.
Qed.

Lemma rewind_ok e :
  replay_ok (if (0 <? length (candles (rewind e)))%nat
             then _advanceReplay (rewind e) else rewind e).
Proof.
  assert (H0 : candles (rewind e) = [] -> replay_ok (rewind e)).
  { intros H. unfold replay_ok. rewrite H. cbn.
    repeat split; try reflexivity; try lia. intros F. destruct F. reflexivity. }
  destruct (candles (rewind e)) as [|c cs] eqn:E.
  - cbn [length Nat.ltb Nat.leb]. apply H0. reflexivity.
  - cbn [length]. change (0 <? S (length cs))%nat with true. cbv iota.
    destruct (_advanceReplay_spec (rewind e))
      as [[Hn _] | (c' & Hc & H1 & H2 & H3 & H4 & H5 & _)].
    + rewrite E in Hn. cbn in Hn. discriminate.
    + unfold replay_ok. rewrite H1, H2, H3, H4, H5, E. cbn.
      rewrite E in Hc. cbn in Hc. injection Hc as <-.
      rewrite take_0. repeat split; try reflexivity; lia.
Qed.

Lemma reset_ok e : replay_ok (reset e).
Proof.
  unfold reset. cbv zeta.
  set (e2 := if (0 <? _)%nat then _ else _).
  apply (replay_ok_same e2); try reflexivity. apply rewind_ok.
Qed.

Lemma setSpeed_same s e :
  candles (setSpeed s e) = candles e
  /\ replayIndex (setSpeed s e) = replayIndex e
  /\ replayCandles (setSpeed s e) = replayCandles e
  /\ day (setSpeed s e) = day e /\ tick (setSpeed s e) = tick e.
Proof.
  unfold setSpeed. cbn [paused].
  set (e1 := mkEngine _ _ _ _ _ _ s _ _ _ _ _ _ _ _ _).
  destruct (negb (paused e)); [|cbn; auto].
  destruct (play_same (pause e1)) as (-> & -> & -> & -> & ->).
  destruct (pause_keeps e1) as (-> & -> & -> & -> & -> & _). cbn. auto.
Qed.

Lemma fire_ok id e : replay_ok e -> replay_ok (fire id e).
Proof.
  intros H. unfold fire. destruct (Timers.is_pending id (timers e)); [|exact H].
  set (e1 := set_timer _ _ e).
  assert (H1 : replay_ok e1) by exact H.
  unfold onTimeout. destruct (replayIndex e1 <? length (candles e1))%nat.
  - destruct (_schedule_same (_advanceReplay e1)) as (Ha & Hb & Hc & Hd & He & _).
    apply (replay_ok_same (_advanceReplay e1)); auto.
    apply _advanceReplay_ok, H1.
  - exact H1.
Qed.

Lemma loadSymbol_end_ok r e : replay_ok e -> replay_ok (loadSymbol_end r e).2.
Proof.
  intros H. destruct r as [m | err st | data]; cbn [loadSymbol_end snd];
    [exact H | exact H |].
  destruct (d_candles data) as [[|c cs]|]; cbn [snd]; [exact H | | exact H].
  set (e2 := emit _ _).
  destruct (_advanceReplay_spec e2)
    as [[Hn _] | (c' & Hc & H1 & H2 & H3 & H4 & H5 & _)].
  - cbn in Hn. discriminate.
  - unfold replay_ok. rewrite H1, H2, H3, H4, H5. cbn.
    cbn in Hc. injection Hc as <-. rewrite take_0.
    repeat split; try reflexivity; lia.
Qed.

Lemma step_ok e o : replay_ok e -> replay_ok (step e o).
Proof.
  intros H. destruct o as [ | | | s | id | sym rng | r]; cbn [step].
  - destruct (play_same e) as (? & ? & ? & ? & ?).
    apply (replay_ok_same e); auto.
  - destruct (pause_keeps e) as (? & ? & ? & ? & ? & _).
    apply (replay_ok_same e); auto.
  - apply reset_ok.
  - destruct (setSpeed_same s e) as (? & ? & ? & ? & ?).
    apply (replay_ok_same e); auto.
  - apply fire_ok, H.
  - destruct (loadSymbol_begin_keeps sym rng e) as (? & ? & ? & ? & ? & _).
    apply (replay_ok_same e); auto.
  - apply loadSymbol_end_ok, H.
Qed.

Lemma new_ok : replay_ok new.
Proof.
  unfold replay_ok. cbn. repeat split; try reflexivity; try lia.
  intros F. destruct F. reflexivity.
Qed.

Lemma run_ok ops e : replay_ok e -> replay_ok (run ops e).
Proof.
  unfold run. revert e. induction ops as [|o ops IH]; intros e H; [exact H|].
  cbn [fold_left]. apply IH, step_ok, H.
Qed.


Lemma getProgress_bounds e :
  (replayIndex e <= length (candles e))%nat ->
  0 <= getProgress e <= 1
  /\ (isComplete e = true <-> candles e = [] \/ getProgress e == 1).
Proof.
  intros Hle. unfold getProgress, isComplete.
  destruct (candles e) as [|c cs] eqn:E.
  - cbn. split; [split; discriminate|]. split; auto.
  - cbn [length] in *. change (S (length cs) =? 0)%nat with false. cbv iota.
    set (n := S (length cs)) in *. set (i := replayIndex e) in *.
    assert (Hn : 0 < inject_Z (Z.of_nat n)).
    { change 0 with (inject_Z 0). rewrite <- Zlt_Qlt. lia. }
    assert (Hi : 0 <= inject_Z (Z.of_nat i)).
    { change 0 with (inject_Z 0). rewrite <- Zle_Qle. lia. }
    assert (Hin : inject_Z (Z.of_nat i) <= inject_Z (Z.of_nat n)).
    { rewrite <- Zle_Qle. lia. }
    split.
    + split.
      * apply Qle_shift_div_l; [exact Hn|]. rewrite Qmult_0_l. exact Hi.
      * apply Qle_shift_div_r; [exact Hn|]. rewrite Qmult_1_l. exact Hin.
    + split.
      * intros H. apply Nat.leb_le in H. right.
        assert (i = n) as -> by lia. apply Qmult_inv_r.
        intros Hz. rewrite Hz in Hn. apply (Qlt_irrefl 0), Hn.
      * intros [H | H]; [discriminate|]. apply Nat.leb_le.
        assert (Hq : inject_Z (Z.of_nat i) == inject_Z (Z.of_nat n)).
        { rewrite <- (Qmult_1_l (inject_Z (Z.of_nat n))), <- H.
          field. intros Hz. rewrite Hz in Hn. apply (Qlt_irrefl 0), Hn. }
        unfold Qeq in Hq. cbn in Hq. lia.
Qed.

(** X21.  In every state the replay driver reaches, [getProgress()] is a
    fraction between 0 and 1, and [isComplete()] answers true exactly
    when no series is held or the progress is 1.  A driver that has not
    loaded anything is therefore complete at progress 0. *)
Theorem progress_is_a_fraction :
  forall ops : list Op,
    let e := run ops new in
    0 <= getProgress e <= 1
    /\ (isComplete e = true <-> getFullHistory e = [] \/ getProgress e == 1)
    /\ isComplete new = true /\ getProgress new == 0.
Proof.
  intros ops e. destruct (run_ok ops new new_ok) as (_ & Hle & _).
  destruct (getProgress_bounds e Hle) as [H1 H2].
  split; [exact H1|]. split; [exact H2|]. split; reflexivity.
Qed.

End ReplayMore.

Section ReplayMore2.

Import RealMarketEngine.




(** ** The timeouts of the replay driver *)

Lemma is_pending_own next id (d : Q) :
  Timers.is_pending id (Timers.mkTimers next [(id, d)]) = true.
Proof.
  unfold Timers.is_pending. apply bool_decide_eq_true. cbn.
  apply list_elem_of_singleton. reflexivity.
Qed.

Lemma well_scheduled_one e : well_scheduled e -> one_timer e.
Proof.
  unfold well_scheduled, one_timer. destruct (paused e); [auto|].
  intros (id & H1 & H2). eauto.
Qed.

(** [pause] leaves the driver paused with no timeout pending. *)
Lemma pause_stops e :
  one_timer e ->
  paused (pause e) = true /\ Timers.pending (timers (pause e)) = []
  /\ speed (pause e) = speed e /\ baseInterval (pause e) = baseInterval e.
Proof.
  destruct e as [sy si cs ri rc pa sp iid bi ld er rg dy tk [next pend] lg].
  unfold one_timer, pause.
  cbn [paused timers intervalId Timers.pending set_paused].
  destruct pa.
  - intros ->. destruct iid; cbn; auto.
  - intros (id & d & -> & ->). cbn [set_timer timers]. rewrite clear_own_timer.
    cbn. auto.
Qed.

(** [play] on a paused driver with nothing pending either returns at once
    or asks for one timeout with the delay of the current speed. *)
Lemma play_starts e :
  paused e = true -> Timers.pending (timers e) = [] ->
  well_scheduled (play e)
  /\ speed (play e) = speed e /\ baseInterval (play e) = baseInterval e
  /\ (paused (play e) = false -> (replayIndex e < length (candles e))%nat).
Proof.
  destruct e as [sy si cs ri rc pa sp iid bi ld er rg dy tk [next pend] lg].
  cbn [paused timers Timers.pending]. intros -> ->.
  unfold well_scheduled, play. cbn [paused negb candles replayIndex].
  destruct (length cs =? 0)%nat; [cbn; auto; split; [reflexivity|]; split; [reflexivity|]; split; [reflexivity|]; discriminate|].
  destruct (length cs <=? ri)%nat eqn:E.
  - cbn. split; [reflexivity|]. split; [reflexivity|]. split; [reflexivity|].
    discriminate.
  - apply Nat.leb_gt in E. cbn. eauto 6.
Qed.

Lemma well_scheduled_same e e' :
  paused e' = paused e -> timers e' = timers e -> intervalId e' = intervalId e ->
  speed e' = speed e -> baseInterval e' = baseInterval e ->
  well_scheduled e -> well_scheduled e'.
Proof.
  unfold well_scheduled, delay. intros -> -> -> -> ->. auto.
Qed.

Lemma _schedule_scheduled e :
  Timers.pending (timers e) = [] -> well_scheduled (_schedule e).
Proof.
  destruct e as [sy si cs ri rc pa sp iid bi ld er rg dy tk [next pend] lg].
  cbn [timers Timers.pending]. intros ->.
  unfold well_scheduled, _schedule. cbn [paused]. destruct pa; cbn; eauto.
Qed.

Lemma fire_well_scheduled id e :
  well_scheduled e -> well_scheduled (fire id e).
Proof.
  intros H. unfold fire.
  destruct (Timers.is_pending id (timers e)) eqn:Hpend; [|exact H].
  destruct e as [sy si cs ri rc pa sp iid bi ld er rg dy tk [next pend] lg].
  unfold well_scheduled, delay in H.
  cbn [paused timers intervalId Timers.pending speed baseInterval] in H, Hpend.
  cbn [timers intervalId].
  destruct pa.
  - subst pend. unfold Timers.is_pending in Hpend.
    apply bool_decide_eq_true in Hpend. cbn in Hpend.
    apply elem_of_nil in Hpend. destruct Hpend.
  - destruct H as (id0 & -> & ->).
    apply is_pending_single in Hpend as ->.
    cbn [set_timer timers]. rewrite clear_own_timer.
    unfold onTimeout. cbn [replayIndex candles set_timer].
    destruct (ri <? length cs)%nat.
    + apply _schedule_scheduled.
      match goal with |- context [_advanceReplay ?x] =>
        destruct (_advanceReplay_spec x)
          as [[_ ->] | (c & _ & _ & _ & _ & _ & _ & _ & _ & -> & _)] end;
        reflexivity.
    + unfold well_scheduled. cbn. reflexivity.
Qed.

Lemma setSpeed_well_scheduled s e :
  well_scheduled e ->
  well_scheduled (setSpeed s e) /\ speed (setSpeed s e) = s.
Proof.
  intros H. apply well_scheduled_one in H.
  unfold setSpeed. cbn [paused].
  set (e1 := mkEngine _ _ _ _ _ _ s _ _ _ _ _ _ _ _ _).
  assert (H1 : one_timer e1) by exact H.
  destruct (paused e) eqn:Hp; cbn [negb].
  - split; [|reflexivity]. exact H1.
  - destruct (pause_stops e1 H1) as (Hpa & Hti & Hsp & _).
    destruct (play_starts (pause e1) Hpa Hti) as (Hw & Hsp' & _).
    split; [exact Hw|]. rewrite Hsp', Hsp. reflexivity.
Qed.

Lemma pause_well_scheduled e : one_timer e -> well_scheduled (pause e).
Proof.
  intros H. destruct (pause_stops e H) as (Hp & Ht & _).
  unfold well_scheduled. rewrite Hp. exact Ht.
Qed.

Lemma _advanceReplay_well_scheduled e :
  well_scheduled e -> well_scheduled (_advanceReplay e).
Proof.
  intros H.
  destruct (_advanceReplay_spec e)
    as [[_ ->] | (c & _ & _ & _ & _ & _ & _ & Hp & Hi & Ht & Hs & Hb & _)];
    [exact H|].
  apply (well_scheduled_same e); assumption.
Qed.

Lemma reset_well_scheduled e : one_timer e -> well_scheduled (reset e).
Proof.
  intros H. apply pause_well_scheduled in H.
  unfold reset. cbv zeta.
  set (e1 := rewind (pause e)).
  assert (H1 : well_scheduled e1) by exact H.
  set (e2 := if (0 <? _)%nat then _ else _).
  assert (H2 : well_scheduled e2).
  { unfold e2. destruct (0 <? _)%nat; [apply _advanceReplay_well_scheduled|]; exact H1. }
  exact H2.
Qed.

Lemma loadSymbol_begin_well_scheduled sym rng e :
  one_timer e -> well_scheduled (loadSymbol_begin sym rng e).
Proof.
  intros H. apply pause_well_scheduled in H. exact H.
Qed.

Lemma loadSymbol_end_well_scheduled r e :
  well_scheduled e -> well_scheduled (loadSymbol_end r e).2.
Proof.
  intros H. destruct r as [m | err st | data]; cbn [loadSymbol_end snd];
    [exact H | exact H |].
  destruct (d_candles data) as [[|c cs]|]; cbn [snd]; [exact H | | exact H].
  apply _advanceReplay_well_scheduled. exact H.
Qed.

Lemma play_well_scheduled e : well_scheduled e -> well_scheduled (play e).
Proof.
  intros H. destruct (paused e) eqn:Hp.
  - apply play_starts; [exact Hp|].
    unfold well_scheduled in H. rewrite Hp in H. exact H.
  - unfold play. rewrite Hp. exact H.
Qed.

Lemma replay_step_scheduled e o :
  well_scheduled e -> well_scheduled (step e o).
Proof.
  intros H. destruct o as [ | | | s | id | sym rng | r]; cbn [step].
  - apply play_well_scheduled, H.
  - apply pause_well_scheduled, well_scheduled_one, H.
  - apply reset_well_scheduled, well_scheduled_one, H.
  - apply setSpeed_well_scheduled, H.
  - apply fire_well_scheduled, H.
  - apply loadSymbol_begin_well_scheduled, well_scheduled_one, H.
  - apply loadSymbol_end_well_scheduled, H.
Qed.

Lemma replay_run_scheduled ops e :
  well_scheduled e -> well_scheduled (run ops e).
Proof.
  unfold run. revert e. induction ops as [|o ops IH]; intros e H; [exact H|].
  cbn [fold_left]. apply IH, replay_step_scheduled, H.
Qed.

Lemma new_well_scheduled : well_scheduled new.
Proof. reflexivity. Qed.

End ReplayMore2.

Section ReplayMore3.

Import RealMarketEngine.

Lemma _advanceReplay_knobs e :
  speed (_advanceReplay e) = speed e
  /\ baseInterval (_advanceReplay e) = baseInterval e.
Proof.
  destruct (_advanceReplay_spec e)
    as [[_ ->] | (c & _ & _ & _ & _ & _ & _ & _ & _ & _ & Hs & Hb & _)]; auto.
Qed.

Lemma pause_knobs e :
  speed (pause e) = speed e /\ baseInterval (pause e) = baseInterval e.
Proof. unfold pause. cbn. destruct (intervalId e); cbn; auto. Qed.

Lemma play_knobs e :
  speed (play e) = speed e /\ baseInterval (play e) = baseInterval e.
Proof.
  unfold play. destruct (negb (paused e)); [auto|].
  destruct (length (candles e) =? 0)%nat; [auto|].
  destruct (length (candles e) <=? replayIndex e)%nat; [auto|].
  cbn [emit speed baseInterval].
  destruct (_schedule_same (set_paused false e)) as (_ & _ & _ & _ & _ & _ & _ & -> & ->).
  auto.
Qed.

Lemma step_knobs e o :
  speed (step e o) = match o with OpSetSpeed s => s | _ => speed e end
  /\ baseInterval (step e o) = baseInterval e.
Proof.
  destruct o as [ | | | s | id | sym rng | r]; cbn [step].
  - apply play_knobs.
  - apply pause_knobs.
  - unfold reset. cbv zeta. cbn [emit speed baseInterval].
    destruct (0 <? _)%nat.
    + destruct (_advanceReplay_knobs (rewind (pause e))) as [-> ->].
      apply (pause_knobs e).
    + apply (pause_knobs e).
  - unfold setSpeed. cbn [paused].
    set (e1 := mkEngine _ _ _ _ _ _ s _ _ _ _ _ _ _ _ _).
    destruct (negb (paused e)); [|auto].
    destruct (play_knobs (pause e1)) as [-> ->]. apply (pause_knobs e1).
  - unfold fire. destruct (Timers.is_pending id (timers e)); [|auto].
    unfold onTimeout. destruct (_ <? _)%nat; [|auto].
    match goal with |- context [_schedule ?x] =>
      destruct (_schedule_same x) as (_ & _ & _ & _ & _ & _ & _ & -> & ->) end.
    match goal with |- context [_advanceReplay ?x] =>
      destruct (_advanceReplay_knobs x) as [-> ->] end.
    auto.
  - unfold loadSymbol_begin. cbn [emit speed baseInterval]. apply pause_knobs.
  - destruct r as [m | err st | data]; cbn [loadSymbol_end snd]; [auto | auto |].
    destruct (d_candles data) as [[|c cs]|]; cbn [snd]; [auto | | auto].
    match goal with |- context [_advanceReplay ?x] =>
      destruct (_advanceReplay_knobs x) as [-> ->] end.
    auto.
Qed.

Lemma run_knobs ops e :
  Forall positive_speed ops -> 0 < speed e ->
  0 < speed (run ops e) /\ baseInterval (run ops e) = baseInterval e.
Proof.
  intros Hops. unfold run. revert e.
  induction Hops as [|o ops Ho _ IH]; intros e Hs; [auto|].
  cbn [fold_left]. destruct (step_knobs e o) as [H1 H2].
  destruct (IH (step e o)) as [H3 H4].
  - rewrite H1. destruct o; try exact Hs. exact Ho.
  - split; [exact H3|]. rewrite H4. exact H2.
Qed.

(** X23.  The replay driver keeps the timer discipline of the simulator:
    in every state it reaches by play, pause, reset, changes to a positive
    speed, timeouts firing and loads, no timeout is pending while it is
    paused, and while it is playing exactly one is pending, the one kept
    in [intervalId], asked with [Math.max(10, 800 / speed)] milliseconds
    for the speed current at that moment. *)
Theorem replay_timer_discipline :
  forall ops : list Op,
    Forall positive_speed ops ->
    let e := run ops new in
    0 < speed e
    /\ (paused e = true -> Timers.pending (timers e) = [])
    /\ (paused e = false ->
        exists id, intervalId e = Some id
                   /\ Timers.pending (timers e)
                      = [(id, Math_max 10 (800 / speed e))]).
Proof.
  intros ops Hops e.
  destruct (run_knobs ops new Hops eq_refl) as [Hs Hb]. fold e in Hs, Hb.
  pose proof (replay_run_scheduled ops new new_well_scheduled) as Hw.
  fold e in Hw. unfold well_scheduled, delay in Hw. rewrite Hb in Hw.
  split; [exact Hs|]. split.
  - intros Hp. rewrite Hp in Hw. exact Hw.
  - intros Hp. rewrite Hp in Hw. exact Hw.
Qed.

Lemma replay_timer_discipline_witness :
  let e := run [OpLoadEnd (Ok (mkData (mkInfo "X" "USD" "NYSE" "EQUITY" 3 2)
                                  (Some [mkCandle "2024-01-02" 1 4 1 3 10;
                                         mkCandle "2024-01-03" 3 5 2 4 20])));
                OpSetSpeed 100; OpPlay] new in
  paused e = false /\ Timers.pending (timers e) = [(1%positive, 10)].
Proof.
  intros e.
  assert (Hops : Forall positive_speed
            [OpLoadEnd (Ok (mkData (mkInfo "X" "USD" "NYSE" "EQUITY" 3 2)
                                  (Some [mkCandle "2024-01-02" 1 4 1 3 10;
                                         mkCandle "2024-01-03" 3 5 2 4 20])));
             OpSetSpeed 100; OpPlay]).
  { repeat constructor. }
  destruct (replay_timer_discipline _ Hops) as (_ & _ & H). fold e in H.
  assert (Hp : paused e = false) by (vm_compute; reflexivity).
  split; [exact Hp|].
  destruct (H Hp) as (id & Hid & Hpend).
  assert (Hid' : intervalId e = Some 1%positive) by (vm_compute; reflexivity).
  assert (Hsp : speed e = 100) by (vm_compute; reflexivity).
  rewrite Hpend. rewrite Hid' in Hid. injection Hid as <-. rewrite Hsp.
  reflexivity.
Defined.

(** ** A whole replay *)

(** While the driver is playing, firing the pending timeout runs the
    callback of [_schedule] on a table without that timeout. *)
Lemma fire_next_playing e id d :
  intervalId e = Some id -> Timers.pending (timers e) = [(id, d)] ->
  fire_next e
  = onTimeout (set_timer (Some id) (Timers.mkTimers (Timers.nextId (timers e)) []) e).
Proof.
  destruct e as [sy si cs ri rc pa sp iid bi ld er rg dy tk [next pend] lg].
  cbn [intervalId timers Timers.pending Timers.nextId]. intros -> ->.
  unfold fire_next, fire. cbn [timers Timers.pending intervalId].
  rewrite is_pending_own, clear_own_timer. reflexivity.
Qed.

Lemma fire_next_idle e : Timers.pending (timers e) = [] -> fire_next e = e.
Proof. unfold fire_next. intros ->. reflexivity. Qed.

Section WholeReplayFacts.

Variable series : list Candle.
Variable before : list Event.

Lemma announced_app l1 l2 : announced (l1 ++ l2) = announced l1 ++ announced l2.
Proof. apply omap_app. Qed.

Lemma replaying_next n e :
  (n < length series)%nat -> replaying series before n e -> replaying series before (S n) (fire_next e).
Proof.
  intros Hn (Hc & Hi & Hr & Hp & (id & d & Hid & Hpend) & evs & Hl & Ha & Hf).
  rewrite (fire_next_playing e id d Hid Hpend).
  set (e1 := set_timer _ _ e).
  unfold onTimeout.
  assert (Hlt : (replayIndex e1 <? length (candles e1))%nat = true).
  { apply Nat.ltb_lt. cbn. rewrite Hc, Hi. exact Hn. }
  rewrite Hlt.
  destruct (_advanceReplay_spec e1)
    as [[Hnone _] | (c & Hsome & H1 & H2 & H3 & H4 & H5 & H6 & H7 & H8 & H9 & H10 & H11)].
  { cbn in Hnone. rewrite Hc, Hi in Hnone.
    apply lookup_ge_None in Hnone. lia. }
  cbn [e1 set_timer candles replayIndex] in Hsome. rewrite Hc, Hi in Hsome.
  set (e2 := _advanceReplay e1) in *.
  destruct (_schedule_same e2) as (S1 & S2 & S3 & _ & _ & S6 & S7 & _).
  unfold replaying. rewrite S1, S2, S3, S6, S7, H1, H2, H3, H6, H11.
  cbn [e1 set_timer candles replayIndex replayCandles paused log].
  rewrite Hc, Hi, Hr, Hp, Hl.
  split; [reflexivity|]. split; [reflexivity|].
  split; [symmetry; apply take_S_r, Hsome|]. split; [reflexivity|].
  split.
  - unfold _schedule. rewrite H6. cbn [e1 set_timer paused]. rewrite Hp.
    rewrite H8. cbn. eauto.
  - eexists. split; [rewrite <- app_assoc; reflexivity|].
    rewrite announced_app, Ha. split.
    + cbn. symmetry. apply take_S_r, Hsome.
    + rewrite filter_app, Hf. reflexivity.
Qed.

Lemma replaying_ends e :
  replaying series before (length series) e ->
  replayed series before (fire_next e)
  /\ log (fire_next e) = log e ++ [EvComplete (length series)].
Proof.
  intros (Hc & Hi & Hr & Hp & (id & d & Hid & Hpend) & evs & Hl & Ha & Hf).
  rewrite (fire_next_playing e id d Hid Hpend).
  set (e1 := set_timer _ _ e).
  unfold onTimeout.
  assert (Hge : (replayIndex e1 <? length (candles e1))%nat = false).
  { apply Nat.ltb_ge. cbn. rewrite Hc, Hi. lia. }
  rewrite Hge. cbn [e1 set_timer candles]. rewrite Hc.
  split; [|reflexivity].
  unfold replayed. cbn. rewrite Hc, Hi, Hr, Hl, firstn_all.
  repeat split.
  exists (evs ++ [EvComplete (length series)]).
  split; [symmetry; apply app_assoc|].
  rewrite announced_app, Ha, firstn_all. cbn. apply app_nil_r.
Qed.

Lemma replayed_rests e :
  replayed series before e -> play e = e /\ fire_next e = e /\ isComplete e = true.
Proof.
  intros (Hc & Hi & Hr & Hp & Hpend & _).
  split; [|split].
  - unfold play. rewrite Hp. cbn [negb].
    destruct (length (candles e) =? 0)%nat; [reflexivity|].
    rewrite Hc, Hi, Nat.leb_refl. reflexivity.
  - apply fire_next_idle, Hpend.
  - unfold isComplete. rewrite Hc, Hi. apply Nat.leb_refl.
Qed.

Lemma replaying_runs k n e :
  (n + k <= length series)%nat -> replaying series before n e ->
  replaying series before (n + k) (Nat.iter k fire_next e).
Proof.
  induction k as [|k IH]; intros Hle H.
  - rewrite Nat.add_0_r. exact H.
  - cbn [Nat.iter nat_rect]. replace (n + S k)%nat with (S (n + k)) by lia.
    apply replaying_next; [lia|]. apply IH; [lia | exact H].
Qed.

End WholeReplayFacts.

End ReplayMore3.

Section ReplayMore4.

Import RealMarketEngine.

Lemma replaying_since series before pre n e :
  announced pre = [] -> filter (fun ev => is_complete ev = true) pre = [] ->
  replaying series (before ++ pre) n e -> replaying series before n e.
Proof.
  intros Hpre Hfil (Hc & Hi & Hr & Hp & Ht & evs & Hl & Ha & Hf).
  unfold replaying. repeat (split; [assumption|]).
  exists (pre ++ evs). split; [rewrite Hl; symmetry; apply app_assoc|].
  rewrite announced_app, Hpre, filter_app, Hfil, Hf. auto.
Qed.

(** What a successful load leaves behind. *)
Lemma loaded_spec info c cs e :
  let e' := (loadSymbol_end (Ok (mkData info (Some (c :: cs)))) e).2 in
  candles e' = c :: cs /\ replayIndex e' = 1%nat /\ replayCandles e' = [c]
  /\ paused e' = paused e /\ timers e' = timers e
  /\ exists evs, log e' = log e ++ evs /\ announced evs = [c]
                 /\ filter (fun ev => is_complete ev = true) evs = [].
Proof.
  cbv zeta. cbn [loadSymbol_end d_candles snd].
  set (e2 := emit _ _).
  assert (Hc2 : candles e2 = c :: cs) by reflexivity.
  assert (Hi2 : replayIndex e2 = 0%nat) by reflexivity.
  assert (Hr2 : replayCandles e2 = []) by reflexivity.
  assert (Hp2 : paused e2 = paused e) by reflexivity.
  assert (Ht2 : timers e2 = timers e) by reflexivity.
  assert (Hl2 : log e2 = log e ++ [EvLoaded (symbol e) info (length (c :: cs))])
    by reflexivity.
  clearbody e2.
  destruct (_advanceReplay_spec e2)
    as [[Hn _] | (c0 & Hc & H1 & H2 & H3 & _ & _ & H6 & _ & H8 & _ & _ & H11)].
  - rewrite Hc2, Hi2 in Hn. discriminate.
  - rewrite Hc2, Hi2 in Hc. injection Hc as <-.
    rewrite H1, H2, H3, H6, H8, H11, Hc2, Hi2, Hr2, Hp2, Ht2, Hl2.
    repeat (split; [reflexivity|]).
    eexists. split; [rewrite <- app_assoc; reflexivity|].
    split; reflexivity.
Qed.

(** [play] on a paused driver that waits for nothing and has candles left
    to reveal starts the replay. *)
Lemma play_spec e :
  paused e = true -> Timers.pending (timers e) = [] ->
  (replayIndex e < length (candles e))%nat ->
  paused (play e) = false
  /\ (exists id d, intervalId (play e) = Some id
                   /\ Timers.pending (timers (play e)) = [(id, d)])
  /\ log (play e) = log e ++ [EvPlay].
Proof.
  destruct e as [sy si cs ri rc pa sp iid bi ld er rg dy tk [next pend] lg].
  cbn [paused timers Timers.pending replayIndex candles log].
  intros -> -> Hlt. unfold play. cbn [paused negb candles replayIndex].
  rewrite (proj2 (Nat.eqb_neq (length cs) 0)) by lia.
  rewrite (proj2 (Nat.leb_gt (length cs) ri)) by lia.
  cbn. eauto 6.
Qed.

(** A successful load into a paused driver that waits for nothing shows
    the first candle; [play] then starts the replay if there is a second
    candle. *)
Lemma loaded_then_play info c c' cs e :
  paused e = true -> Timers.pending (timers e) = [] ->
  replaying (c :: c' :: cs) (log e) 1
    (play (loadSymbol_end (Ok (mkData info (Some (c :: c' :: cs)))) e).2).
Proof.
  intros Hp Ht.
  destruct (loaded_spec info c (c' :: cs) e)
    as (L1 & L2 & L3 & L4 & L5 & evs & L6 & L7 & L8).
  set (e' := (loadSymbol_end _ e).2) in *. clearbody e'.
  rewrite Hp in L4.
  assert (Hpend : Timers.pending (timers e') = []) by (rewrite L5; exact Ht).
  assert (Hlt : (replayIndex e' < length (candles e'))%nat)
    by (rewrite L1, L2; cbn; lia).
  destruct (play_spec e' L4 Hpend Hlt) as (P1 & P2 & P3).
  destruct (play_same e') as (S1 & S2 & S3 & _).
  unfold replaying. rewrite S1, S2, S3, L1, L2, L3, P1, P3, L6.
  repeat (split; [first [reflexivity | exact P2]|]).
  exists (evs ++ [EvPlay]). split; [symmetry; apply app_assoc|].
  rewrite announced_app, filter_app, L7, L8. split; reflexivity.
Qed.

Lemma loaded_single info c e :
  paused e = true -> Timers.pending (timers e) = [] ->
  let e' := (loadSymbol_end (Ok (mkData info (Some [c]))) e).2 in
  replayed [c] (log e) e'
  /\ exists evs, log e' = log e ++ evs
                 /\ filter (fun ev => is_complete ev = true) evs = [].
Proof.
  intros Hp Ht.
  destruct (loaded_spec info c [] e)
    as (L1 & L2 & L3 & L4 & L5 & evs & L6 & L7 & L8).
  cbv zeta. set (e' := (loadSymbol_end _ e).2) in *. clearbody e'.
  split; [|exists evs; auto].
  unfold replayed. rewrite L1, L2, L3, L4, L5, Hp, Ht.
  repeat (split; [reflexivity|]).
  exists evs. auto.
Qed.

Lemma loadSymbol_begin_idle sym rng e :
  one_timer e ->
  paused (loadSymbol_begin sym rng e) = true
  /\ Timers.pending (timers (loadSymbol_begin sym rng e)) = []
  /\ log (loadSymbol_begin sym rng e)
     = log e ++ [EvPause; EvLoading (toUpperCase sym)].
Proof.
  intros H. destruct (pause_stops e H) as (Hp & Ht & _).
  destruct (loadSymbol_begin_keeps sym rng e) as (_ & _ & _ & _ & _ & Hp' & Hl).
  split; [exact Hp'|]. split; [exact Ht | exact Hl].
Qed.

(** X24.  A whole replay.  Take the driver in any state it can reach and
    load a series of at least two candles; the first candle is shown at
    once.  After [play], each timeout that fires reveals exactly the next
    candle: after [k] of them, for [k] less than the length of the series,
    the first [k + 1] candles are revealed and the driver is still
    playing.  The timeout after the last candle reveals nothing, pauses
    the driver and signals [complete] with the number of candles.  From
    the load to that point every candle of the series was announced by a
    [tick] signal exactly once, in order, and [complete] was signalled
    once, as the last signal.  The driver then waits for no timeout and
    [play()] does nothing any more. *)
Theorem whole_replay_announces_each_candle_once :
  forall (ops : list Op) (sym rng : string) (info : SymbolInfo)
         (c c' : Candle) (cs : list Candle),
    let series := c :: c' :: cs in
    let e := run ops new in
    let e0 := play (loadSymbol sym rng (Ok (mkData info (Some series))) e).2 in
    let done := Nat.iter (length series) fire_next e0 in
    (forall k, (k < length series)%nat ->
       getBacktestData (Nat.iter k fire_next e0) = take (S k) series
       /\ paused (Nat.iter k fire_next e0) = false)
    /\ getBacktestData done = series
    /\ paused done = true /\ isComplete done = true
    /\ Timers.pending (timers done) = []
    /\ play done = done /\ fire_next done = done
    /\ exists evs,
         log done = log e ++ evs ++ [EvComplete (length series)]
         /\ announced evs = series
         /\ filter (fun ev => is_complete ev = true) evs = [].
Proof.
  intros ops sym rng info c c' cs series e e0 done.
  pose proof (well_scheduled_one _
                (replay_run_scheduled ops new new_well_scheduled)) as H1.
  fold e in H1.
  destruct (loadSymbol_begin_idle sym rng e H1) as (Hp & Ht & Hl).
  pose proof (loaded_then_play info c c' cs _ Hp Ht) as H0.
  rewrite Hl in H0.
  apply replaying_since in H0; [|reflexivity|reflexivity].
  fold series in H0. change (play _) with e0 in H0.
  assert (Hk : forall k, (k < length series)%nat ->
             replaying series (log e) (S k) (Nat.iter k fire_next e0)).
  { intros k Hlt. apply (replaying_runs series (log e) k 1 e0); [lia | exact H0]. }
  split.
  { intros k Hlt. destruct (Hk k Hlt) as (_ & _ & Hr & Hpa & _).
    split; [exact Hr | exact Hpa]. }
  assert (Hlast : replaying series (log e) (length series)
                    (Nat.iter (length cs + 1) fire_next e0)).
  { replace (length series) with (S (length cs + 1)) by (cbn; lia).
    apply Hk. cbn. lia. }
  assert (Hdone : done = fire_next (Nat.iter (length cs + 1) fire_next e0)).
  { unfold done. replace (length series) with (S (length cs + 1)) by (cbn; lia).
    reflexivity. }
  destruct (replaying_ends series (log e) _ Hlast) as [Hd Hlog].
  rewrite <- Hdone in Hd, Hlog.
  destruct (replayed_rests series (log e) done Hd) as (Hplay & Hfire & Hcomp).
  destruct Hd as (_ & _ & Hr & Hpa & Hpend & _).
  destruct Hlast as (_ & _ & _ & _ & _ & evs & Hl' & Ha & Hf).
  split; [exact Hr|]. split; [exact Hpa|]. split; [exact Hcomp|].
  split; [exact Hpend|]. split; [exact Hplay|]. split; [exact Hfire|].
  exists evs. rewrite Hlog, Hl', <- app_assoc.
  split; [reflexivity|]. split; [|exact Hf].
  rewrite Ha. apply firstn_all.
Qed.

(** X25.  A replay can end without the [complete] signal.  While the
    driver is playing and every candle is already revealed, the pending
    timeout would pause it and signal [complete]; a change of speed at
    that moment pauses it too, with a [pause] signal only: [setSpeed]
    stops the timeout and its [play()] returns at once, so no timeout is
    left to fire and [complete] is not signalled. *)
Theorem speed_change_after_last_candle :
  forall (ops : list Op) (s : Q),
    let e := run ops new in
    paused e = false -> isComplete e = true ->
    (paused (fire_next e) = true
     /\ log (fire_next e) = log e ++ [EvComplete (length (getFullHistory e))])
    /\ let e' := setSpeed s e in
       paused e' = true
       /\ Timers.pending (timers e') = []
       /\ log e' = log e ++ [EvPause]
       /\ fire_next e' = e' /\ play e' = e'.
Proof.
  intros ops s e Hp Hc.
  pose proof (replay_run_scheduled ops new new_well_scheduled) as Hw.
  fold e in Hw. pose proof (well_scheduled_one _ Hw) as H1.
  unfold well_scheduled in Hw. rewrite Hp in Hw. destruct Hw as (id & Hid & Hpend).
  unfold isComplete in Hc.
  split.
  - rewrite (fire_next_playing e id _ Hid Hpend). unfold onTimeout.
    cbn [set_timer replayIndex candles].
    rewrite (proj2 (Nat.ltb_ge _ _)) by (apply Nat.leb_le, Hc).
    cbn. auto.
  - cbv zeta. unfold setSpeed. cbn [paused]. rewrite Hp. cbn [negb].
    set (e1 := mkEngine _ _ _ _ _ _ s _ _ _ _ _ _ _ _ _).
    assert (H1' : one_timer e1).
    { unfold one_timer. cbn [e1 paused]. exists id, (delay e). auto. }
    destruct (pause_stops e1 H1') as (Hpa & Hti & _).
    destruct (pause_keeps e1) as (Hca & Hri & _ & _ & _ & Hlg).
    assert (Hplay : play (pause e1) = pause e1).
    { unfold play. rewrite Hpa. cbn [negb]. rewrite Hca, Hri.
      destruct (length (candles e1) =? 0)%nat; [reflexivity|].
      change (candles e1) with (candles e). change (replayIndex e1) with (replayIndex e).
      rewrite Hc. reflexivity. }
    rewrite Hplay. split; [exact Hpa|]. split; [exact Hti|].
    split; [exact Hlg|]. split; [apply fire_next_idle, Hti | exact Hplay].
Qed.

Lemma speed_change_after_last_candle_witness :
  let e := run [OpLoadEnd (Ok (mkData (mkInfo "X" "USD" "NYSE" "EQUITY" 3 2)
                                  (Some [mkCandle "2024-01-02" 1 4 1 3 10;
                                         mkCandle "2024-01-03" 3 5 2 4 20])));
                OpPlay; OpFire 1] new in
  replayCandles e = candles e
  /\ paused (setSpeed 2 e) = true
  /\ Timers.pending (timers (setSpeed 2 e)) = [].
Proof.
  intros e.
  assert (Hp : paused e = false) by (vm_compute; reflexivity).
  assert (Hc : isComplete e = true) by (vm_compute; reflexivity).
  destruct (speed_change_after_last_candle _ 2 Hp Hc) as (_ & H1 & H2 & _).
  split; [vm_compute; reflexivity|]. split; [exact H1 | exact H2].
Defined.

(** X26.  A series of a single candle is never replayed: the load shows
    its only candle, and then the driver is complete and paused,
    [play()] returns at once, no timeout is pending, and from the load on
    [complete] is not signalled. *)
Theorem single_candle_series_is_complete_at_once :
  forall (ops : list Op) (sym rng : string) (info : SymbolInfo) (c : Candle),
    let e := run ops new in
    let e' := (loadSymbol sym rng (Ok (mkData info (Some [c]))) e).2 in
    getBacktestData e' = [c] /\ isComplete e' = true /\ paused e' = true
    /\ play e' = e' /\ fire_next e' = e'
    /\ exists evs, log e' = log e ++ evs
                   /\ announced evs = [c]
                   /\ filter (fun ev => is_complete ev = true) evs = [].
Proof.
  intros ops sym rng info c e e'.
  pose proof (well_scheduled_one _
                (replay_run_scheduled ops new new_well_scheduled)) as H1.
  fold e in H1.
  destruct (loadSymbol_begin_idle sym rng e H1) as (Hp & Ht & Hl).
  destruct (loaded_single info c _ Hp Ht) as (Hd & evs & Hlog & Hf).
  change (loadSymbol_end _ _).2 with e' in Hd, Hlog.
  destruct (replayed_rests _ _ _ Hd) as (Hplay & Hfire & Hcomp).
  destruct Hd as (_ & _ & Hr & Hpa & _ & evs' & Hlog' & Ha).
  split; [exact Hr|]. split; [exact Hcomp|]. split; [exact Hpa|].
  split; [exact Hplay|]. split; [exact Hfire|].
  rewrite Hlog' in Hlog. apply app_inv_head in Hlog. subst evs'.
  exists ([EvPause; EvLoading (toUpperCase sym)] ++ evs).
  rewrite Hlog', Hl, <- app_assoc.
  split; [reflexivity|]. split.
  - rewrite announced_app. exact Ha.
  - rewrite filter_app, Hf. reflexivity.
Qed.

End ReplayMore4.

Section EvaluationMore.

Import AIEngine.

Lemma _scoreMove_nonneg m prices p : 0 <= _scoreMove m prices p.
Proof. unfold _scoreMove. apply Math_max_l. Qed.

Lemma scored_nonneg gen mk p m : m ∈ scored gen mk p -> 0 <= score m.
Proof.
  unfold scored. intros H. apply list_elem_of_In, in_flat_map in H.
  destruct H as (sym & _ & H). apply in_map_iff in H.
  destruct H as (m0 & <- & _). cbn. apply _scoreMove_nonneg.
Qed.

Lemma _executeTrade_keeps best mk now e :
  thinkingLog (_executeTrade best mk now e) = thinkingLog e
  /\ tradeFrequency (_executeTrade best mk now e) = tradeFrequency e
  /\ lastEvalTick (_executeTrade best mk now e) = lastEvalTick e
  /\ confidence (_executeTrade best mk now e) = confidence e
  /\ depth (_executeTrade best mk now e) = depth e
  /\ e_strategy (_executeTrade best mk now e) = e_strategy e.
Proof.
  unfold _executeTrade.
  destruct (action best);
    match goal with
    | |- context [Portfolio.buy ?a ?b ?c ?d ?e ?f ?g] =>
      destruct (Portfolio.buy a b c d e f g) as [res p']
    | |- context [Portfolio.sell ?a ?b ?c ?d ?e ?f ?g] =>
      destruct (Portfolio.sell a b c d e f g) as [res p']
    | _ => idtac
    end; cbn; auto 10.
Qed.

(** The bookkeeping of one evaluation. *)
Lemma evaluate_books gen tick mk now e :
  (evaluate gen tick mk now e = (None, e)
   /\ (tick - lastEvalTick e < tradeFrequency e)%Z)
  \/ exists a e',
      evaluate gen tick mk now e = (Some a, e')
      /\ (tradeFrequency e <= tick - lastEvalTick e)%Z
      /\ a_tick a = tick /\ lastEvalTick e' = tick
      /\ tradeFrequency e' = tradeFrequency e
      /\ currentAnalysis e' = Some a
      /\ a_confidence a = confidence e'
      /\ thinkingLog e'
         = (if (50 <? length (a :: thinkingLog e))%nat
            then removelast (a :: thinkingLog e) else a :: thinkingLog e)
      /\ (forall m, m ∈ a_candidates a -> 0 <= score m)
      /\ ((a_chosen a = hold_move /\ confidence e' == 5)
          \/ (exists rest, a_candidates a = a_chosen a :: rest
                /\ threshold < score (a_chosen a)
                /\ confidence e'
                   == Math_min 99 (Math_max 10 (score (a_chosen a) * 20)))).
Proof.
  unfold evaluate.
  destruct (tick - lastEvalTick e <? tradeFrequency e)%Z eqn:Eg.
  { left. apply Z.ltb_lt in Eg. auto. }
  right. apply Z.ltb_ge in Eg. cbn [portfolio].
  assert (Hnn : forall m,
             m ∈ sort_by_score score (scored gen mk (portfolio e)) ->
             0 <= score m).
  { intros m Hm. rewrite sort_by_score_perm in Hm.
    eapply scored_nonneg, Hm. }
  destruct (sort_by_score score (scored gen mk (portfolio e)))
    as [|best rest] eqn:Es.
  - eexists _, _. split; [reflexivity|]. cbn.
    repeat (split; [first [reflexivity | assumption]|]).
    left. split; [reflexivity|]. reflexivity.
  - destruct (Qltb threshold (score best)) eqn:Et.
    + apply Qltb_lt in Et.
      match goal with |- context [_executeTrade best mk now ?x] =>
        destruct (_executeTrade_keeps best mk now x)
          as (K1 & K2 & K3 & K4 & K5 & K6);
        set (e1 := _executeTrade best mk now x) in *
      end.
      eexists _, _. split; [reflexivity|].
      cbn [a_tick lastEvalTick tradeFrequency currentAnalysis a_confidence
           thinkingLog a_candidates a_chosen confidence].
      rewrite K1, K2, K3, K4. cbn.
      repeat (split; [first [reflexivity | assumption]|]).
      right. exists rest. split; [reflexivity|]. split; [exact Et | reflexivity].
    + apply Qltb_ge in Et.
      eexists _, _. split; [reflexivity|]. cbn.
      repeat (split; [first [reflexivity | assumption]|]).
      left. split; [reflexivity|].
      unfold Math_max. apply Q.max_l. unfold threshold in Et.
      apply Qle_trans with ((1 # 10) * 10); [|discriminate].
      apply Qmult_le_compat_r; [exact Et | discriminate].
Qed.

(** X27.  The confidence shown after an evaluation.  When [evaluate]
    holds, the confidence is exactly 5: the best score is at most 0.1, so
    [Math.max(5, score * 10)] never exceeds its floor.  When it trades,
    the confidence is [score * 20] clamped to the range from 10 to 99.
    In both cases it is the confidence recorded in the returned analysis,
    and no candidate of the analysis has a negative score. *)
Theorem evaluate_confidence_range :
  forall gen tick mk now (e : t) a e',
    evaluate gen tick mk now e = (Some a, e') ->
    a_confidence a = confidence e'
    /\ (forall m, m ∈ a_candidates a -> 0 <= score m)
    /\ (a_chosen a = hold_move -> confidence e' == 5)
    /\ (a_chosen a <> hold_move ->
        10 <= confidence e' <= 99
        /\ confidence e'
           == Math_min 99 (Math_max 10 (score (a_chosen a) * 20))).
Proof.
  intros gen tick mk now e a e' H.
  destruct (evaluate_books gen tick mk now e)
    as [[H0 _] | (a0 & e0 & H0 & _ & _ & _ & _ & _ & Hc & _ & Hn & Hch)];
    rewrite H0 in H; [discriminate|].
  injection H as <- <-.
  split; [exact Hc|]. split; [exact Hn|].
  destruct Hch as [[Hh H5] | (rest & _ & Ht & Hcf)].
  - split; [intros _; exact H5|]. intros Hne. destruct (Hne Hh).
  - split.
    + intros Hh. rewrite Hh in Ht. cbn in Ht. unfold threshold in Ht.
      exfalso. revert Ht. apply Qle_not_lt. discriminate.
    + intros _. split; [|exact Hcf]. rewrite Hcf. unfold Math_min, Math_max.
      split.
      * apply Q.min_glb; [discriminate | apply Q.le_max_l].
      * apply Q.le_min_l.
Qed.

Lemma evaluate_confidence_range_witness :
  exists a e',
    evaluate (fun _ _ _ => []) 8 (mkMarket [] ∅ 0 8) 0
             (new (Portfolio.new "AI" 10000)) = (Some a, e')
    /\ confidence e' == 5.
Proof.
  destruct (evaluate (fun _ _ _ => []) 8 (mkMarket [] ∅ 0 8) 0
                     (new (Portfolio.new "AI" 10000))) as [[a|] e'] eqn:E;
    [|vm_compute in E; discriminate].
  exists a, e'. split; [reflexivity|].
  destruct (evaluate_confidence_range _ _ _ _ _ _ _ E) as (_ & _ & H & _).
  apply H. vm_compute in E. injection E as <- _. reflexivity.
Defined.

Lemma thinkingLog_cap {A} (a : A) (done : list A) (tl : list A) :
  tl = take 50 (rev done) ->
  (if (50 <? length (a :: tl))%nat then removelast (a :: tl) else a :: tl)
  = take 50 (rev (done ++ [a])).
Proof.
  intros ->. rewrite rev_app_distr. cbn [rev app].
  destruct (50 <? length (a :: take 50 (rev done)))%nat eqn:E.
  - apply Nat.ltb_lt in E. cbn [length] in E. rewrite length_take in E.
    assert (Hlen : (50 <= length (rev done))%nat) by lia.
    rewrite removelast_firstn_len. cbn [length]. rewrite length_take.
    rewrite Nat.min_l by lia. cbn [Nat.pred].
    change (a :: take 50 (rev done)) with (take 51 (a :: rev done)).
    rewrite take_take. reflexivity.
  - apply Nat.ltb_ge in E. cbn [length] in E. rewrite length_take in E.
    assert (Hlen : (length (rev done) < 50)%nat) by lia.
    rewrite !take_ge by (cbn [length]; lia). reflexivity.
Qed.

Lemma spaced_snoc gap t0 l a :
  spaced gap t0 l ->
  (default t0 (a_tick <$> last l) + gap <= a_tick a)%Z ->
  spaced gap t0 (l ++ [a]).
Proof.
  revert t0. induction l as [|b l IH]; intros t0 H Ha.
  - cbn in *. auto.
  - destruct H as [H1 H2]. cbn [app spaced]. split; [exact H1|].
    apply IH; [exact H2|].
    rewrite last_cons in Ha. destruct (last l); exact Ha.
Qed.

(** What a sequence of evaluations keeps true. *)
Lemma evaluations_books gen calls p :
  let done := (evaluations gen calls (new p)).1 in
  let e := (evaluations gen calls (new p)).2 in
  thinkingLog e = take 50 (rev done)
  /\ currentAnalysis e = last done
  /\ lastEvalTick e = default 0%Z (a_tick <$> last done)
  /\ tradeFrequency e = 8%Z
  /\ spaced 8 0 done.
Proof.
  unfold evaluations.
  set (f := fun st c => _).
  assert (H : forall calls st,
             (thinkingLog st.2 = take 50 (rev st.1)
              /\ currentAnalysis st.2 = last st.1
              /\ lastEvalTick st.2 = default 0%Z (a_tick <$> last st.1)
              /\ tradeFrequency st.2 = 8%Z
              /\ spaced 8 0 st.1) ->
             let r := fold_left f calls st in
             thinkingLog r.2 = take 50 (rev r.1)
             /\ currentAnalysis r.2 = last r.1
             /\ lastEvalTick r.2 = default 0%Z (a_tick <$> last r.1)
             /\ tradeFrequency r.2 = 8%Z
             /\ spaced 8 0 r.1).
  { clear calls. induction calls as [|c calls IH]; intros st Hst; [exact Hst|].
    cbn [fold_left]. apply IH. clear IH.
    destruct st as [done e]. cbn [fst snd] in *.
    destruct Hst as (H1 & H2 & H3 & H4 & H5).
    unfold f. cbn [fst snd].
    destruct (evaluate_books gen (c_tick c) (c_market c) (c_now c) e)
      as [[-> _] | (a & e' & -> & Hg & Ht & Hl & Hf & Hc & _ & Hlog & _)].
    - cbn [fst snd]. auto.
    - cbn [fst snd]. rewrite last_snoc. cbn.
      split; [rewrite Hlog; apply thinkingLog_cap, H1|].
      split; [exact Hc|]. split; [rewrite Hl, Ht; reflexivity|].
      split; [rewrite Hf; exact H4|].
      apply spaced_snoc; [exact H5|]. rewrite <- H3, Ht. lia. }
  apply H. cbn. repeat split.
Qed.

(** X28.  The engine's memory over any sequence of [evaluate] calls,
    from a new engine: [thinkingLog] holds the analyses returned so far,
    newest first, cut to the 50 most recent; [currentAnalysis] is the
    last one returned and [lastEvalTick] its tick; and the analyses are
    at least 8 ticks apart, the first one at tick 8 at the earliest: a
    call that comes sooner returns null. *)
Theorem thinkingLog_keeps_the_last_50 :
  forall gen (calls : list Call) (p : Portfolio.t),
    let done := (evaluations gen calls (new p)).1 in
    let e := (evaluations gen calls (new p)).2 in
    thinkingLog e = take 50 (rev done)
    /\ (length (thinkingLog e) <= 50)%nat
    /\ currentAnalysis e = last done
    /\ lastEvalTick e = default 0%Z (a_tick <$> last done)
    /\ spaced 8 0 done
    /\ forall c, (c_tick c - lastEvalTick e < 8)%Z ->
         evaluate gen (c_tick c) (c_market c) (c_now c) e = (None, e).
Proof.
  intros gen calls p done e.
  destruct (evaluations_books gen calls p) as (H1 & H2 & H3 & H4 & H5).
  fold done in H1, H2, H3, H5. fold e in H1, H2, H3, H4.
  split; [exact H1|]. split; [rewrite H1, length_take; lia|].
  split; [exact H2|]. split; [exact H3|]. split; [exact H5|].
  intros c Hc. unfold evaluate. rewrite H4.
  rewrite (proj2 (Z.ltb_lt _ _) Hc). reflexivity.
Qed.

Lemma thinkingLog_keeps_the_last_50_witness :
  let gen : Portfolio.t -> string -> gmap string Q -> list Move :=
    fun _ _ _ => [] in
  let calls := [mkCall 8 (mkMarket [] ∅ 0 8) 0; mkCall 12 (mkMarket [] ∅ 0 12) 0;
                mkCall 16 (mkMarket [] ∅ 0 16) 0] in
  let e := (evaluations gen calls (new (Portfolio.new "AI" 10000))).2 in
  lastEvalTick e = 16%Z
  /\ evaluate gen 23 (mkMarket [] ∅ 0 23) 0 e = (None, e).
Proof.
  intros gen calls e.
  destruct (thinkingLog_keeps_the_last_50 gen calls (Portfolio.new "AI" 10000))
    as (_ & _ & _ & H3 & _ & H6).
  fold e in H3, H6.
  assert (Ht : lastEvalTick e = 16%Z) by (rewrite H3; vm_compute; reflexivity).
  split; [exact Ht|].
  apply (H6 (mkCall 23 (mkMarket [] ∅ 0 23) 0)). cbn [c_tick]. rewrite Ht. lia.
Defined.

End EvaluationMore.

Section ReplayEvaluationMore.

Import RealAI.

(** An order either is refused and changes nothing, or appends its
    record to the trade history. *)
Lemma buy_result sym q price day tick now p :
  match Portfolio.buy sym q price day tick now p with
  | (None, p') => p' = p
  | (Some tr, p') => Portfolio.trades p' = Portfolio.trades p ++ [tr]
                     /\ Portfolio.t_side tr = Portfolio.BUY
  end.
Proof.
  unfold Portfolio.buy, Portfolio.buy_fill.
  repeat match goal with |- context [if ?b then _ else _] => destruct b end;
    cbn; auto.
Qed.

Lemma sell_result sym q price day tick now p :
  match Portfolio.sell sym q price day tick now p with
  | (None, p') => p' = p
  | (Some tr, p') => Portfolio.trades p' = Portfolio.trades p ++ [tr]
                     /\ Portfolio.t_side tr = Portfolio.SELL
  end.
Proof.
  unfold Portfolio.sell. destruct (Portfolio.holdings p !! sym); [|reflexivity].
  repeat match goal with |- context [if ?b then _ else _] => destruct b end;
    cbn; auto.
Qed.

Lemma select_books generated data now app :
  let o := (select generated data now app).1 in
  let app' := (select generated data now app).2 in
  _realAiLastEval app' = _realAiLastEval app
  /\ match o_action o with
     | None => o = idle /\ app' = app
     | Some act =>
       threshold < o_score o
       /\ o_confidence o == Math_min 95 (Math_max 20 (o_score o * 25))
       /\ match o_result o with
          | None => app' = app
          | Some tr =>
            Portfolio.trades (realAiPortfolio app')
            = Portfolio.trades (realAiPortfolio app) ++ [tr]
            /\ realTradeMarkers app'
               = realTradeMarkers app
                 ++ [mkMarker (d_date data) act (Portfolio.t_qty tr)]
          end
     end.
Proof.
  unfold select.
  destruct (sort_by_score score generated) as [|best rest];
    [cbn; auto|].
  destruct (Qltb threshold (score best)) eqn:Et; [|cbn; auto].
  apply Qltb_lt in Et.
  destruct (action best) eqn:Ea.
  - pose proof (buy_result (d_symbol data) (qty best) (d_close data)
                  (d_day data) (d_tick data) now (realAiPortfolio app)) as Hr.
    destruct (Portfolio.buy _ _ _ _ _ _ _) as [[tr|] p']; cbn.
    + destruct Hr as [Hr _]. rewrite ?Ea. repeat split; auto; reflexivity.
    + subst p'. rewrite ?Ea. repeat split; auto; try reflexivity.
      destruct app; reflexivity.
  - pose proof (sell_result (d_symbol data) (qty best) (d_close data)
                  (d_day data) (d_tick data) now (realAiPortfolio app)) as Hr.
    destruct (Portfolio.sell _ _ _ _ _ _ _) as [[tr|] p']; cbn.
    + destruct Hr as [Hr _]. rewrite ?Ea. repeat split; auto; reflexivity.
    + subst p'. rewrite ?Ea. repeat split; auto; try reflexivity.
      destruct app; reflexivity.
Qed.

(** X29.  The evaluation of the replay mode.  It returns at once, with
    nothing changed, when fewer than 5 candles are revealed or the last
    evaluation was less than 2 days ago; otherwise it records the day.
    When it takes no action the confidence shown is 50; when it acts, the
    score is above 0.5 and the confidence is [score * 25] clamped to the
    range from 20 to 95.  A chart marker is pushed exactly when the
    ledger filled the order, and it carries the filled quantity, which
    the ledger may have clamped below the requested one: markers and
    trade records grow together, and a refused order leaves both as they
    were. *)
Theorem replay_evaluation_books :
  forall (numCandles : nat) generated data now (app : t),
    let r := _evaluateRealAI numCandles generated data now app in
    ((numCandles < 5)%nat \/ (d_day data - _realAiLastEval app < 2)%Z ->
     r = (None, app))
    /\ ((5 <= numCandles)%nat -> (2 <= d_day data - _realAiLastEval app)%Z ->
        exists o app',
          r = (Some o, app')
          /\ _realAiLastEval app' = d_day data
          /\ (o_action o = None ->
              o_confidence o == 50
              /\ realAiPortfolio app' = realAiPortfolio app
              /\ realTradeMarkers app' = realTradeMarkers app)
          /\ (forall act, o_action o = Some act ->
              (5 # 10) < o_score o
              /\ 20 <= o_confidence o <= 95
              /\ match o_result o with
                 | None =>
                   realAiPortfolio app' = realAiPortfolio app
                   /\ realTradeMarkers app' = realTradeMarkers app
                 | Some tr =>
                   Portfolio.trades (realAiPortfolio app')
                   = Portfolio.trades (realAiPortfolio app) ++ [tr]
                   /\ realTradeMarkers app'
                      = realTradeMarkers app
                        ++ [mkMarker (d_date data) act (Portfolio.t_qty tr)]
                 end)).
Proof.
  intros numCandles generated data now app r. unfold r, _evaluateRealAI.
  split.
  - intros [H | H].
    + rewrite (proj2 (Nat.ltb_lt _ _) H). reflexivity.
    + destruct (numCandles <? 5)%nat; [reflexivity|].
      rewrite (proj2 (Z.ltb_lt _ _) H). reflexivity.
  - intros H1 H2.
    rewrite (proj2 (Nat.ltb_ge _ _) H1), (proj2 (Z.ltb_ge _ _) H2).
    set (app1 := mkApp _ _ (d_day data)).
    pose proof (select_books generated data now app1) as Hs.
    destruct (select generated data now app1) as [o app2]. cbn [fst snd] in Hs.
    exists o, app2. split; [reflexivity|].
    destruct Hs as [Hl Hs]. split; [exact Hl|].
    destruct (o_action o) as [act|].
    + split; [discriminate|]. intros act' [= <-].
      destruct Hs as (Ht & Hc & Hres). split; [exact Ht|]. split.
      * rewrite Hc. unfold Math_min, Math_max. split.
        -- apply Q.min_glb; [discriminate | apply Q.le_max_l].
        -- apply Q.le_min_l.
      * destruct (o_result o) as [tr|]; [exact Hres|].
        subst app2. split; reflexivity.
    + destruct Hs as [-> ->]. split; [|discriminate].
      intros _. split; [reflexivity|]. split; reflexivity.
Qed.

Lemma replay_evaluation_books_witness :
  let app := mkApp (Portfolio.new "AI" 10000) [] (-1) in
  let data := mkTick 1 2 100 "2024-01-03" "X" in
  exists o app',
    _evaluateRealAI 5 [mkCandidate BUY 200 "BB Bounce" "below" (12 # 10)]
                    data 0 app = (Some o, app')
    /\ length (realTradeMarkers app') = 1%nat
    /\ length (Portfolio.trades (realAiPortfolio app')) = 1%nat.
Proof.
  intros app data.
  destruct (replay_evaluation_books 5
              [mkCandidate BUY 200 "BB Bounce" "below" (12 # 10)] data 0 app)
    as [_ H].
  destruct H as (o & app' & Hr & _ & _ & Hact); [lia | cbn; lia |].
  exists o, app'. split; [exact Hr|].
  assert (Ho : o_action o = Some BUY /\ exists tr, o_result o = Some tr).
  { vm_compute in Hr. injection Hr as <- _. split; [reflexivity | eauto]. }
  destruct Ho as [Ha [tr Htr]].
  destruct (Hact BUY Ha) as (_ & _ & Hres). rewrite Htr in Hres.
  destruct Hres as [-> ->]. split; reflexivity.
Defined.

End ReplayEvaluationMore.

Section StockFacts.

Import Stock.

Lemma _openDay_ok sc r s :
  let s' := _openDay sc r s in
  day_ok s' /\ (1 # 100) <= low s' /\ history s' = history s
  /\ close s' = close s /\ dayHigh s' = dayHigh s /\ dayLow s' = dayLow s.
Proof.
  cbv zeta. unfold day_ok, _openDay. cbn.
  repeat split; try apply Qle_refl. apply Math_max_l.
Qed.

Lemma _updatePrice_ok sc tick r1 r2 r3 r4 s :
  let s' := _updatePrice sc tick r1 r2 r3 r4 s in
  (day_ok s -> day_ok s')
  /\ (1 # 100) <= price s'
  /\ ((1 # 100) <= low s -> (1 # 100) <= low s')
  /\ history s' = history s
  /\ close s' = price s' /\ dayHigh s' = high s' /\ dayLow s' = low s'
  /\ change s' = price s' - open s'.
Proof.
  cbv zeta. unfold _updatePrice, day_ok.
  destruct (if Qltb 0 (_eventTicks s) then _ else _) as [[ef ev] et].
  cbn [price open high low history close dayHigh dayLow change].
  set (p := Math_max (1 # 100) _).
  assert (Hp : (1 # 100) <= p) by apply Math_max_l.
  unfold Math_max, Math_min.
  split; [|split; [exact Hp|split; [|repeat split]]].
  - intros [[H1 H2] [H3 H4]].
    pose proof (Q.le_min_l (low s) p). pose proof (Q.le_min_r (low s) p).
    pose proof (Q.le_max_l (high s) p). pose proof (Q.le_max_r (high s) p).
    repeat split; try assumption.
    + apply Qle_trans with (low s); assumption.
    + apply Qle_trans with (high s); assumption.
  - intros Hl. apply Q.min_glb; assumption.
Qed.

Lemma hit_ok h s :
  day_ok (hit h s) = day_ok s /\ low (hit h s) = low s
  /\ history (hit h s) = history s.
Proof. repeat split. Qed.

Lemma _closeDay_ok day s :
  let s' := _closeDay day s in
  day_ok s' = day_ok s /\ low s' = low s
  /\ history s' = history s ++ [mkBar day (open s) (high s) (low s) (price s) (volume s)].
Proof. repeat split. Qed.

Lemma _tick_walk tick day d s :
  walk_ok tick day s ->
  walk_ok (tick + 1) (next_day tick day) (_tick tick day d s).
Proof.
  intros (Ht & Hd & Hok & Hpos & Hbars & Htimes).
  destruct (day_of_next_tick tick Ht) as [Hdiv _].
  assert (Hday : next_day tick day
                 = (if (tick + 1 =? 0)%Z then 0 else (tick + 1 - 1) / 78)%Z).
  { unfold next_day. rewrite (proj2 (Z.eqb_neq (tick + 1) 0)) by lia.
    rewrite Hdiv, Hd. destruct ((tick mod 78 =? 0)%Z && (0 <? tick)%Z); lia. }
  assert (Hday0 : (0 <= day)%Z).
  { rewrite Hd. destruct (tick =? 0)%Z eqn:E0; [lia|].
    apply Z.eqb_neq in E0. apply Z.div_pos; lia. }
  unfold _tick.
  set (isNewDay := ((tick mod 78 =? 0)%Z && (0 <? tick)%Z)%bool) in *.
  set (s1 := if isNewDay then _closeDay day s else s).
  assert (H1 : day_ok s1 /\ low s1 = low s
               /\ Forall bar_ok (history s1)
               /\ b_time <$> history s1
                  = Z.of_nat <$> seq 0 (Z.to_nat (next_day tick day))).
  { unfold s1, next_day. fold isNewDay. destruct isNewDay eqn:E.
    - split; [exact Hok|]. split; [reflexivity|].
      apply andb_true_iff in E as [_ E]. apply Z.ltb_lt in E.
      destruct (Hpos E) as (Hl & _).
      cbn [_closeDay history]. split.
      + apply Forall_app. split; [exact Hbars|].
        constructor; [|constructor]. unfold bar_ok. cbn.
        destruct Hok as [Ho Hp]. auto.
      + rewrite fmap_app, Htimes. cbn [fmap list_fmap b_time].
        replace (Z.to_nat (day + 1)) with (S (Z.to_nat day)) by lia.
        rewrite seq_S, fmap_app. cbn. f_equal. f_equal. lia.
    - auto. }
  destruct H1 as (Hok1 & Hlow1 & Hbars1 & Htimes1).
  set (s2 := if (tick mod 78 =? 0)%Z then _ else s1).
  assert (H2 : day_ok s2 /\ ((0 < tick + 1)%Z -> (1 # 100) <= low s2)
               /\ history s2 = history s1).
  { unfold s2. destruct (tick mod 78 =? 0)%Z eqn:E.
    - destruct (_openDay_ok (d_scenario d) (d_gap d) s1) as (A & B & C & _).
      auto.
    - split; [exact Hok1|]. split; [|reflexivity]. intros _.
      rewrite Hlow1. apply Hpos.
      apply Z.eqb_neq in E. destruct (Z.eq_dec tick 0%Z) as [->|]; [|lia].
      exfalso. apply E. reflexivity. }
  destruct H2 as (Hok2 & Hlow2 & Hhist2).
  set (s3 := match d_event d with Some h => hit h s2 | None => s2 end).
  assert (H3 : day_ok s3 /\ low s3 = low s2 /\ history s3 = history s2).
  { unfold s3. destruct (d_event d); [|auto].
    split; [exact Hok2|]. split; reflexivity. }
  destruct H3 as (Hok3 & Hlow3 & Hhist3).
  destruct (_updatePrice_ok (d_scenario d) tick (d_noise d) (d_volume d)
              (d_bid d) (d_ask d) s3)
    as (U1 & U2 & U3 & U4 & U5 & U6 & U7 & _).
  unfold walk_ok. rewrite U4, Hhist3, Hhist2.
  split; [lia|]. split; [exact Hday|]. split; [apply U1, Hok3|].
  split; [|split; [exact Hbars1 | exact Htimes1]].
  intros Hpos'. split; [apply U3; rewrite Hlow3; apply Hlow2, Hpos'|].
  auto.
Qed.

Lemma ticks_walk draws : forall tick day s,
  walk_ok tick day s ->
  exists day',
    walk_ok (tick + Z.of_nat (length draws)) day' (ticks tick day draws s).
Proof.
  induction draws as [|d draws IH]; intros tick day s H.
  - exists day. cbn [ticks length]. rewrite Z.add_0_r. exact H.
  - cbn [ticks length].
    destruct (IH _ _ _ (_tick_walk tick day d s H)) as [day' H'].
    exists day'. replace (tick + Z.of_nat (S (length draws)))%Z
      with (tick + 1 + Z.of_nat (length draws))%Z by lia.
    exact H'.
Qed.

(** X30.  The daily bars of the synthetic market are well-formed whatever
    the random draws, scenarios and events: after any number of ticks
    from a fresh instrument, the running day's low and high bracket its
    open and its current price; once a tick has run, the price and the
    day's low are at least one cent and [close], [dayHigh] and [dayLow]
    mirror [price], [high] and [low]; every bar pushed to [history] has
    its open and close between its low and high and its low at least one
    cent; and after [n] ticks [history] holds [(n - 1) / 78] bars (the
    bar of a day of 78 ticks is pushed by the first tick of the next
    day), stamped with the day numbers 0, 1, 2, ... in order. *)
Theorem synthetic_bars_are_well_formed :
  forall (basePrice volatility trend : Q) (draws : list Draw),
    let s := ticks 0 0 draws (init basePrice volatility trend) in
    let n := length draws in
    low s <= open s <= high s /\ low s <= price s <= high s
    /\ (draws <> [] ->
        (1 # 100) <= low s /\ (1 # 100) <= price s
        /\ close s = price s /\ dayHigh s = high s /\ dayLow s = low s)
    /\ Forall bar_ok (history s)
    /\ b_time <$> history s = Z.of_nat <$> seq 0 ((n - 1) / 78).
Proof.
  intros b v tr draws s n.
  assert (H0 : walk_ok 0 0 (init b v tr)).
  { unfold walk_ok, day_ok. cbn.
    repeat split; try apply Qle_refl; try lia. constructor. }
  destruct (ticks_walk draws 0 0 _ H0) as [day' (Ht & Hd & Hok & Hpos & Hbars & Htimes)].
  fold s in Hok, Hpos, Hbars, Htimes. fold n in Ht, Hd, Hpos.
  destruct Hok as [Ho Hp]. split; [exact Ho|]. split; [exact Hp|].
  split.
  - intros Hne. apply Hpos. destruct draws; [congruence|]. cbn in n. lia.
  - split; [exact Hbars|]. rewrite Htimes. f_equal. f_equal.
    rewrite Hd, !Z.add_0_l. destruct (Z.of_nat n =? 0)%Z eqn:E.
    + apply Z.eqb_eq in E. assert (n = 0)%nat as -> by lia. reflexivity.
    + apply Z.eqb_neq in E.
      replace (Z.of_nat n - 1)%Z with (Z.of_nat (n - 1)) by lia.
      rewrite <- (Nat2Z.id ((n - 1) / 78)), Nat2Z.inj_div. reflexivity.
Qed.

Lemma synthetic_bars_are_well_formed_witness :
  let d := mkDraw (mkScenario 1 1 1) None (1 # 2) (9 # 10) 0 (1 # 2) (1 # 2) in
  let s := ticks 0 0 [d; d] (init 185 (25 # 1000) (4 # 10000)) in
  (1 # 100) <= price s /\ close s = price s.
Proof.
  intros d s.
  destruct (synthetic_bars_are_well_formed 185 (25 # 1000) (4 # 10000) [d; d])
    as (_ & _ & H & _).
  destruct H as (_ & H1 & H2 & _); [discriminate|].
  split; [exact H1 | exact H2].
Defined.

End StockFacts.
